(** * asset-pipe-server: the fetch / parse / bundle / address / upload pipeline

    A shallow embedding of the module of the pipeline functions
    (createHashFromContent, fetchFeeds, parseFeeds, bundleFeeds, upload,
    bundleAndUpload, parseBody, validateFeeds) and of the [fileName] and
    [ids] schemas of [lib/schemas.js], together with the library behaviour
    these functions rely on: String.prototype.includes,
    RegExp.prototype.test, JSON.parse, crypto's SHA-256, Boom.boomify,
    p-retry, Promise.all and the Joi combinators of the schemas.

    The sink and the two bundlers are collaborators: the sink is a
    parameter of every function that takes it in the source, the bundlers
    are parameters of the functions that call them.  The fetches of
    [fetchFeeds] run on one event loop; a schedule says in which order they
    get their turns, and every statement about a run holds for every
    schedule. *)

From Stdlib Require Import List NArith PeanoNat Lia Bool String Ascii.
Import ListNotations.

Set Implicit Arguments.
Set Warnings "-register-all".

(** ** JavaScript strings

    A JavaScript string is a finite sequence of UTF-16 code units.  String
    literals of the source are written [js "..."]. *)

Definition jsstring := list N.

Definition js (s : string) : jsstring :=
  map N_of_ascii (list_ascii_of_string s).

(** The code unit of the double quote, which the literals of the source
    contain. *)
Definition dquote : N := 34%N.

Definition jsstring_eqb (a b : jsstring) : bool :=
  if list_eq_dec N.eq_dec a b then true else false.

(** [starts_with p s]: [p] is a prefix of [s]. *)
Fixpoint starts_with (p s : jsstring) : bool :=
  match p, s with
  | [], _ => true
  | _ :: _, [] => false
  | a :: p', b :: s' => N.eqb a b && starts_with p' s'
  end.

(** String.prototype.includes: [needle] occurs in [hay] as a substring. *)
Fixpoint includes (needle hay : jsstring) : bool :=
  starts_with needle hay ||
  match hay with
  | [] => false
  | _ :: hay' => includes needle hay'
  end.

(** ** Regular expressions

    The fragment of JavaScript regular expressions the source uses: literal
    characters, the dot and the star.  Without the [s] flag the dot matches
    every code unit but the four line terminators. *)
Module Regex.

Inductive regex : Type :=
| Void
| Eps
| Chr (c : N)
| Dot
| Cat (r s : regex)
| Alt (r s : regex)
| Star (r : regex).

Definition is_line_terminator (c : N) : bool :=
  (c =? 10)%N || (c =? 13)%N || (c =? 8232)%N || (c =? 8233)%N.

(** The language of a regular expression. *)
Inductive matches : regex -> jsstring -> Prop :=
| MEps : matches Eps []
| MChr c : matches (Chr c) [c]
| MDot c : is_line_terminator c = false -> matches Dot [c]
| MCat r s u v : matches r u -> matches s v -> matches (Cat r s) (u ++ v)
| MAltL r s u : matches r u -> matches (Alt r s) u
| MAltR r s u : matches s u -> matches (Alt r s) u
| MStarNil r : matches (Star r) []
| MStarApp r u v : matches r u -> matches (Star r) v -> matches (Star r) (u ++ v).

Fixpoint nullable (r : regex) : bool :=
  match r with
  | Void | Chr _ | Dot => false
  | Eps | Star _ => true
  | Cat r s => nullable r && nullable s
  | Alt r s => nullable r || nullable s
  end.

(** Brzozowski derivative of [r] with respect to the code unit [c]. *)
Fixpoint deriv (c : N) (r : regex) : regex :=
  match r with
  | Void | Eps => Void
  | Chr d => if (c =? d)%N then Eps else Void
  | Dot => if is_line_terminator c then Void else Eps
  | Cat r s =>
      if nullable r then Alt (Cat (deriv c r) s) (deriv c s)
      else Cat (deriv c r) s
  | Alt r s => Alt (deriv c r) (deriv c s)
  | Star r => Cat (deriv c r) (Star r)
  end.

(** Some prefix of [s] is in the language of [r]. *)
Fixpoint match_prefix (r : regex) (s : jsstring) : bool :=
  nullable r ||
  match s with
  | [] => false
  | c :: s' => match_prefix (deriv c r) s'
  end.

(** RegExp.prototype.test for a pattern without anchors or flags: some
    substring of [s] is in the language of [r]. *)
Fixpoint test (r : regex) (s : jsstring) : bool :=
  match_prefix r s ||
  match s with
  | [] => false
  | _ :: s' => test r s'
  end.

(** The pattern of a literal string. *)
Fixpoint lit (s : jsstring) : regex :=
  match s with
  | [] => Eps
  | c :: s' => Cat (Chr c) (lit s')
  end.

End Regex.

(** ** Errors

    A thrown [Error] object: its class, which [instanceof] inspects, and its
    [message]. *)
Inductive ErrorClass : Type :=
| ErrorC
| TypeErrorC
| SyntaxErrorC
| OtherC (name : jsstring).

Record JsError : Type := mkError {
  eclass : ErrorClass;
  message : jsstring
}.

(** [new Error(m)] *)
Definition new_Error (m : jsstring) : JsError :=
  {| eclass := ErrorC; message := m |}.

(** [err instanceof TypeError] *)
Definition is_TypeError (e : JsError) : bool :=
  match eclass e with
  | TypeErrorC => true
  | _ => false
  end.

(** ** Boom

    [Boom.boomify(err, { statusCode, message })] decorates the error object
    [err] in place: it stays the same object (recorded as [original], with the
    message it had when it was thrown), gets [output.statusCode] (500 when the
    option is absent) and has the given message put before its own, separated
    by a colon and a space.  Every call of the source passes a non-empty
    [message]; the errors it passes come from the sink, the bundlers,
    [JSON.parse], Joi and p-retry, and are taken not to be Boom errors
    already. *)
Module Boom.

Record BoomError : Type := mkBoom {
  original : JsError;
  statusCode : N;
  bmessage : jsstring
}.

Definition boomify (err : JsError) (status : option N) (msg : jsstring)
  : BoomError :=
  {| original := err;
     statusCode := match status with Some c => c | None => 500%N end;
     bmessage := msg ++ match message err with
                        | [] => []
                        | m => js ": " ++ m
                        end |}.

(** [err.isServer] *)
Definition isServer (b : BoomError) : bool := (500 <=? statusCode b)%N.

(** What is thrown is [err] itself, decorated: its class, which
    [instanceof] and [err.name] show, is the class [err] had. *)
Definition error_class (b : BoomError) : ErrorClass := eclass (original b).

End Boom.
Import Boom.

(** ** Promises and p-retry *)

Inductive Promise (A : Type) : Type :=
| Pending
| Fulfilled (a : A)
| Rejected (e : JsError).
Arguments Pending {A}.
Arguments Fulfilled {A} a.
Arguments Rejected {A} e.

(** What one call of the function handed to [pretry] does: it returns a
    value, throws an error, or throws [new pretry.AbortError(msg)]. *)
Inductive Attempt (A : Type) : Type :=
| Returned (a : A)
| Threw (e : JsError)
| ThrewAbort (msg : jsstring).
Arguments Returned {A} a.
Arguments Threw {A} e.
Arguments ThrewAbort {A} msg.

Module Retry.

(** The state of one [pretry(fn, { retries })] call: the number of calls of
    [fn] made so far, the errors pushed by [operation.retry] so far, and the
    promise [pretry] returned. *)
Record Operation (A : Type) : Type := mkOp {
  attempts : nat;
  errors : list JsError;
  settled : Promise A
}.
Arguments mkOp {A} attempts errors settled.
Arguments attempts {A} o.
Arguments errors {A} o.
Arguments settled {A} o.

Definition new_operation {A : Type} : Operation A :=
  mkOp 0 [] Pending.

Fixpoint count_message (m : jsstring) (es : list JsError) : nat :=
  match es with
  | [] => 0
  | e :: es' =>
      (if jsstring_eqb (message e) m then 1 else 0) + count_message m es'
  end.

(** [operation.mainError()] of the [retry] module: the error whose message
    occurred most often, the latest one among equals. *)
Fixpoint mainError_loop (seen rest : list JsError) (main : option JsError)
  (mainCount : nat) : option JsError :=
  match rest with
  | [] => main
  | e :: rest' =>
      let count := count_message (message e) seen + 1 in
      if mainCount <=? count
      then mainError_loop (seen ++ [e]) rest' (Some e) count
      else mainError_loop (seen ++ [e]) rest' main mainCount
  end.

Definition mainError (es : list JsError) : option JsError :=
  mainError_loop [] es None 0.

(** The handler [pretry] installs on the promise of one attempt.  A value
    resolves; an [AbortError] stops the operation and rejects with its
    [originalError], a fresh [Error] carrying the message; a [TypeError]
    stops and rejects; any other error goes to [operation.retry], which
    pushes it and schedules another attempt while one of the [retries]
    timeouts is left, and otherwise the promise is rejected with the main
    error. *)
Definition pretry_settle {A : Type} (retries : nat) (op : Operation A)
  (r : Attempt A) : Operation A :=
  let n := S (attempts op) in
  match r with
  | Returned a => mkOp n (errors op) (Fulfilled a)
  | ThrewAbort msg => mkOp n (errors op) (Rejected (new_Error msg))
  | Threw e =>
      if is_TypeError e then mkOp n (errors op) (Rejected e)
      else
        let es := errors op ++ [e] in
        if List.length (errors op) <? retries then mkOp n es Pending
        else mkOp n es (Rejected (match mainError es with
                                  | Some m => m
                                  | None => e
                                  end))
  end.

(** One attempt of a pending operation; a settled operation calls [fn] no
    more. *)
Definition pretry_attempt {A W : Type} (retries : nat)
  (fn : W -> Attempt A * W) (op : Operation A) (w : W) : Operation A * W :=
  match settled op with
  | Pending => let (r, w') := fn w in (pretry_settle retries op r, w')
  | _ => (op, w)
  end.

(** [await pretry(fn, { retries })] with nothing else running: the attempts
    follow one another. *)
Fixpoint pretry_loop {A W : Type} (fuel retries : nat)
  (fn : W -> Attempt A * W) (op : Operation A) (w : W) : Operation A * W :=
  match fuel with
  | 0 => (op, w)
  | S fuel' =>
      let (op', w') := pretry_attempt retries fn op w in
      pretry_loop fuel' retries fn op' w'
  end.

Definition pretry {A W : Type} (retries : nat) (fn : W -> Attempt A * W)
  (w : W) : Operation A * W :=
  pretry_loop (S retries) retries fn new_operation w.

End Retry.
Import Retry.

(** ** The Sink

    The storage collaborator: [get] and [set] act on the sink's own state and
    resolve or reject. *)
Record Sink (St : Type) : Type := mkSink {
  get : jsstring -> St -> (JsError + jsstring) * St;
  set : jsstring -> jsstring -> St -> (JsError + unit) * St
}.

(** The sink calls of a run, oldest first.  A [get] is tagged with the
    position in [ids] of the fetch that made it. *)
Inductive SinkCall : Type :=
| GetCall (op : nat) (file : jsstring) (res : JsError + jsstring)
| SetCall (file content : jsstring) (res : JsError + unit).

Record World (St : Type) : Type := mkWorld {
  store : St;
  calls : list SinkCall
}.

(** The answers the sink gave to the [get] calls of fetch number [i]. *)
Fixpoint responses (i : nat) (cs : list SinkCall)
  : list (JsError + jsstring) :=
  match cs with
  | [] => []
  | GetCall j _ res :: cs' =>
      if Nat.eqb i j then res :: responses i cs' else responses i cs'
  | SetCall _ _ _ :: cs' => responses i cs'
  end.

(** The answers the sink gave to the [set] calls. *)
Fixpoint set_responses (cs : list SinkCall) : list (JsError + unit) :=
  match cs with
  | [] => []
  | SetCall _ _ res :: cs' => res :: set_responses cs'
  | GetCall _ _ _ :: cs' => set_responses cs'
  end.

(** The calls made between the worlds [w] and [w']. *)
Definition new_calls {St : Type} (w w' : World St) : list SinkCall :=
  skipn (List.length (calls w)) (calls w').

Fixpoint update_nth {A : Type} (i : nat) (x : A) (l : list A) : list A :=
  match l, i with
  | [], _ => []
  | _ :: l', 0 => x :: l'
  | a :: l', S i' => a :: update_nth i' x l'
  end.

(** ** fetchFeeds *)
Section Fetch.

Variable St : Type.
Variable sink : Sink St.

Definition sink_get (i : nat) (file : jsstring) (w : World St)
  : (JsError + jsstring) * World St :=
  let (res, st') := get sink file (store w) in
  (res, {| store := st'; calls := calls w ++ [GetCall i file res] |}).

(** The [try]/[catch] of [run(file)] around [await sink.get(file)]: the
    value is returned; a rejection whose message includes 'No file with name'
    becomes an [AbortError] naming the file; any other is thrown again. *)
Definition run_outcome (file : jsstring) (res : JsError + jsstring)
  : Attempt jsstring :=
  match res with
  | inr raw => Returned raw
  | inl err =>
      if includes (js "No file with name") (message err)
      then ThrewAbort (js "File " ++ [dquote] ++ file ++ [dquote]
                       ++ js " not found.")
      else Threw err
  end.

Definition run (i : nat) (file : jsstring) (w : World St)
  : Attempt jsstring * World St :=
  let (res, w') := sink_get i file w in
  (run_outcome file res, w').

(** The fetches of [ids.map(file => pretry(run(file), { retries }))] and
    the promise of [Promise.all] over them. *)
Record FetchState : Type := mkFetch {
  ops : list (Operation jsstring);
  all : Promise (list jsstring)
}.

Fixpoint all_fulfilled (os : list (Operation jsstring))
  : option (list jsstring) :=
  match os with
  | [] => Some []
  | o :: os' =>
      match settled o, all_fulfilled os' with
      | Fulfilled v, Some vs => Some (v :: vs)
      | _, _ => None
      end
  end.

Definition fetch_init (ids : list jsstring) : FetchState :=
  let os := map (fun _ => new_operation) ids in
  {| ops := os;
     all := match all_fulfilled os with
            | Some vs => Fulfilled vs
            | None => Pending
            end |}.

(** [Promise.all] after the fetch [o] has changed: the first rejection
    rejects it, the last fulfilment fulfils it with the values in the order
    of [ids], and once settled it stays as it is. *)
Definition Promise_all_update (p : Promise (list jsstring))
  (os : list (Operation jsstring)) (o : Operation jsstring)
  : Promise (list jsstring) :=
  match p with
  | Pending =>
      match settled o with
      | Rejected e => Rejected e
      | _ => match all_fulfilled os with
             | Some vs => Fulfilled vs
             | None => Pending
             end
      end
  | _ => p
  end.

(** The event loop gives fetch number [i] its turn: if it is pending it
    makes its next attempt, one call of [sink.get] with its answer. *)
Definition fetch_step (retries : nat) (ids : list jsstring) (i : nat)
  (sw : FetchState * World St) : FetchState * World St :=
  let (st, w) := sw in
  match nth_error ids i, nth_error (ops st) i with
  | Some file, Some op =>
      match settled op with
      | Pending =>
          let (op', w') := pretry_attempt retries (run i file) op w in
          let os := update_nth i op' (ops st) in
          ({| ops := os; all := Promise_all_update (all st) os op' |}, w')
      | _ => (st, w)
      end
  | _, _ => (st, w)
  end.

(** A schedule lists the fetches in the order in which they get their
    turns. *)
Definition fetch_steps (retries : nat) (ids : list jsstring)
  (sched : list nat) (sw : FetchState * World St) : FetchState * World St :=
  fold_left (fun sw i => fetch_step retries ids i sw) sched sw.

(** The pattern [/File ".*json" not found/]. *)
Definition json_not_found : Regex.regex :=
  Regex.Cat (Regex.lit (js "File " ++ [dquote]))
    (Regex.Cat (Regex.Star Regex.Dot)
       (Regex.lit (js "json" ++ [dquote] ++ js " not found"))).

(** [/File ".*json" not found/.test(err.message) ? 404 : 500] *)
Definition fetch_status (err : JsError) : N :=
  if Regex.test json_not_found (message err) then 404%N else 500%N.

(** The state the answers [rs] of the sink lead the fetch of [file] to. *)
Definition replay (retries : nat) (file : jsstring)
  (rs : list (JsError + jsstring)) (op : Operation jsstring)
  : Operation jsstring :=
  fold_left (fun o r => pretry_settle retries o (run_outcome file r)) rs op.

(** A failure of [sink.get] that [run] passes on and [pretry] retries. *)
Definition transient_get (err : JsError) : Prop :=
  is_TypeError err = false
  /\ includes (js "No file with name") (message err) = false.

(** How the promise of [Promise.all] stands to the fetches: pending, none
    of them is rejected and not all are fulfilled; fulfilled, it holds their
    values; rejected, it holds the error of one of them. *)
Definition all_agrees (st : FetchState) : Prop :=
  match all st with
  | Pending =>
      all_fulfilled (ops st) = None
      /\ forall j o e, nth_error (ops st) j = Some o -> settled o <> Rejected e
  | Fulfilled vs => all_fulfilled (ops st) = Some vs
  | Rejected e =>
      exists j o, nth_error (ops st) j = Some o /\ settled o = Rejected e
  end.

Definition no_line_terminator (s : jsstring) : Prop :=
  Forall (fun c => Regex.is_line_terminator c = false) s.

(** The messages the pattern [/File ".*json" not found/] finds something
    in. *)
Definition says_json_not_found (msg : jsstring) : Prop :=
  exists a mid z,
    msg = a ++ ((js "File " ++ [dquote]) ++ mid
                ++ (js "json" ++ [dquote] ++ js " not found")) ++ z
    /\ no_line_terminator mid.

(** A pending fetch has failed as often as it has tried, and within the
    budget. *)
Definition pending_in_budget (retries : nat) (st : FetchState) : Prop :=
  forall i op,
    nth_error (ops st) i = Some op ->
    settled op = Pending ->
    attempts op = List.length (errors op)
    /\ List.length (errors op) <= retries.

(** [fetchFeeds(sink, ids, retries)] under the schedule [sched]: what the
    [await] of [Promise.all] gives once the turns of [sched] have been taken,
    [None] while the promise is still pending.  (In the source [retries]
    is 0 when the caller leaves it out.) *)
Definition fetchFeeds (ids : list jsstring) (retries : nat)
  (sched : list nat) (w : World St)
  : option ((BoomError + list jsstring) * World St) :=
  let (st, w') := fetch_steps retries ids sched (fetch_init ids, w) in
  match all st with
  | Pending => None
  | Fulfilled raws => Some (inr raws, w')
  | Rejected err =>
      Some (inl (boomify err (Some (fetch_status err))
                   (js "Unable to fetch 1 or more feeds from storage.")), w')
  end.

End Fetch.

(** ** SHA-256 (FIPS 180-4), the hash behind [crypto.createHash('sha256')] *)
Module Sha256.

Local Open Scope N_scope.

Definition add32 (x y : N) : N := (x + y) mod 2 ^ 32.

Definition rotr (n x : N) : N :=
  N.lor (N.shiftr x n) (N.shiftl x (32 - n) mod 2 ^ 32).

Definition Ch (x y z : N) : N :=
  N.lxor (N.land x y) (N.land (N.lxor x (2 ^ 32 - 1)) z).

Definition Maj (x y z : N) : N :=
  N.lxor (N.lxor (N.land x y) (N.land x z)) (N.land y z).

Definition big_sigma0 (x : N) : N :=
  N.lxor (N.lxor (rotr 2 x) (rotr 13 x)) (rotr 22 x).

Definition big_sigma1 (x : N) : N :=
  N.lxor (N.lxor (rotr 6 x) (rotr 11 x)) (rotr 25 x).

Definition small_sigma0 (x : N) : N :=
  N.lxor (N.lxor (rotr 7 x) (rotr 18 x)) (N.shiftr x 3).

Definition small_sigma1 (x : N) : N :=
  N.lxor (N.lxor (rotr 17 x) (rotr 19 x)) (N.shiftr x 10).

(** The round constants are the first 32 bits of the fractional parts of
    the cube roots of the first 64 primes, the initial hash value those of
    the square roots of the first 8. *)
Definition primes : list N :=
  [2; 3; 5; 7; 11; 13; 17; 19; 23; 29; 31; 37; 41; 43; 47; 53; 59; 61; 67;
   71; 73; 79; 83; 89; 97; 101; 103; 107; 109; 113; 127; 131; 137; 139; 149;
   151; 157; 163; 167; 173; 179; 181; 191; 193; 197; 199; 211; 223; 227; 229;
   233; 239; 241; 251; 257; 263; 269; 271; 277; 281; 283; 293; 307; 311].

Fixpoint cube_root_loop (bits : nat) (n r : N) : N :=
  match bits with
  | O => r
  | S b =>
      let c := r + 2 ^ N.of_nat b in
      cube_root_loop b n (if c * c * c <=? n then c else r)
  end.

Definition cube_root (n : N) : N := cube_root_loop 48 n 0.

Definition round_constants : list N :=
  Eval vm_compute in map (fun p => cube_root (p * 2 ^ 96) mod 2 ^ 32) primes.

Record HashValue : Type := mkHash {
  h0 : N; h1 : N; h2 : N; h3 : N; h4 : N; h5 : N; h6 : N; h7 : N
}.

Definition initial_hash : HashValue :=
  Eval vm_compute in
    let frac p := N.sqrt (p * 2 ^ 64) mod 2 ^ 32 in
    mkHash (frac 2) (frac 3) (frac 5) (frac 7)
           (frac 11) (frac 13) (frac 17) (frac 19).

(** Padding: the bit 1, zeros up to 56 modulo 64 bytes, and the length of
    the message in bits as a 64-bit big-endian number. *)
Definition be_bytes (count : nat) (n : N) : list N :=
  map (fun k => N.shiftr n (8 * N.of_nat k) mod 256) (rev (seq 0 count)).

Definition pad (msg : list N) : list N :=
  let len := N.of_nat (List.length msg) in
  msg ++ [128] ++ repeat 0 (N.to_nat ((119 - len mod 64) mod 64))
      ++ be_bytes 8 (8 * len).

Fixpoint words (fuel : nat) (bytes : list N) : list N :=
  match fuel, bytes with
  | S fuel', b3 :: b2 :: b1 :: b0 :: rest =>
      (((b3 mod 256) * 256 + b2 mod 256) * 256 + b1 mod 256) * 256
        + b0 mod 256
      :: words fuel' rest
  | _, _ => []
  end.

Fixpoint blocks (fuel : nat) (ws : list N) : list (list N) :=
  match fuel, ws with
  | S fuel', _ :: _ => firstn 16 ws :: blocks fuel' (skipn 16 ws)
  | _, _ => []
  end.

(** The message schedule, latest word first. *)
Fixpoint schedule_loop (count : nat) (recent : list N) : list N :=
  match count with
  | O => recent
  | S count' =>
      let wt := add32 (add32 (small_sigma1 (nth 1 recent 0)) (nth 6 recent 0))
                  (add32 (small_sigma0 (nth 14 recent 0)) (nth 15 recent 0)) in
      schedule_loop count' (wt :: recent)
  end.

Definition schedule (block : list N) : list N :=
  rev (schedule_loop 48 (rev block)).

Definition round (s : HashValue) (kw : N * N) : HashValue :=
  let (k, w) := kw in
  let t1 := add32 (add32 (add32 (h7 s) (big_sigma1 (h4 s)))
                     (add32 (Ch (h4 s) (h5 s) (h6 s)) k)) w in
  let t2 := add32 (big_sigma0 (h0 s)) (Maj (h0 s) (h1 s) (h2 s)) in
  mkHash (add32 t1 t2) (h0 s) (h1 s) (h2 s)
         (add32 (h3 s) t1) (h4 s) (h5 s) (h6 s).

Definition compress (s : HashValue) (block : list N) : HashValue :=
  let t := fold_left round (combine round_constants (schedule block)) s in
  mkHash (add32 (h0 s) (h0 t)) (add32 (h1 s) (h1 t))
         (add32 (h2 s) (h2 t)) (add32 (h3 s) (h3 t))
         (add32 (h4 s) (h4 t)) (add32 (h5 s) (h5 t))
         (add32 (h6 s) (h6 t)) (add32 (h7 s) (h7 t)).

Definition sha256 (msg : list N) : HashValue :=
  let padded := pad msg in
  let ws := words (List.length padded) padded in
  fold_left compress (blocks (List.length ws) ws) initial_hash.

(** [digest('hex')]: eight hexadecimal digits per word, in lower case. *)
Definition hex_digit (n : N) : N :=
  if n <? 10 then 48 + n else 87 + n.

Definition hex_word (w : N) : jsstring :=
  map (fun k => hex_digit (N.shiftr w (4 * k) mod 16)) [7; 6; 5; 4; 3; 2; 1; 0].

Definition hex (s : HashValue) : jsstring :=
  hex_word (h0 s) ++ hex_word (h1 s) ++ hex_word (h2 s) ++ hex_word (h3 s)
    ++ hex_word (h4 s) ++ hex_word (h5 s) ++ hex_word (h6 s)
    ++ hex_word (h7 s).

(** The UTF-8 encoding of a string, as [hasher.update(content, 'utf8')]
    feeds it to the hash: a surrogate pair is one code point, a lone
    surrogate becomes U+FFFD. *)
Definition is_high_surrogate (c : N) : bool := (55296 <=? c) && (c <=? 56319).
Definition is_low_surrogate (c : N) : bool := (56320 <=? c) && (c <=? 57343).

Definition utf8_3 (c : N) : list N :=
  [224 + N.shiftr c 12; 128 + N.shiftr c 6 mod 64; 128 + c mod 64].

Definition utf8_4 (c : N) : list N :=
  [240 + N.shiftr c 18; 128 + N.shiftr c 12 mod 64;
   128 + N.shiftr c 6 mod 64; 128 + c mod 64].

Fixpoint utf8 (s : jsstring) : list N :=
  match s with
  | [] => []
  | c :: s' =>
      if c <? 128 then c :: utf8 s'
      else if c <? 2048 then 192 + N.shiftr c 6 :: 128 + c mod 64 :: utf8 s'
      else if is_high_surrogate c then
        match s' with
        | d :: s'' =>
            if is_low_surrogate d
            then utf8_4 (65536 + (c - 55296) * 1024 + (d - 56320)) ++ utf8 s''
            else utf8_3 65533 ++ utf8 s'
        | [] => utf8_3 65533
        end
      else if is_low_surrogate c then utf8_3 65533 ++ utf8 s'
      else utf8_3 c ++ utf8 s'
  end.

End Sha256.

(** ** createHashFromContent *)
Definition createHashFromContent (content : jsstring) : jsstring :=
  Sha256.hex (Sha256.sha256 (Sha256.utf8 content)).

(** ** JavaScript values and JSON.parse

    The values JSON text denotes, and [undefined].  A number keeps its
    source text; an object keeps its members in source order. *)
Inductive JsValue : Type :=
| VUndefined
| VNull
| VBool (b : bool)
| VNumber (lexeme : jsstring)
| VString (s : jsstring)
| VArray (items : list JsValue)
| VObject (members : list (jsstring * JsValue)).

Module JSON.

Local Open Scope N_scope.

Definition is_ws (c : N) : bool :=
  (c =? 32) || (c =? 9) || (c =? 10) || (c =? 13).

Fixpoint skip_ws (s : jsstring) : jsstring :=
  match s with
  | c :: s' => if is_ws c then skip_ws s' else s
  | [] => []
  end.

Definition is_digit (c : N) : bool := (48 <=? c) && (c <=? 57).

Definition hex_value (c : N) : option N :=
  if is_digit c then Some (c - 48)
  else if (97 <=? c) && (c <=? 102) then Some (c - 87)
  else if (65 <=? c) && (c <=? 70) then Some (c - 55)
  else None.

Definition hex4 (a b c d : N) : option N :=
  match hex_value a, hex_value b, hex_value c, hex_value d with
  | Some x3, Some x2, Some x1, Some x0 =>
      Some (((x3 * 16 + x2) * 16 + x1) * 16 + x0)
  | _, _, _, _ => None
  end.

(** The character a one-letter escape stands for. *)
Definition escape (c : N) : option N :=
  if c =? 34 then Some 34          (* quotation mark *)
  else if c =? 92 then Some 92     (* reverse solidus *)
  else if c =? 47 then Some 47     (* solidus *)
  else if c =? 98 then Some 8      (* b *)
  else if c =? 102 then Some 12    (* f *)
  else if c =? 110 then Some 10    (* n *)
  else if c =? 114 then Some 13    (* r *)
  else if c =? 116 then Some 9     (* t *)
  else None.

(** The rest of a string literal after its opening quote: the string it
    denotes, latest character first in [acc], and the text after the closing
    quote. *)
Fixpoint string_chars (s acc : jsstring) : option (jsstring * jsstring) :=
  match s with
  | [] => None
  | c :: s' =>
      if c =? 34 then Some (rev acc, s')
      else if c =? 92 then
        match s' with
        | [] => None
        | e :: s'' =>
            if e =? 117 then
              match s'' with
              | x3 :: x2 :: x1 :: x0 :: s''' =>
                  match hex4 x3 x2 x1 x0 with
                  | Some u => string_chars s''' (u :: acc)
                  | None => None
                  end
              | _ => None
              end
            else
              match escape e with
              | Some u => string_chars s'' (u :: acc)
              | None => None
              end
        end
      else if c <? 32 then None
      else string_chars s' (c :: acc)
  end.

Fixpoint digits (s : jsstring) : jsstring * jsstring :=
  match s with
  | c :: s' =>
      if is_digit c then let (ds, r) := digits s' in (c :: ds, r)
      else ([], s)
  | [] => ([], [])
  end.

(** The digits required at the head of [s]. *)
Definition digits1 (s : jsstring) : option (jsstring * jsstring) :=
  match digits s with
  | ([], _) => None
  | (ds, r) => Some (ds, r)
  end.

Definition int_part (s : jsstring) : option (jsstring * jsstring) :=
  match s with
  | c :: s' =>
      if c =? 48 then Some ([c], s')
      else digits1 s
  | [] => None
  end.

Definition frac_part (s : jsstring) : option (jsstring * jsstring) :=
  match s with
  | c :: s' =>
      if c =? 46 then
        match digits1 s' with
        | Some (ds, r) => Some (c :: ds, r)
        | None => None
        end
      else Some ([], s)
  | [] => Some ([], [])
  end.

Definition exp_part (s : jsstring) : option (jsstring * jsstring) :=
  match s with
  | c :: s' =>
      if (c =? 101) || (c =? 69) then
        let (sign, s'') :=
          match s' with
          | d :: t => if (d =? 43) || (d =? 45) then ([d], t) else ([], s')
          | [] => ([], [])
          end in
        match digits1 s'' with
        | Some (ds, r) => Some (c :: sign ++ ds, r)
        | None => None
        end
      else Some ([], s)
  | [] => Some ([], [])
  end.

Definition number (s : jsstring) : option (jsstring * jsstring) :=
  let (sign, s1) :=
    match s with
    | c :: t => if c =? 45 then ([c], t) else ([], s)
    | [] => ([], [])
    end in
  match int_part s1 with
  | None => None
  | Some (i, s2) =>
      match frac_part s2 with
      | None => None
      | Some (f, s3) =>
          match exp_part s3 with
          | None => None
          | Some (e, s4) => Some (sign ++ i ++ f ++ e, s4)
          end
      end
  end.

Section Values.

(** The parser of a value one nesting level down. *)
Variable value : jsstring -> option (JsValue * jsstring).

(** The elements of an array after its opening bracket, when it is not
    empty. *)
Fixpoint elements (fuel : nat) (s : jsstring) (acc : list JsValue)
  : option (JsValue * jsstring) :=
  match value s with
  | None => None
  | Some (v, r) =>
      match skip_ws r with
      | c :: r' =>
          if c =? 93 then Some (VArray (rev (v :: acc)), r')
          else if c =? 44 then
            match fuel with
            | O => None
            | S fuel' => elements fuel' r' (v :: acc)
            end
          else None
      | [] => None
      end
  end.

(** The members of an object after its opening brace, when it is not
    empty. *)
Fixpoint members (fuel : nat) (s : jsstring)
  (acc : list (jsstring * JsValue)) : option (JsValue * jsstring) :=
  match skip_ws s with
  | q :: s1 =>
      if q =? 34 then
        match string_chars s1 [] with
        | None => None
        | Some (key, s2) =>
            match skip_ws s2 with
            | colon :: s3 =>
                if colon =? 58 then
                  match value s3 with
                  | None => None
                  | Some (v, r) =>
                      match skip_ws r with
                      | c :: r' =>
                          if c =? 125
                          then Some (VObject (rev ((key, v) :: acc)), r')
                          else if c =? 44 then
                            match fuel with
                            | O => None
                            | S fuel' => members fuel' r' ((key, v) :: acc)
                            end
                          else None
                      | [] => None
                      end
                  end
                else None
            | [] => None
            end
        end
      else None
  | [] => None
  end.

End Values.

Fixpoint value (fuel : nat) (s : jsstring) : option (JsValue * jsstring) :=
  match fuel with
  | O => None
  | S fuel' =>
      match skip_ws s with
      | [] => None
      | c :: r =>
          if c =? 123 then
            match skip_ws r with
            | d :: r' =>
                if d =? 125 then Some (VObject [], r')
                else members (value fuel') (List.length r) r []
            | [] => None
            end
          else if c =? 91 then
            match skip_ws r with
            | d :: r' =>
                if d =? 93 then Some (VArray [], r')
                else elements (value fuel') (List.length r) r []
            | [] => None
            end
          else if c =? 34 then
            match string_chars r [] with
            | Some (str, r') => Some (VString str, r')
            | None => None
            end
          else if starts_with (js "true") (c :: r)
          then Some (VBool true, skipn 4 (c :: r))
          else if starts_with (js "false") (c :: r)
          then Some (VBool false, skipn 5 (c :: r))
          else if starts_with (js "null") (c :: r)
          then Some (VNull, skipn 4 (c :: r))
          else
            match number (c :: r) with
            | Some (lexeme, r') => Some (VNumber lexeme, r')
            | None => None
            end
      end
  end.

(** [JSON.parse(text)]: one value between optional white space, or a
    [SyntaxError].  The text of the error is the engine's; this one stands
    for it. *)
Definition syntax_error : JsError :=
  {| eclass := SyntaxErrorC; message := js "Unexpected token in JSON" |}.

Definition parse (text : jsstring) : JsError + JsValue :=
  match value (S (List.length text)) text with
  | Some (v, rest) =>
      match skip_ws rest with
      | [] => inr v
      | _ :: _ => inl syntax_error
      end
  | None => inl syntax_error
  end.

End JSON.

(** ** Joi

    The combinators [lib/schemas.js] builds [ids] from.  [validate] returns
    [{ error, value }].  The texts of the errors are Joi's own and depend on
    its version; the ones below stand for them. *)
Module Joi.

Record ValidationResult : Type := mkResult {
  error : option JsError;
  value : JsValue
}.

Definition validation_error (about what : jsstring) : JsError :=
  {| eclass := OtherC (js "ValidationError");
     message := [dquote] ++ about ++ [dquote] ++ what |}.

(** [Joi.string()] and its [required()] flag. *)
Record StringSchema : Type := mkString {
  string_required : bool
}.

Definition string : StringSchema := {| string_required := false |}.

Definition required (s : StringSchema) : StringSchema :=
  {| string_required := true |}.

(** A string schema accepts a string that is not empty, and [undefined]
    unless it is required. *)
Definition validate_string (s : StringSchema) (v : JsValue)
  : ValidationResult :=
  match v with
  | VUndefined =>
      if string_required s
      then mkResult (Some (validation_error (js "value") (js " is required"))) v
      else mkResult None v
  | VString [] =>
      mkResult (Some (validation_error (js "value")
                        (js " is not allowed to be empty"))) v
  | VString _ => mkResult None v
  | _ =>
      mkResult (Some (validation_error (js "value") (js " must be a string"))) v
  end.

Definition accepts (s : StringSchema) (v : JsValue) : bool :=
  match error (validate_string s v) with
  | None => true
  | Some _ => false
  end.

(** [Joi.array()] with its flags and rules. *)
Record ArraySchema : Type := mkArray {
  array_required : bool;
  array_items : list StringSchema;
  array_sparse : bool;
  array_min : option nat;
  array_max : option nat
}.

Definition array : ArraySchema :=
  {| array_required := false; array_items := []; array_sparse := false;
     array_min := None; array_max := None |}.

Definition array_required_ (a : ArraySchema) : ArraySchema :=
  {| array_required := true; array_items := array_items a;
     array_sparse := array_sparse a; array_min := array_min a;
     array_max := array_max a |}.

Definition items (item : StringSchema) (a : ArraySchema) : ArraySchema :=
  {| array_required := array_required a;
     array_items := array_items a ++ [item];
     array_sparse := array_sparse a; array_min := array_min a;
     array_max := array_max a |}.

Definition sparse (a : ArraySchema) : ArraySchema :=
  {| array_required := array_required a; array_items := array_items a;
     array_sparse := true; array_min := array_min a;
     array_max := array_max a |}.

Definition min (n : nat) (a : ArraySchema) : ArraySchema :=
  {| array_required := array_required a; array_items := array_items a;
     array_sparse := array_sparse a; array_min := Some n;
     array_max := array_max a |}.

Definition max (n : nat) (a : ArraySchema) : ArraySchema :=
  {| array_required := array_required a; array_items := array_items a;
     array_sparse := array_sparse a; array_min := array_min a;
     array_max := Some n |}.

(** The first of the still unmatched required item schemas that accepts
    [v] is taken out. *)
Fixpoint take_required (requireds : list StringSchema) (v : JsValue)
  : option (list StringSchema) :=
  match requireds with
  | [] => None
  | r :: rs =>
      if accepts r v then Some rs
      else match take_required rs v with
           | Some rs' => Some (r :: rs')
           | None => None
           end
  end.

(** The check of the items, one after the other, stopping at the first
    error: a hole needs [sparse]; an item has to match a required item
    schema that is still unmatched, or else any of the item schemas when
    there are some; in the end no required item schema may be left
    unmatched. *)
Fixpoint check_items (a : ArraySchema) (requireds : list StringSchema)
  (vs : list JsValue) : option JsError :=
  match vs with
  | [] =>
      match requireds with
      | [] => None
      | _ :: _ =>
          Some (validation_error (js "value")
                  (js " does not contain the required values"))
      end
  | v :: vs' =>
      match v, array_sparse a with
      | VUndefined, false =>
          Some (validation_error (js "value")
                  (js " must not be a sparse array"))
      | _, _ =>
          match take_required requireds v with
          | Some requireds' => check_items a requireds' vs'
          | None =>
              match array_items a with
              | [] => check_items a requireds vs'
              | _ :: _ =>
                  if existsb (fun s => accepts s v) (array_items a)
                  then check_items a requireds vs'
                  else Some (validation_error (js "value")
                               (js " does not match any of the allowed types"))
              end
          end
      end
  end.

Definition check_min (a : ArraySchema) (vs : list JsValue) : option JsError :=
  match array_min a with
  | Some n =>
      if List.length vs <? n
      then Some (validation_error (js "value")
                   (js " must contain at least the minimum of items"))
      else None
  | None => None
  end.

Definition check_max (a : ArraySchema) (vs : list JsValue) : option JsError :=
  match array_max a with
  | Some n =>
      if n <? List.length vs
      then Some (validation_error (js "value")
                   (js " must contain at most the maximum of items"))
      else None
  | None => None
  end.

(** [schema.validate(v)] for an array schema, with Joi's default options
    ([convert], [abortEarly]): a string that is the JSON text of an array is
    taken for that array; the items are checked, then the rules in the order
    in which the schema lists them. *)
Definition validate (a : ArraySchema) (v : JsValue) : ValidationResult :=
  match v with
  | VUndefined =>
      if array_required a
      then mkResult (Some (validation_error (js "value") (js " is required"))) v
      else mkResult None v
  | _ =>
      let v' := match v with
                | VString text =>
                    match JSON.parse text with
                    | inr (VArray vs) => VArray vs
                    | _ => v
                    end
                | _ => v
                end in
      match v' with
      | VArray vs =>
          let requireds := filter string_required (array_items a) in
          match check_items a requireds vs with
          | Some e => mkResult (Some e) v'
          | None =>
              match check_min a vs with
              | Some e => mkResult (Some e) v'
              | None =>
                  match check_max a vs with
                  | Some e => mkResult (Some e) v'
                  | None => mkResult None v'
                  end
              end
          end
      | _ =>
          mkResult (Some (validation_error (js "value")
                            (js " must be an array"))) v'
      end
  end.

End Joi.

(** ** Patterns between [^] and [$]

    [/^r$/.test(s)] for a pattern without flags: the whole of [s] is in the
    language of [r].  A character class is the choice among its
    characters, [r+] is [r] followed by [r*]. *)
Module Anchored.

Definition test (r : Regex.regex) (s : jsstring) : bool :=
  Regex.nullable (fold_left (fun r' c => Regex.deriv c r') s r).

Definition one_of (cs : list N) : Regex.regex :=
  fold_right (fun c r => Regex.Alt (Regex.Chr c) r) Regex.Void cs.

Definition plus (r : Regex.regex) : Regex.regex :=
  Regex.Cat r (Regex.Star r).

(** The code units from [lo] on, [count] of them. *)
Definition char_range (lo : N) (count : nat) : list N :=
  map (fun k => (lo + N.of_nat k)%N) (seq 0 count).

End Anchored.

(** ** Joi: string schemas with rules

    [Joi.string()] with [regex], [lowercase], [trim] and [required].  With
    Joi's default options ([convert]) a string is first put into lower case
    and trimmed when the schema says so, the empty string is refused, and
    the pattern is tested on what the conversion gave; that is also the
    value returned.  [String.prototype.toLocaleLowerCase] and
    [String.prototype.trim] are the engine's and are parameters here. *)
Module JoiString.

Record Schema : Type := mkSchema {
  pattern : option Regex.regex;
  to_lowercase : bool;
  trimmed : bool;
  is_required : bool
}.

Definition string : Schema :=
  {| pattern := None; to_lowercase := false; trimmed := false;
     is_required := false |}.

(** [.regex(/^r$/)] *)
Definition regex (r : Regex.regex) (s : Schema) : Schema :=
  {| pattern := Some r; to_lowercase := to_lowercase s;
     trimmed := trimmed s; is_required := is_required s |}.

Definition lowercase (s : Schema) : Schema :=
  {| pattern := pattern s; to_lowercase := true; trimmed := trimmed s;
     is_required := is_required s |}.

Definition trim (s : Schema) : Schema :=
  {| pattern := pattern s; to_lowercase := to_lowercase s; trimmed := true;
     is_required := is_required s |}.

Definition required (s : Schema) : Schema :=
  {| pattern := pattern s; to_lowercase := to_lowercase s;
     trimmed := trimmed s; is_required := true |}.

Section Validate.

Variable toLowerCase : jsstring -> jsstring.
Variable trim_ : jsstring -> jsstring.

Definition convert (s : Schema) (text : jsstring) : jsstring :=
  let lowered := if to_lowercase s then toLowerCase text else text in
  if trimmed s then trim_ lowered else lowered.

Definition validate (s : Schema) (v : JsValue) : Joi.ValidationResult :=
  match v with
  | VUndefined =>
      if is_required s
      then Joi.mkResult
             (Some (Joi.validation_error (js "value") (js " is required"))) v
      else Joi.mkResult None v
  | VString text =>
      let converted := convert s text in
      match converted with
      | [] =>
          Joi.mkResult
            (Some (Joi.validation_error (js "value")
                     (js " is not allowed to be empty")))
            (VString converted)
      | _ :: _ =>
          match pattern s with
          | Some r =>
              if Anchored.test r converted
              then Joi.mkResult None (VString converted)
              else Joi.mkResult
                     (Some (Joi.validation_error (js "value")
                              (js " fails to match the required pattern")))
                     (VString converted)
          | None => Joi.mkResult None (VString converted)
          end
      end
  | _ =>
      Joi.mkResult
        (Some (Joi.validation_error (js "value") (js " must be a string"))) v
  end.

End Validate.

End JoiString.

(** A chain of method calls, read from left to right. *)
Notation "x |> f" := (f x) (at level 45, left associativity, only parsing).

(** ** lib/schemas.js: ids *)
Module schemas.

Definition ids : Joi.ArraySchema :=
  Joi.array
    |> Joi.array_required_
    |> Joi.items (Joi.string |> Joi.required)
    |> Joi.sparse
    |> Joi.min 1
    |> Joi.max 100.

(** The characters of the class [[a-zA-Z0-9._-]]. *)
Definition name_chars : list N :=
  Anchored.char_range 97 26 ++ Anchored.char_range 65 26
    ++ Anchored.char_range 48 10 ++ [46; 95; 45]%N.

(** The pattern of [/^[a-zA-Z0-9._-]+\.(json|js)$/] between its anchors. *)
Definition fileName_pattern : Regex.regex :=
  Regex.Cat (Anchored.plus (Anchored.one_of name_chars))
    (Regex.Cat (Regex.Chr 46)
       (Regex.Alt (Regex.lit (js "json")) (Regex.lit (js "js")))).

Definition fileName : JoiString.Schema :=
  JoiString.string
    |> JoiString.regex fileName_pattern
    |> JoiString.lowercase
    |> JoiString.trim
    |> JoiString.required.

End schemas.

(** ** parseFeeds, bundleFeeds, upload, bundleAndUpload *)

(** [rawFeeds.map(JSON.parse)]: the first text that does not parse throws,
    and nothing is returned. *)
Fixpoint map_JSON_parse (rawFeeds : list jsstring)
  : JsError + list JsValue :=
  match rawFeeds with
  | [] => inr []
  | raw :: rest =>
      match JSON.parse raw with
      | inl err => inl err
      | inr feed =>
          match map_JSON_parse rest with
          | inl err => inl err
          | inr feeds => inr (feed :: feeds)
          end
      end
  end.

Definition parseFeeds (rawFeeds : list jsstring) : BoomError + list JsValue :=
  match map_JSON_parse rawFeeds with
  | inr feeds => inr feeds
  | inl err =>
      inl (boomify err None (js "Unable to parse 1 or more feeds as JSON."))
  end.

(** What [bundleAndUpload] throws: the [AssertionError] of its [assert], or
    the Boom error of one of its steps. *)
Inductive Failure : Type :=
| AssertionError (msg : jsstring)
| Classified (b : BoomError).

(** The [feedIds] argument: an array of ids, or any other value, of which
    only the text [`${feedIds}`] matters. *)
Inductive FeedIds : Type :=
| NotArray (shown : jsstring)
| IdArray (ids : list jsstring).

Record Uploaded : Type := mkUploaded {
  file : jsstring;
  uri : jsstring
}.

Section Pipeline.

(** The two bundlers, [@asset-pipe/js-reader] and [@asset-pipe/css-reader]:
    each returns the bundle or throws. *)
Variable bundleJS : list JsValue -> JsError + jsstring.
Variable bundleCSS : list JsValue -> JsError + jsstring.

Variable St : Type.
Variable sink : Sink St.

Definition bundleFeeds (feeds : list JsValue) (type : jsstring)
  : BoomError + jsstring :=
  if jsstring_eqb type (js "css") then
    match bundleCSS feeds with
    | inr content => inr content
    | inl err => inl (boomify err None (js "Unable to bundle feeds as CSS."))
    end
  else
    match bundleJS feeds with
    | inr content => inr content
    | inl err => inl (boomify err None (js "Unable to bundle feeds as JS."))
    end.

Definition sink_set (fileName content : jsstring) (w : World St)
  : Attempt unit * World St :=
  let (res, st') := set sink fileName content (store w) in
  (match res with
   | inr u => Returned u
   | inl err => Threw err
   end,
   {| store := st'; calls := calls w ++ [SetCall fileName content res] |}).

(** [upload(sink, fileName, content, retries)]; [None] would be a promise
    that never settles.  (In the source [retries] is 0 when the caller
    leaves it out.) *)
Definition upload (fileName content : jsstring) (retries : nat)
  (w : World St) : option ((BoomError + unit) * World St) :=
  let (op, w') := pretry retries (sink_set fileName content) w in
  match settled op with
  | Pending => None
  | Fulfilled u => Some (inr u, w')
  | Rejected err =>
      Some (inl (boomify err None
                   (js "Unable to upload bundle with fileName " ++ [dquote]
                    ++ fileName ++ [dquote] ++ js " to storage.")), w')
  end.

(** An [async] function body: it runs in a world and, unless it hangs,
    ends in a value or in what it throws.  [x <- m ;; k] is
    [const x = await m; k]. *)
Definition Async (A : Type) : Type :=
  World St -> option ((Failure + A) * World St).

Definition resolve {A : Type} (a : A) : Async A :=
  fun w => Some (inr a, w).

Definition throw {A : Type} (f : Failure) : Async A :=
  fun w => Some (inl f, w).

Definition await {A B : Type} (m : Async A) (k : A -> Async B) : Async B :=
  fun w =>
    match m w with
    | None => None
    | Some (inl f, w') => Some (inl f, w')
    | Some (inr a, w') => k a w'
    end.

(** A step that fails with a Boom error, asynchronous or not. *)
Definition classified {A : Type}
  (m : World St -> option ((BoomError + A) * World St)) : Async A :=
  fun w =>
    match m w with
    | None => None
    | Some (inl b, w') => Some (inl (Classified b), w')
    | Some (inr a, w') => Some (inr a, w')
    end.

Definition sync {A : Type} (r : BoomError + A) : Async A :=
  classified (fun w => Some (r, w)).

Notation "x <- m ;; k" := (await m (fun x => k))
  (at level 61, m at next level, right associativity).

(** [assert(Array.isArray(feedIds) && feedIds.length > 0, ...)]; the text
    of an empty array in the message is empty. *)
Definition assert_feed_ids (feedIds : FeedIds) : Async (list jsstring) :=
  match feedIds with
  | IdArray (id :: ids) => resolve (id :: ids)
  | IdArray [] =>
      throw (AssertionError (js "Expected at least 1 feed id, but got "))
  | NotArray shown =>
      throw (AssertionError
               (js "Expected at least 1 feed id, but got " ++ shown))
  end.

(** [bundleAndUpload({ sink, type, feedIds, uri })] under the schedule
    [sched] of its fetches. *)
Definition bundleAndUpload (type : jsstring) (feedIds : FeedIds)
  (uri : jsstring) (sched : list nat) : Async Uploaded :=
  ids <- assert_feed_ids feedIds ;;
  fetchedFeeds <- classified (fetchFeeds sink ids 3 sched) ;;
  parsedFeeds <- sync (parseFeeds fetchedFeeds) ;;
  content <- sync (bundleFeeds parsedFeeds type) ;;
  let fileName := createHashFromContent content ++ js "." ++ type in
  _ <- classified (upload fileName content 3) ;;
  resolve {| file := fileName; uri := uri ++ fileName |}.

End Pipeline.

(** ** parseBody, validateFeeds *)

(** [body(req, res, {})] of [body/json] reads the text of the request body
    and hands it to [JSON.parse]; the request is modelled by that text. *)
Definition parseBody (req : jsstring) : BoomError + JsValue :=
  match JSON.parse req with
  | inr payload => inr payload
  | inl e =>
      inl (boomify e (Some 400%N) (js "No feed data given in POST-body."))
  end.

Definition validateFeeds (feeds : JsValue) : BoomError + JsValue :=
  let result := Joi.validate schemas.ids feeds in
  match Joi.error result with
  | Some e =>
      inl (boomify e (Some 400%N) (js "Invalid feed data given in POST-body."))
  | None => inr (Joi.value result)
  end.

(** [sink.set(fileName, content)] is answered by the errors [errs], one
    call after the other, taking the sink from [st] to [st']. *)
Fixpoint set_fails {St : Type} (sink : Sink St) (fileName content : jsstring)
  (errs : list JsError) (st st' : St) : Prop :=
  match errs with
  | [] => st' = st
  | e :: errs' =>
      exists st1, set sink fileName content st = (inl e, st1)
                  /\ set_fails sink fileName content errs' st1 st'
  end.

(** The calls of [sink.set] that failed with [errs]. *)
Definition failed_sets (fileName content : jsstring) (errs : list JsError)
  : list SinkCall :=
  map (fun e => SetCall fileName content (inl e)) errs.

(** A lower-case hexadecimal digit. *)
Definition is_lower_hex (c : N) : bool :=
  ((48 <=? c) && (c <=? 57) || (97 <=? c) && (c <=? 102))%N.

(** A sink that keeps what it is given, seen through [contents]: [get]
    resolves with the stored content and [set] creates or overwrites, both
    at the first call. *)
Record reliable {St : Type} (sink : Sink St)
  (contents : St -> jsstring -> option jsstring) : Prop := {
  get_stored : forall st file content,
    contents st file = Some content ->
    exists st', get sink file st = (inr content, st')
                /\ forall f, contents st' f = contents st f;
  set_stores : forall st file content,
    exists st', set sink file content st = (inr tt, st')
                /\ contents st' file = Some content
                /\ forall f, f <> file -> contents st' f = contents st f
}.

(** The answers [s] begins with. *)
Definition begins {A : Type} (s : nat -> A) (rs : list A) : Prop :=
  forall n r, nth_error rs n = Some r -> s n = r.

(** A sink whose answers to [get] are scripted file by file: [script st
    file n] is what the call number [n] from now for [file] is answered
    with, whatever calls for other files come in between. *)
Record scripted {St : Type} (sink : Sink St)
  (script : St -> jsstring -> nat -> JsError + jsstring) : Prop := {
  get_next : forall st file,
    exists st', get sink file st = (script st file 0, st')
                /\ (forall n, script st' file n = script st file (S n))
                /\ (forall f, f <> file ->
                      forall n, script st' f n = script st f n)
}.

(** A run on a reliable sink that holds the feeds [raws] under [ids]: the
    contents are as at the start [w0], and every fetch is new or fulfilled
    at its first attempt. *)
Definition untroubled {St : Type}
  (contents : St -> jsstring -> option jsstring) (ids raws : list jsstring)
  (w0 : World St) (st : FetchState) (w : World St) : Prop :=
  (forall f, contents (store w) f = contents (store w0) f)
  /\ List.length (ops st) = List.length ids
  /\ forall j o, nth_error (ops st) j = Some o ->
       o = new_operation
       \/ exists raw, nth_error raws j = Some raw
                      /\ o = mkOp 1 [] (Fulfilled raw).

(** A value that is a string and not the empty one. *)
Definition nonempty_string (v : JsValue) : Prop :=
  exists s, v = VString s /\ s <> [].

(** ** Sinks and bundlers to run the pipeline on *)
Module Examples.

(** A sink in memory: [get] rejects a missing file with 'No file with
    name', [set] creates or overwrites. *)
Definition Db := list (jsstring * jsstring).

Fixpoint lookup (file : jsstring) (db : Db) : option jsstring :=
  match db with
  | [] => None
  | (name, content) :: db' =>
      if jsstring_eqb name file then Some content else lookup file db'
  end.

Definition mem_get (file : jsstring) (db : Db) : (JsError + jsstring) * Db :=
  match lookup file db with
  | Some content => (inr content, db)
  | None =>
      (inl (new_Error (js "No file with name " ++ [dquote] ++ file
                       ++ [dquote])), db)
  end.

Definition mem_set (file content : jsstring) (db : Db)
  : (JsError + unit) * Db :=
  (inr tt, (file, content) :: db).

Definition SinkMem : Sink Db := {| get := mem_get; set := mem_set |}.

(** A sink whose next [n] calls time out before it works as the sink in
    memory. *)
Definition timeout : JsError := new_Error (js "ETIMEDOUT").

Definition SinkFlaky : Sink (nat * Db) :=
  {| get := fun file st =>
       match st with
       | (S n, db) => (inl timeout, (n, db))
       | (O, db) => let (res, db') := mem_get file db in (res, (O, db'))
       end;
     set := fun file content st =>
       match st with
       | (S n, db) => (inl timeout, (n, db))
       | (O, db) => let (res, db') := mem_set file content db in (res, (O, db'))
       end |}.

(** A sink that serves what it holds and refuses every write. *)
Definition read_only : JsError := new_Error (js "EROFS").

Definition SinkReadOnly : Sink Db :=
  {| get := mem_get; set := fun _ _ db => (inl read_only, db) |}.

(** A sink whose next [n] calls fail with a [TypeError] before it works
    as the sink in memory. *)
Definition type_error : JsError :=
  {| eclass := TypeErrorC; message := js "Failed to fetch" |}.

Definition SinkTypeError : Sink (nat * Db) :=
  {| get := fun file st =>
       match st with
       | (S n, db) => (inl type_error, (n, db))
       | (O, db) => let (res, db') := mem_get file db in (res, (O, db'))
       end;
     set := fun file content st =>
       match st with
       | (S n, db) => (inl type_error, (n, db))
       | (O, db) => let (res, db') := mem_set file content db in (res, (O, db'))
       end |}.

(** A sink that answers the calls for each file from a list of its own,
    and with 'No file with name' once the list is used up; it accepts
    every write. *)
Definition Scripts := list (jsstring * list (JsError + jsstring)).

Definition no_file (file : jsstring) : JsError + jsstring :=
  inl (new_Error (js "No file with name " ++ [dquote] ++ file ++ [dquote])).

Fixpoint scripted_get (file : jsstring) (ss : Scripts)
  : (JsError + jsstring) * Scripts :=
  match ss with
  | [] => (no_file file, [])
  | (name, answers) :: ss' =>
      if jsstring_eqb name file then
        match answers with
        | r :: rs => (r, (name, rs) :: ss')
        | [] => (no_file file, ss)
        end
      else
        let (r, ss'') := scripted_get file ss' in (r, (name, answers) :: ss'')
  end.

Definition SinkScripted : Sink Scripts :=
  {| get := scripted_get; set := fun _ _ ss => (inr tt, ss) |}.

Fixpoint script_of (ss : Scripts) (file : jsstring) (n : nat)
  : JsError + jsstring :=
  match ss with
  | [] => no_file file
  | (name, answers) :: ss' =>
      if jsstring_eqb name file then nth n answers (no_file file)
      else script_of ss' file n
  end.

(** A bundler that fails an assertion of its own. *)
Definition assertion_failed : JsError :=
  {| eclass := OtherC (js "AssertionError"); message := js "Expected feed" |}.

Definition asserting_bundler (feeds : list JsValue) : JsError + jsstring :=
  inl assertion_failed.

Definition world {St : Type} (st : St) : World St :=
  {| store := st; calls := [] |}.

(** A bundler that joins the [source] members of the feeds and throws on
    a feed without one. *)
Fixpoint member (key : jsstring) (ms : list (jsstring * JsValue))
  : option JsValue :=
  match ms with
  | [] => None
  | (k, v) :: ms' => if jsstring_eqb k key then Some v else member key ms'
  end.

Fixpoint join_sources (feeds : list JsValue) : JsError + jsstring :=
  match feeds with
  | [] => inr []
  | VObject ms :: feeds' =>
      match member (js "source") ms, join_sources feeds' with
      | Some (VString src), inr rest => inr (src ++ js ";" ++ rest)
      | Some (VString _), inl err => inl err
      | _, _ => inl (new_Error (js "Invalid feed"))
      end
  | _ :: _ => inl (new_Error (js "Invalid feed"))
  end.

(** A bundler that always throws. *)
Definition broken_bundler (feeds : list JsValue) : JsError + jsstring :=
  inl (new_Error (js "Unexpected token")).

(** Two feeds as the sink stores them. *)
Definition feedA : jsstring :=
  js "{" ++ [dquote] ++ js "id" ++ [dquote] ++ js ":" ++ [dquote] ++ js "a"
    ++ [dquote] ++ js "," ++ [dquote] ++ js "source" ++ [dquote] ++ js ":"
    ++ [dquote] ++ js "var a=1" ++ [dquote] ++ js "}".

Definition feedB : jsstring :=
  js "{" ++ [dquote] ++ js "id" ++ [dquote] ++ js ":" ++ [dquote] ++ js "b"
    ++ [dquote] ++ js "," ++ [dquote] ++ js "source" ++ [dquote] ++ js ":"
    ++ [dquote] ++ js "var b=2" ++ [dquote] ++ js "}".

Definition two_feeds : Db :=
  [(js "feedA.json", feedA); (js "feedB.json", feedB)].

End Examples.

(** ** What a run shows of a fetch

    The answers [rs] the sink gave to the [get] calls of a fetch, and the
    state they left it in: transient failures within the budget, and then
    nothing yet, the feed, or the failure that rejected it: one that says
    'No file with name', a [TypeError], or the one that used up the
    budget. *)
Definition fetch_history (retries : nat) (file : jsstring)
  (rs : list (JsError + jsstring)) (op : Operation jsstring) : Prop :=
  exists errs,
    Forall transient_get errs
    /\ List.length errs <= retries
    /\ match settled op with
       | Pending =>
           rs = map inl errs
           /\ errors op = errs /\ attempts op = List.length errs
       | Fulfilled raw =>
           rs = map inl errs ++ [inr raw]
           /\ attempts op = S (List.length errs)
       | Rejected e =>
           exists last,
             rs = map inl errs ++ [inl last]
             /\ attempts op = S (List.length errs)
             /\ ((includes (js "No file with name") (message last) = true
                  /\ e = new_Error (js "File " ++ [dquote] ++ file
                                    ++ [dquote] ++ js " not found."))
                 \/ (includes (js "No file with name") (message last) = false
                     /\ is_TypeError last = true /\ e = last)
                 \/ (transient_get last
                     /\ List.length errs = retries
                     /\ In e (errs ++ [last])))
       end.

(** A call of [sink.get] by the fetch of one of [ids], for its file. *)
Definition get_of (ids : list jsstring) (c : SinkCall) : Prop :=
  exists i file res, c = GetCall i file res /\ nth_error ids i = Some file.

(** The calls other than the [get] calls of fetch number [n]. *)
Definition calls_of_others (n : nat) (cs : list SinkCall) : list SinkCall :=
  filter (fun c => match c with
                   | GetCall j _ _ => negb (Nat.eqb n j)
                   | SetCall _ _ _ => true
                   end) cs.

(** The name a file has the shape of: characters of the class, at least
    one, and then '.json' or '.js'. *)
Definition file_name_shape (name : jsstring) : Prop :=
  exists stem ext,
    name = stem ++ [46%N] ++ ext
    /\ stem <> []
    /\ Forall (fun c => In c schemas.name_chars) stem
    /\ (ext = js "json" \/ ext = js "js").

(** Lower case for the letters of ASCII, and trimming, to run
    [schemas.fileName] on. *)
Module AsciiExamples.

Definition lower_char (c : N) : N :=
  if ((65 <=? c) && (c <=? 90))%N then (c + 32)%N else c.

Definition toLowerCase (s : jsstring) : jsstring := map lower_char s.

(** The white space and line terminators [String.prototype.trim]
    removes. *)
Definition is_space (c : N) : bool :=
  ((9 <=? c) && (c <=? 13) || (c =? 32) || (c =? 160) || (c =? 5760)
   || (8192 <=? c) && (c <=? 8202) || (c =? 8232) || (c =? 8233)
   || (c =? 8239) || (c =? 8287) || (c =? 12288) || (c =? 65279))%N.

Fixpoint trim_start (s : jsstring) : jsstring :=
  match s with
  | c :: s' => if is_space c then trim_start s' else s
  | [] => []
  end.

Definition trim (s : jsstring) : jsstring :=
  rev (trim_start (rev (trim_start s))).

End AsciiExamples.

(** * Facts *)

Unset Implicit Arguments.

(** ** Strings *)

Lemma jsstring_eqb_eq a b : jsstring_eqb a b = true <-> a = b.
Proof.
  unfold jsstring_eqb. destruct (list_eq_dec N.eq_dec a b); split; congruence.
Qed.

Lemma jsstring_eqb_refl a : jsstring_eqb a a = true.
Proof. now apply jsstring_eqb_eq. Qed.

Lemma jsstring_eqb_neq a b : jsstring_eqb a b = false <-> a <> b.
Proof.
  unfold jsstring_eqb. destruct (list_eq_dec N.eq_dec a b); split; congruence.
Qed.

Lemma starts_with_spec p s :
  starts_with p s = true <-> exists t, s = p ++ t.
Proof.
  revert s. induction p as [|a p IH]; intros s; simpl.
  - split; [intros _; now exists s | reflexivity].
  - destruct s as [|b s].
    + split; [discriminate | intros [t Ht]; discriminate].
    + rewrite andb_true_iff, N.eqb_eq, IH. split.
      * intros [-> [t ->]]. now exists t.
      * intros [t Ht]. injection Ht as -> ->. split; [reflexivity | now exists t].
Qed.

Lemma includes_spec needle hay :
  includes needle hay = true <-> exists a b, hay = a ++ needle ++ b.
Proof.
  induction hay as [|c hay IH].
  - simpl. rewrite orb_false_r, starts_with_spec. split.
    + intros [t Ht]. now exists [], t.
    + intros [a [b H]]. destruct a; [now exists b | discriminate].
  - cbn [includes]. rewrite orb_true_iff, starts_with_spec, IH. split.
    + intros [[t Ht] | [a [b H]]].
      * now exists [], t.
      * exists (c :: a), b. now rewrite H.
    + intros [a [b H]]. destruct a as [|c' a].
      * left. now exists b.
      * right. injection H as _ H. now exists a, b.
Qed.

(** ** Regular expressions: the matcher decides the language *)
Module RegexFacts.
Import Regex.

Lemma nullable_spec r : nullable r = true <-> matches r [].
Proof.
  induction r; simpl.
  - split; [discriminate | inversion 1].
  - split; [constructor | reflexivity].
  - split; [discriminate | inversion 1].
  - split; [discriminate | inversion 1].
  - rewrite andb_true_iff, IHr1, IHr2. split.
    + intros [H1 H2]. change (@nil N) with (@nil N ++ []). now constructor.
    + inversion 1 as [| | |r s u v Hu Hv| | | |]; subst.
      destruct u; [|discriminate]. destruct v; [|discriminate]. now split.
  - rewrite orb_true_iff, IHr1, IHr2. split.
    + intros [H|H]; [now apply MAltL | now apply MAltR].
    + inversion 1; subst; [now left | now right].
  - split; [constructor | reflexivity].
Qed.

Lemma matches_star_cons r c s :
  matches (Star r) (c :: s) ->
  exists u v, s = u ++ v /\ matches r (c :: u) /\ matches (Star r) v.
Proof.
  intros H. remember (Star r) as sr eqn:Hsr. remember (c :: s) as cs eqn:Hcs.
  revert c s Hcs. induction H; intros c0 s0 Hcs; try discriminate.
  injection Hsr as ->. destruct u as [|d u].
  - simpl in Hcs. apply IHmatches2; auto.
  - simpl in Hcs. injection Hcs as -> <-. now exists u, v.
Qed.

Lemma deriv_spec c r s : matches (deriv c r) s <-> matches r (c :: s).
Proof.
  revert s. induction r; intros s0; simpl.
  - split; inversion 1.
  - split; inversion 1.
  - destruct (N.eqb_spec c c0) as [->|Hne]; split.
    + inversion 1. constructor.
    + inversion 1. constructor.
    + inversion 1.
    + inversion 1; subst. congruence.
  - destruct (is_line_terminator c) eqn:Hlt; split.
    + inversion 1.
    + inversion 1; subst. congruence.
    + inversion 1. now constructor.
    + inversion 1; subst. constructor.
  - assert (Hcat : matches (Cat (deriv c r1) r2) s0 ->
                   matches (Cat r1 r2) (c :: s0)).
    { inversion 1; subst. change (c :: u ++ v) with ((c :: u) ++ v).
      constructor; [now apply IHr1 | assumption]. }
    destruct (nullable r1) eqn:Hn; split.
    + inversion 1; subst; [now apply Hcat |].
      change (c :: s0) with ([] ++ c :: s0).
      constructor; [now apply nullable_spec | now apply IHr2].
    + inversion 1 as [| | |r s u v Hu Hv| | | |]; subst.
      destruct u as [|d u]; simpl in *; subst.
      * apply MAltR. now apply IHr2.
      * match goal with H : _ :: _ = _ :: _ |- _ => injection H as -> <- end.
        apply MAltL. constructor; [now apply IHr1 | assumption].
    + apply Hcat.
    + inversion 1 as [| | |r s u v Hu Hv| | | |]; subst.
      destruct u as [|d u]; simpl in *; subst.
      * apply nullable_spec in Hu. congruence.
      * match goal with H : _ :: _ = _ :: _ |- _ => injection H as -> <- end.
        constructor; [now apply IHr1 | assumption].
  - split.
    + inversion 1; subst; [apply MAltL; now apply IHr1 | apply MAltR; now apply IHr2].
    + inversion 1; subst; [apply MAltL; now apply IHr1 | apply MAltR; now apply IHr2].
  - split.
    + inversion 1; subst. change (c :: u ++ v) with ((c :: u) ++ v).
      constructor; [now apply IHr | assumption].
    + intros H. apply matches_star_cons in H as [u [v [-> [Hu Hv]]]].
      constructor; [now apply IHr | assumption].
Qed.

Lemma match_prefix_spec r s :
  match_prefix r s = true <-> exists p q, s = p ++ q /\ matches r p.
Proof.
  revert r. induction s as [|c s IH]; intros r; cbn [match_prefix].
  - rewrite orb_false_r, nullable_spec. split.
    + intros H. now exists [], [].
    + intros [p [q [Hs Hm]]]. symmetry in Hs. apply app_eq_nil in Hs as [-> _].
      assumption.
  - rewrite orb_true_iff, nullable_spec, IH. split.
    + intros [H | [p [q [-> Hm]]]].
      * now exists [], (c :: s).
      * exists (c :: p), q. split; [reflexivity | now apply deriv_spec].
    + intros [p [q [Hs Hm]]]. destruct p as [|d p].
      * now left.
      * injection Hs as <- ->. right. exists p, q.
        split; [reflexivity | now apply deriv_spec].
Qed.

Lemma test_spec r s :
  test r s = true <-> exists a p b, s = a ++ p ++ b /\ matches r p.
Proof.
  induction s as [|c s IH].
  - cbn [test match_prefix]. rewrite !orb_false_r, nullable_spec. split.
    + intros H. now exists [], [], [].
    + intros [a [p [b [Hs Hm]]]]. symmetry in Hs.
      apply app_eq_nil in Hs as [_ Hs]. apply app_eq_nil in Hs as [-> _].
      assumption.
  - cbn [test]. rewrite orb_true_iff, match_prefix_spec, IH. split.
    + intros [[p [q [Hs Hm]]] | [a [p [b [Hs Hm]]]]].
      * now exists [], p, q.
      * exists (c :: a), p, b. now rewrite Hs.
    + intros [a [p [b [Hs Hm]]]]. destruct a as [|d a].
      * left. now exists p, b.
      * injection Hs as _ Hs. right. now exists a, p, b.
Qed.

Lemma matches_lit l s : matches (lit l) s <-> s = l.
Proof.
  revert s. induction l as [|c l IH]; intros s; simpl.
  - split; [now inversion 1 | intros ->; constructor].
  - split.
    + inversion 1 as [| | |r t u v Hu Hv| | | |]; subst.
      inversion Hu; subst. apply IH in Hv. now subst.
    + intros ->. change (c :: l) with ([c] ++ l).
      constructor; [constructor | now apply IH].
Qed.

Lemma matches_star_dot s :
  matches (Star Dot) s <-> Forall (fun c => is_line_terminator c = false) s.
Proof.
  split.
  - intros H. remember (Star Dot) as r eqn:Hr.
    induction H; try discriminate.
    + constructor.
    + injection Hr as ->. inversion H; subst. simpl. constructor; auto.
  - induction 1 as [|c s Hc _ IH].
    + constructor.
    + change (c :: s) with ([c] ++ s). constructor; [now constructor | assumption].
Qed.

(** The language of [pre.*post], for literal [pre] and [post]. *)
Lemma matches_between pre post s :
  matches (Cat (lit pre) (Cat (Star Dot) (lit post))) s <->
  exists mid, s = pre ++ mid ++ post
              /\ Forall (fun c => is_line_terminator c = false) mid.
Proof.
  split.
  - inversion 1 as [| | |r t u v Hu Hv| | | |]; subst.
    inversion Hv as [| | |r t u' v' Hu' Hv'| | | |]; subst.
    apply matches_lit in Hu, Hv'. subst. exists u'.
    split; [reflexivity | now apply matches_star_dot].
  - intros [mid [-> Hmid]].
    constructor; [now apply matches_lit |].
    constructor; [now apply matches_star_dot | now apply matches_lit].
Qed.

End RegexFacts.

(** ** Lists updated by index *)

Lemma update_nth_length {A} i (x : A) l :
  List.length (update_nth i x l) = List.length l.
Proof.
  revert i. induction l as [|a l IH]; intros [|i]; simpl; auto.
Qed.

Lemma nth_error_update_nth_eq {A} i (x y : A) l :
  nth_error l i = Some y -> nth_error (update_nth i x l) i = Some x.
Proof.
  revert i. induction l as [|a l IH]; intros [|i]; simpl; try discriminate; auto.
Qed.

Lemma nth_error_update_nth_neq {A} i j (x : A) l :
  i <> j -> nth_error (update_nth i x l) j = nth_error l j.
Proof.
  revert i j. induction l as [|a l IH]; intros [|i] [|j] H; simpl; auto.
  congruence.
Qed.

(** ** p-retry *)

Lemma pretry_settle_attempts {A} retries (op : Operation A) r :
  attempts (pretry_settle retries op r) = S (attempts op).
Proof.
  unfold pretry_settle. destruct r as [a|e|m]; simpl; auto.
  destruct (is_TypeError e); simpl; auto.
  destruct (List.length (errors op) <? retries); reflexivity.
Qed.

(** A failure that is not a [TypeError] is retried while the budget
    lasts. *)
Lemma pretry_settle_retry {A} retries (op : Operation A) e :
  is_TypeError e = false ->
  List.length (errors op) < retries ->
  pretry_settle retries op (Threw e)
  = mkOp (S (attempts op)) (errors op ++ [e]) Pending.
Proof.
  intros Ht Hlen. unfold pretry_settle. rewrite Ht.
  apply Nat.ltb_lt in Hlen. now rewrite Hlen.
Qed.

(** The failure that finds the budget used up rejects the promise. *)
Lemma pretry_settle_exhausted {A} retries (op : Operation A) e :
  is_TypeError e = false ->
  retries <= List.length (errors op) ->
  exists m,
    pretry_settle retries op (Threw e)
    = mkOp (S (attempts op)) (errors op ++ [e]) (Rejected m).
Proof.
  intros Ht Hlen. unfold pretry_settle. rewrite Ht.
  apply Nat.ltb_ge in Hlen. rewrite Hlen. eauto.
Qed.

Lemma run_outcome_transient file err :
  transient_get err -> run_outcome file (inl err) = Threw err.
Proof. intros [_ H]. unfold run_outcome. now rewrite H. Qed.

Lemma run_outcome_not_found file err :
  includes (js "No file with name") (message err) = true ->
  run_outcome file (inl err)
  = ThrewAbort (js "File " ++ [dquote] ++ file ++ [dquote]
                ++ js " not found.").
Proof. intros H. unfold run_outcome. now rewrite H. Qed.

Lemma replay_app retries file rs1 rs2 op :
  replay retries file (rs1 ++ rs2) op
  = replay retries file rs2 (replay retries file rs1 op).
Proof. unfold replay. apply fold_left_app. Qed.

(** Transient failures within the budget leave the fetch pending. *)
Lemma replay_transient retries file errs : forall op,
  settled op = Pending ->
  Forall transient_get errs ->
  List.length (errors op) + List.length errs <= retries ->
  replay retries file (map inl errs) op
  = mkOp (attempts op + List.length errs) (errors op ++ errs) Pending.
Proof.
  induction errs as [|e errs IH]; intros op Hp Hall Hlen.
  - simpl. rewrite Nat.add_0_r, app_nil_r. destruct op; simpl in *; congruence.
  - inversion Hall as [|? ? He Hall']; subst. simpl in Hlen.
    cbn [map replay fold_left].
    rewrite (run_outcome_transient file e He).
    rewrite pretry_settle_retry by (try apply He; lia).
    fold (replay retries file (map inl errs)
            (mkOp (S (attempts op)) (errors op ++ [e]) Pending)).
    rewrite IH; simpl; auto.
    + f_equal; [lia | now rewrite <- app_assoc].
    + rewrite length_app. simpl. lia.
Qed.

(** [k <= retries] transient failures and then a value fulfil the fetch. *)
Lemma replay_success retries file errs raw :
  Forall transient_get errs ->
  List.length errs <= retries ->
  replay retries file (map inl errs ++ [inr raw]) new_operation
  = mkOp (S (List.length errs)) errs (Fulfilled raw).
Proof.
  intros Hall Hlen. rewrite replay_app, replay_transient; auto.
Qed.

(** [retries + 1] transient failures reject it. *)
Lemma replay_exhausted retries file errs :
  Forall transient_get errs ->
  List.length errs = S retries ->
  exists m,
    replay retries file (map inl errs) new_operation
    = mkOp (S retries) errs (Rejected m).
Proof.
  intros Hall Hlen.
  destruct (exists_last (l := errs)) as [front [e ->]].
  { intros ->. discriminate. }
  rewrite length_app in Hlen. simpl in Hlen.
  apply Forall_app in Hall as [Hfront He]. inversion He as [|? ? Hte _]; subst.
  rewrite map_app, replay_app.
  rewrite (replay_transient retries file front new_operation)
    by (simpl; auto; lia).
  unfold replay. cbn [map fold_left].
  rewrite (run_outcome_transient file e Hte).
  destruct (pretry_settle_exhausted (A := jsstring) retries
              (mkOp (attempts (@new_operation jsstring) + List.length front)
                    (errors (@new_operation jsstring) ++ front) Pending) e)
    as [m Hm].
  - apply Hte.
  - simpl. lia.
  - exists m. rewrite Hm. simpl. f_equal. lia.
Qed.

(** ** The sink calls of a run *)

Lemma responses_app i cs1 cs2 :
  responses i (cs1 ++ cs2) = responses i cs1 ++ responses i cs2.
Proof.
  induction cs1 as [|c cs1 IH]; simpl; auto.
  destruct c as [j f res|f c res]; auto.
  destruct (Nat.eqb i j); simpl; now rewrite IH.
Qed.

Lemma set_responses_app cs1 cs2 :
  set_responses (cs1 ++ cs2) = set_responses cs1 ++ set_responses cs2.
Proof.
  induction cs1 as [|c cs1 IH]; simpl; auto.
  destruct c; simpl; now rewrite IH.
Qed.

Lemma skipn_length_app {A} (l d : list A) : skipn (List.length l) (l ++ d) = d.
Proof. induction l; simpl; auto. Qed.

Lemma new_calls_app {St} (w w' : World St) delta :
  calls w' = calls w ++ delta -> new_calls w w' = delta.
Proof. intros H. unfold new_calls. rewrite H. apply skipn_length_app. Qed.

(** ** Promise.all over the fetches *)

Lemma all_fulfilled_nth os : forall vs j o,
  all_fulfilled os = Some vs ->
  nth_error os j = Some o ->
  exists v, settled o = Fulfilled v /\ nth_error vs j = Some v.
Proof.
  induction os as [|o' os IH]; intros vs j o Hall Hj.
  - destruct j; discriminate.
  - simpl in Hall. destruct (settled o') as [|v'|e'] eqn:Hs; try discriminate.
    destruct (all_fulfilled os) as [vs'|] eqn:Hos; try discriminate.
    injection Hall as <-. destruct j as [|j]; simpl in *.
    + injection Hj as <-. now exists v'.
    + eapply IH; eauto.
Qed.

Lemma all_fulfilled_length os : forall vs,
  all_fulfilled os = Some vs -> List.length vs = List.length os.
Proof.
  induction os as [|o os IH]; intros vs H; simpl in H.
  - now injection H as <-.
  - destruct (settled o); try discriminate.
    destruct (all_fulfilled os) as [vs'|]; try discriminate.
    injection H as <-. simpl. f_equal. now apply IH.
Qed.

Lemma all_fulfilled_complete os : forall vs,
  List.length vs = List.length os ->
  (forall j o, nth_error os j = Some o ->
     exists v, settled o = Fulfilled v /\ nth_error vs j = Some v) ->
  all_fulfilled os = Some vs.
Proof.
  induction os as [|o os IH]; intros vs Hlen H.
  - destruct vs; [reflexivity | discriminate].
  - destruct vs as [|v vs]; [discriminate|]. simpl in Hlen.
    destruct (H 0 o eq_refl) as [v0 [Hv0 Hn]]. simpl in Hn. injection Hn as <-.
    simpl. rewrite Hv0. rewrite (IH vs); auto.
    intros j o' Hj. apply (H (S j) o' Hj).
Qed.

(** ** The steps of fetchFeeds *)
Section FetchFacts.

Variable St : Type.
Variable sink : Sink St.
Variable retries : nat.
Variable ids : list jsstring.

Lemma fetch_steps_app s1 s2 sw :
  fetch_steps sink retries ids (s1 ++ s2) sw
  = fetch_steps sink retries ids s2 (fetch_steps sink retries ids s1 sw).
Proof. apply fold_left_app. Qed.

(** The turn of a pending fetch: one [get], whose answer settles or
    prolongs that fetch and may settle [Promise.all]. *)
Lemma fetch_step_attempt i st w file op res stx :
  nth_error ids i = Some file ->
  nth_error (ops st) i = Some op ->
  settled op = Pending ->
  get sink file (store w) = (res, stx) ->
  fetch_step sink retries ids i (st, w)
  = (let op' := pretry_settle retries op (run_outcome file res) in
     let os := update_nth i op' (ops st) in
     {| ops := os; all := Promise_all_update (all st) os op' |},
     {| store := stx; calls := calls w ++ [GetCall i file res] |}).
Proof.
  intros Hid Hop Hp Hget. unfold fetch_step. rewrite Hid, Hop, Hp.
  unfold pretry_attempt. rewrite Hp. unfold run, sink_get. rewrite Hget.
  reflexivity.
Qed.

(** The turn of a settled fetch, or of none: nothing happens. *)
Lemma fetch_step_idle i st w :
  (forall file op, nth_error ids i = Some file ->
     nth_error (ops st) i = Some op -> settled op <> Pending) ->
  fetch_step sink retries ids i (st, w) = (st, w).
Proof.
  intros H. unfold fetch_step.
  destruct (nth_error ids i) as [file|] eqn:Hid; auto.
  destruct (nth_error (ops st) i) as [op|] eqn:Hop; auto.
  specialize (H file op eq_refl eq_refl).
  destruct (settled op); congruence.
Qed.

Lemma fetch_step_cases i st w :
  (fetch_step sink retries ids i (st, w) = (st, w)
   /\ forall file op, nth_error ids i = Some file ->
        nth_error (ops st) i = Some op -> settled op <> Pending)
  \/ exists file op res stx,
       nth_error ids i = Some file
       /\ nth_error (ops st) i = Some op
       /\ settled op = Pending
       /\ get sink file (store w) = (res, stx).
Proof.
  destruct (nth_error ids i) as [file|] eqn:Hid.
  2:{ left. split; [apply fetch_step_idle|]; intros; congruence. }
  destruct (nth_error (ops st) i) as [op|] eqn:Hop.
  2:{ left. split; [apply fetch_step_idle|]; intros; congruence. }
  destruct (settled op) eqn:Hp.
  - right. destruct (get sink file (store w)) as [res stx] eqn:Hget.
    now exists file, op, res, stx.
  - left. split; [apply fetch_step_idle|]; intros; congruence.
  - left. split; [apply fetch_step_idle|]; intros; congruence.
Qed.

(** What a run does to each fetch is what the answers to its own [get]
    calls make of it; a settled fetch makes no call. *)
Lemma fetch_steps_replay sched : forall st w st' w',
  fetch_steps sink retries ids sched (st, w) = (st', w') ->
  exists delta,
    calls w' = calls w ++ delta
    /\ List.length (ops st') = List.length (ops st)
    /\ forall i file op,
         nth_error ids i = Some file ->
         nth_error (ops st) i = Some op ->
         nth_error (ops st') i
         = Some (replay retries file (responses i delta) op)
         /\ (settled op <> Pending -> responses i delta = []).
Proof.
  induction sched as [|i0 sched IH]; intros st w st' w' Hrun.
  - simpl in Hrun. injection Hrun as <- <-. exists [].
    rewrite app_nil_r. repeat split; auto.
  - cbn [fetch_steps fold_left] in Hrun.
    fold (fetch_steps sink retries ids sched) in Hrun.
    destruct (fetch_step_cases i0 st w)
      as [[Hidle _] | [file0 [op0 [res [stx [Hid [Hop [Hp Hget]]]]]]]].
    + rewrite Hidle in Hrun. now apply IH.
    + rewrite (fetch_step_attempt i0 st w file0 op0 res stx) in Hrun by assumption.
      cbv zeta in Hrun. apply IH in Hrun as [delta [Hcalls [Hlen Hops]]].
      simpl in Hcalls, Hlen. exists (GetCall i0 file0 res :: delta).
      split; [now rewrite Hcalls, <- app_assoc|].
      split; [now rewrite Hlen, update_nth_length|].
      intros i file op Hfile Hnth. cbn [responses].
      destruct (Nat.eqb_spec i i0) as [->|Hne].
      * assert (file = file0) by congruence. assert (op = op0) by congruence.
        subst. destruct (Hops i0 file0
                           (pretry_settle retries op0 (run_outcome file0 res)))
          as [Hnew _]; auto.
        { simpl. eapply nth_error_update_nth_eq; eauto. }
        split; [exact Hnew | congruence].
      * apply Hops; auto. simpl.
        rewrite nth_error_update_nth_neq; auto.
Qed.

Lemma fetch_init_length : List.length (ops (fetch_init ids)) = List.length ids.
Proof. simpl. apply length_map. Qed.

Lemma fetch_init_nth i file :
  nth_error ids i = Some file ->
  nth_error (ops (fetch_init ids)) i = Some new_operation.
Proof. intros H. simpl. rewrite nth_error_map, H. reflexivity. Qed.

Lemma all_agrees_init : all_agrees (fetch_init ids).
Proof.
  unfold all_agrees, fetch_init. cbn [all ops].
  destruct ids as [|id rest]; simpl; auto.
  split; auto. intros j o e Hj Hs.
  assert (o = new_operation) as ->.
  { destruct j as [|j]; simpl in Hj; [congruence|].
    rewrite nth_error_map in Hj. destruct (nth_error rest j); simpl in Hj; congruence. }
  discriminate.
Qed.

Lemma all_agrees_step i st w :
  all_agrees st -> all_agrees (fst (fetch_step sink retries ids i (st, w))).
Proof.
  intros Hinv.
  destruct (fetch_step_cases i st w)
    as [[Hidle _] | [file [op [res [stx [Hid [Hop [Hp Hget]]]]]]]].
  - now rewrite Hidle.
  - rewrite (fetch_step_attempt i st w file op res stx) by assumption.
    cbv zeta. cbn [fst]. set (op' := pretry_settle retries op (run_outcome file res)).
    unfold all_agrees in *. cbn [all ops].
    destruct (all st) as [|vs|e] eqn:Hall; cbn [Promise_all_update].
    + destruct Hinv as [_ Hnone].
      assert (Hothers : forall j o e, nth_error (update_nth i op' (ops st)) j = Some o ->
                settled o = Rejected e -> o = op').
      { intros j o e Hj Hs. destruct (Nat.eq_dec i j) as [<-|Hne].
        - rewrite (nth_error_update_nth_eq i op' op (ops st) Hop) in Hj. congruence.
        - rewrite nth_error_update_nth_neq in Hj by assumption.
          exfalso. eapply Hnone; eauto. }
      destruct (settled op') as [|v|e] eqn:Hs'.
      * destruct (all_fulfilled (update_nth i op' (ops st))) eqn:Hf; auto.
        split; auto. intros j o e Hj Hs.
        rewrite (Hothers j o e Hj Hs) in Hs. congruence.
      * destruct (all_fulfilled (update_nth i op' (ops st))) eqn:Hf; auto.
        split; auto. intros j o e Hj Hs.
        rewrite (Hothers j o e Hj Hs) in Hs. congruence.
      * exists i, op'. split; auto.
        eapply nth_error_update_nth_eq; eauto.
    + destruct (all_fulfilled_nth _ _ _ _ Hinv Hop) as [v [Hv _]]. congruence.
    + destruct Hinv as [j [o [Hj Hs]]]. exists j, o. split; auto.
      rewrite nth_error_update_nth_neq; auto. intros <-. congruence.
Qed.

Lemma all_agrees_steps sched : forall st w,
  all_agrees st ->
  all_agrees (fst (fetch_steps sink retries ids sched (st, w))).
Proof.
  induction sched as [|i sched IH]; intros st w Hinv; auto.
  cbn [fetch_steps fold_left]. fold (fetch_steps sink retries ids sched).
  pose proof (all_agrees_step i st w Hinv) as Hstep.
  destruct (fetch_step sink retries ids i (st, w)) as [st1 w1].
  now apply IH.
Qed.

End FetchFacts.

(** ** fetchFeeds: the outcome of a run *)
Section FetchOutcome.

Variable St : Type.
Variable sink : Sink St.
Variable retries : nat.
Variable ids : list jsstring.

Lemma fetchFeeds_unfold sched w st' w' :
  fetch_steps sink retries ids sched (fetch_init ids, w) = (st', w') ->
  fetchFeeds sink ids retries sched w
  = match all st' with
    | Pending => None
    | Fulfilled raws => Some (inr raws, w')
    | Rejected err =>
        Some (inl (boomify err (Some (fetch_status err))
                     (js "Unable to fetch 1 or more feeds from storage.")), w')
    end.
Proof. intros H. unfold fetchFeeds. now rewrite H. Qed.

(** After a run from the start, every fetch is what the answers to its
    calls make of a new operation. *)
Lemma fetch_run_replay sched w st' w' :
  fetch_steps sink retries ids sched (fetch_init ids, w) = (st', w') ->
  all_agrees st'
  /\ forall i file,
       nth_error ids i = Some file ->
       nth_error (ops st') i
       = Some (replay retries file (responses i (new_calls w w'))
                 new_operation).
Proof.
  intros Hrun. split.
  - pose proof (all_agrees_steps St sink retries ids sched (fetch_init ids) w
                  (all_agrees_init ids)) as H.
    now rewrite Hrun in H.
  - intros i file Hid.
    destruct (fetch_steps_replay St sink retries ids sched _ _ _ _ Hrun)
      as [delta [Hcalls [_ Hops]]].
    rewrite (new_calls_app w w' delta Hcalls).
    apply (Hops i file new_operation Hid (fetch_init_nth ids i file Hid)).
Qed.

(** A rejected fetch rejects [Promise.all]. *)
Lemma rejected_fetch_rejects_all st i op e :
  all_agrees st ->
  nth_error (ops st) i = Some op ->
  settled op = Rejected e ->
  exists e', all st = Rejected e'.
Proof.
  unfold all_agrees. intros Hinv Hop Hs.
  destruct (all st) as [|vs|e'].
  - destruct Hinv as [_ Hnone]. exfalso. eapply Hnone; eauto.
  - destruct (all_fulfilled_nth _ _ _ _ Hinv Hop) as [v [Hv _]]. congruence.
  - now exists e'.
Qed.

(** Fetches that are all fulfilled fulfil [Promise.all] with their values
    in the order of [ids]. *)
Lemma fulfilled_fetches_fulfil_all st raws :
  all_agrees st ->
  List.length raws = List.length (ops st) ->
  (forall j o, nth_error (ops st) j = Some o ->
     exists v, settled o = Fulfilled v /\ nth_error raws j = Some v) ->
  all st = Fulfilled raws.
Proof.
  unfold all_agrees. intros Hinv Hlen Hall.
  pose proof (all_fulfilled_complete (ops st) raws Hlen Hall) as Hf.
  destruct (all st) as [|vs|e].
  - destruct Hinv. congruence.
  - congruence.
  - destruct Hinv as [j [o [Hj Hs]]].
    destruct (Hall j o Hj) as [v [Hv _]]. congruence.
Qed.

(** Bounded retry, success: every fetch got at most [retries] transient
    failures and then its value. *)
Lemma fetchFeeds_retry_success sched w st' w' raws :
  fetch_steps sink retries ids sched (fetch_init ids, w) = (st', w') ->
  List.length raws = List.length ids ->
  (forall i, i < List.length ids ->
     exists errs,
       responses i (new_calls w w') = map inl errs ++ [inr (nth i raws [])]
       /\ Forall transient_get errs
       /\ List.length errs <= retries) ->
  fetchFeeds sink ids retries sched w = Some (inr raws, w').
Proof.
  intros Hrun Hlen Hresp.
  destruct (fetch_run_replay sched w st' w' Hrun) as [Hinv Hops].
  destruct (fetch_steps_replay St sink retries ids sched _ _ _ _ Hrun)
    as [_ [_ [Hlen' _]]].
  rewrite fetch_init_length in Hlen'.
  rewrite (fetchFeeds_unfold sched w st' w' Hrun).
  assert (Hall : all st' = Fulfilled raws); [|now rewrite Hall].
  apply fulfilled_fetches_fulfil_all;
    [exact Hinv
    | transitivity (List.length ids); [exact Hlen | symmetry; exact Hlen'] |].
  intros j o Hj.
  assert (Hlt : j < List.length ids).
  { rewrite <- Hlen'. apply nth_error_Some. congruence. }
  destruct (nth_error ids j) as [file|] eqn:Hid.
  2:{ apply nth_error_None in Hid. lia. }
  destruct (Hresp j Hlt) as [errs [Hr [Htr Hk]]].
  rewrite (Hops j file Hid), Hr in Hj.
  rewrite replay_success in Hj by assumption. injection Hj as <-.
  exists (nth j raws []). split; auto.
  apply nth_error_nth'. lia.
Qed.

(** Bounded retry, failure: some fetch got [retries + 1] transient
    failures. *)
Lemma fetchFeeds_retry_exhausted sched w st' w' i errs :
  fetch_steps sink retries ids sched (fetch_init ids, w) = (st', w') ->
  i < List.length ids ->
  responses i (new_calls w w') = map inl errs ->
  Forall transient_get errs ->
  List.length errs = S retries ->
  exists b, fetchFeeds sink ids retries sched w = Some (inl b, w')
            /\ statusCode b = fetch_status (original b)
            /\ starts_with (js "Unable to fetch 1 or more feeds from storage.")
                 (bmessage b) = true.
Proof.
  intros Hrun Hlt Hr Htr Hk.
  destruct (fetch_run_replay sched w st' w' Hrun) as [Hinv Hops].
  destruct (nth_error ids i) as [file|] eqn:Hid.
  2:{ apply nth_error_None in Hid. lia. }
  specialize (Hops i file Hid). rewrite Hr in Hops.
  destruct (replay_exhausted retries file errs Htr Hk) as [m Hm].
  rewrite Hm in Hops.
  destruct (rejected_fetch_rejects_all st' i _ m Hinv Hops eq_refl) as [e He].
  rewrite (fetchFeeds_unfold sched w st' w' Hrun), He.
  eexists. split; [reflexivity|]. split; [reflexivity|].
  apply starts_with_spec. eexists. reflexivity.
Qed.

(** ** Enough turns settle fetchFeeds *)

Lemma pretry_settle_pending {A} (op : Operation A) r :
  attempts op = List.length (errors op) ->
  settled (pretry_settle retries op r) = Pending ->
  attempts (pretry_settle retries op r)
  = List.length (errors (pretry_settle retries op r))
  /\ List.length (errors (pretry_settle retries op r)) <= retries.
Proof.
  intros Hinv. unfold pretry_settle. destruct r as [a|e|m]; try discriminate.
  destruct (is_TypeError e); try discriminate.
  destruct (List.length (errors op) <? retries) eqn:Hlt; try discriminate.
  intros _. apply Nat.ltb_lt in Hlt. cbn [attempts errors].
  rewrite length_app. simpl. lia.
Qed.

(** A turn leaves the other fetches alone and costs a pending fetch one
    attempt. *)
Lemma fetch_step_turn i st w :
  List.length (ops st) = List.length ids ->
  pending_in_budget retries st ->
  List.length (ops (fst (fetch_step sink retries ids i (st, w))))
  = List.length ids
  /\ pending_in_budget retries (fst (fetch_step sink retries ids i (st, w)))
  /\ forall j op op',
       nth_error (ops st) j = Some op ->
       nth_error (ops (fst (fetch_step sink retries ids i (st, w)))) j
       = Some op' ->
       settled op' = Pending ->
       settled op = Pending
       /\ attempts op' = attempts op + (if Nat.eq_dec i j then 1 else 0).
Proof.
  intros Hlen Hinv.
  destruct (fetch_step_cases St sink retries ids i st w)
    as [[Hidle Hset] | [file [op0 [res [stx [Hid [Hop [Hp Hget]]]]]]]].
  - rewrite Hidle. cbn [fst]. split; [exact Hlen|]. split; [exact Hinv|].
    intros j op op' Hj Hj' Hp'. assert (op' = op) by congruence. subst op'.
    split; [exact Hp'|]. destruct (Nat.eq_dec i j) as [<-|_]; [|lia].
    exfalso. destruct (nth_error ids i) as [file|] eqn:Hid.
    + now apply (Hset file op).
    + apply nth_error_None in Hid.
      assert (i < List.length (ops st)) by (apply nth_error_Some; congruence).
      lia.
  - rewrite (fetch_step_attempt St sink retries ids i st w file op0 res stx)
      by assumption.
    cbv zeta. cbn [fst ops].
    set (op1 := pretry_settle retries op0 (run_outcome file res)).
    destruct (Hinv i op0 Hop Hp) as [Hatt _].
    split; [now rewrite update_nth_length|]. split.
    + intros j op Hj Hpj. cbn [ops] in Hj.
      destruct (Nat.eq_dec i j) as [<-|Hne].
      * rewrite (nth_error_update_nth_eq i op1 op0 (ops st) Hop) in Hj.
        injection Hj as <-. now apply pretry_settle_pending.
      * rewrite nth_error_update_nth_neq in Hj by assumption.
        now apply (Hinv j).
    + intros j op op' Hj Hj' Hp'. destruct (Nat.eq_dec i j) as [<-|Hne].
      * rewrite (nth_error_update_nth_eq i op1 op0 (ops st) Hop) in Hj'.
        injection Hj' as <-. assert (op = op0) by congruence. subst op.
        split; [exact Hp|]. unfold op1.
        rewrite pretry_settle_attempts. lia.
      * rewrite nth_error_update_nth_neq in Hj' by assumption.
        assert (op' = op) by congruence. subst op'. split; [exact Hp'|lia].
Qed.

Lemma fetch_steps_turns sched : forall st w,
  List.length (ops st) = List.length ids ->
  pending_in_budget retries st ->
  List.length (ops (fst (fetch_steps sink retries ids sched (st, w))))
  = List.length ids
  /\ pending_in_budget retries (fst (fetch_steps sink retries ids sched (st, w)))
  /\ forall j op op',
       nth_error (ops st) j = Some op ->
       nth_error (ops (fst (fetch_steps sink retries ids sched (st, w)))) j
       = Some op' ->
       settled op' = Pending ->
       settled op = Pending
       /\ attempts op' = attempts op + count_occ Nat.eq_dec sched j.
Proof.
  induction sched as [|i sched IH]; intros st w Hlen Hinv.
  - cbn [fetch_steps fold_left fst count_occ].
    split; [exact Hlen|]. split; [exact Hinv|].
    intros j op op' Hj Hj' Hp'. assert (op' = op) by congruence. subst op'.
    split; [exact Hp' | lia].
  - cbn [fetch_steps fold_left]. fold (fetch_steps sink retries ids sched).
    destruct (fetch_step_turn i st w Hlen Hinv) as [Hlen1 [Hinv1 Hturn]].
    destruct (fetch_step sink retries ids i (st, w)) as [st1 w1].
    cbn [fst] in *.
    destruct (IH st1 w1 Hlen1 Hinv1) as [Hlen2 [Hinv2 Hturns]].
    split; [exact Hlen2|]. split; [exact Hinv2|].
    intros j op op' Hj Hj' Hp'.
    destruct (nth_error (ops st1) j) as [op1|] eqn:Hj1.
    2:{ apply nth_error_None in Hj1.
        assert (j < List.length (ops st)) by (apply nth_error_Some; congruence).
        lia. }
    destruct (Hturns j op1 op' Hj1 Hj' Hp') as [Hp1 Hatt1].
    destruct (Hturn j op op1 Hj Hj1 Hp1) as [Hp0 Hatt0].
    split; [exact Hp0|]. cbn [count_occ].
    destruct (Nat.eq_dec i j); lia.
Qed.

Lemma all_fulfilled_total os :
  (forall j o, nth_error os j = Some o -> exists v, settled o = Fulfilled v) ->
  exists vs, all_fulfilled os = Some vs.
Proof.
  induction os as [|o os IH]; intros H.
  - now exists [].
  - destruct (H 0 o eq_refl) as [v Hv].
    destruct IH as [vs Hvs]; [intros j o' Hj; apply (H (S j) o' Hj)|].
    exists (v :: vs). simpl. now rewrite Hv, Hvs.
Qed.

(** Once every fetch has had more turns than the budget has retries,
    [fetchFeeds] has returned or thrown. *)
Lemma fetchFeeds_settles sched w :
  (forall i, i < List.length ids -> retries < count_occ Nat.eq_dec sched i) ->
  exists r w', fetchFeeds sink ids retries sched w = Some (r, w').
Proof.
  intros Hturns.
  destruct (fetch_steps_turns sched (fetch_init ids) w (fetch_init_length ids))
    as [Hlen [Hinv Hcount]].
  { intros i op Hop _. simpl in Hop. rewrite nth_error_map in Hop.
    destruct (nth_error ids i); simpl in Hop; [|discriminate].
    injection Hop as <-. simpl. split; [reflexivity | lia]. }
  destruct (fetch_steps sink retries ids sched (fetch_init ids, w))
    as [st' w'] eqn:Hrun.
  cbn [fst] in *.
  destruct (fetch_run_replay sched w st' w' Hrun) as [Hagree _].
  rewrite (fetchFeeds_unfold sched w st' w' Hrun).
  assert (Hsettled : forall j o, nth_error (ops st') j = Some o ->
                                 settled o <> Pending).
  { intros j o Hj Hp.
    assert (Hlt : j < List.length ids).
    { rewrite <- Hlen. apply nth_error_Some. congruence. }
    destruct (nth_error ids j) as [file|] eqn:Hid;
      [|apply nth_error_None in Hid; lia].
    destruct (Hcount j new_operation o (fetch_init_nth ids j file Hid) Hj Hp)
      as [_ Hatt].
    destruct (Hinv j o Hj Hp) as [Heq Hle].
    specialize (Hturns j Hlt). simpl in Hatt. lia. }
  unfold all_agrees in Hagree.
  destruct (all st') as [|raws|e]; eauto.
  exfalso. destruct Hagree as [Hnone Hnorej].
  destruct (all_fulfilled_total (ops st')) as [vs Hvs]; [|congruence].
  intros j o Hj. destruct (settled o) as [|v|e] eqn:Hs.
  - exfalso. now apply (Hsettled j o).
  - now exists v.
  - exfalso. now apply (Hnorej j o e).
Qed.

End FetchOutcome.

(** ** The status of a failed fetch *)

Lemma fetch_status_404 e :
  fetch_status e = 404%N <-> says_json_not_found (message e).
Proof.
  unfold fetch_status, says_json_not_found.
  destruct (Regex.test _ (message e)) eqn:Ht.
  - split; [intros _ | reflexivity].
    apply RegexFacts.test_spec in Ht as [a [p [z [Hs Hm]]]].
    apply RegexFacts.matches_between in Hm as [mid [-> Hmid]].
    now exists a, mid, z.
  - split; [discriminate|]. intros [a [mid [z [Hs Hmid]]]].
    assert (Regex.test json_not_found (message e) = true) as Ht';
      [|congruence].
    apply RegexFacts.test_spec.
    exists a, ((js "File " ++ [dquote]) ++ mid
               ++ (js "json" ++ [dquote] ++ js " not found")), z.
    split; [exact Hs|].
    apply RegexFacts.matches_between. now exists mid.
Qed.

Lemma fetch_status_cases e : fetch_status e = 404%N \/ fetch_status e = 500%N.
Proof. unfold fetch_status. destruct (Regex.test _ _); auto. Qed.

(** The message of the [AbortError] for a file whose name ends in "json",
    with or without a dot before it, is such a message. *)
Lemma fetch_status_abort_json stem :
  no_line_terminator stem ->
  fetch_status (new_Error (js "File " ++ [dquote] ++ (stem ++ js "json")
                           ++ [dquote] ++ js " not found.")) = 404%N.
Proof.
  intros Hstem. apply fetch_status_404. exists [], stem, (js ".").
  split; [|exact Hstem]. simpl. rewrite <- !app_assoc. reflexivity.
Qed.

(** ** Claims about fetchFeeds *)

(** C1.  Abort on not found.  Take any sink, any list of ids, any retry
    budget and any run of [fetchFeeds], and in it a turn of the fetch of
    [file] at which it is pending and [sink.get(file)] rejects with an
    error whose message includes 'No file with name'.  Then, however the
    run goes on: that fetch is rejected at this very attempt with the
    error 'File "<file>" not found.', the rejected call is the only [get]
    it makes from there on (no retry, whatever [retries] is), and
    [fetchFeeds] fails with a Boom error and returns no feeds at all. *)
Theorem fetchFeeds_aborts_on_not_found :
  forall (St : Type) (sink : Sink St) (ids : list jsstring) (retries : nat)
         (sched1 sched2 : list nat) (i : nat) (file : jsstring)
         (w : World St) (st1 : FetchState) (w1 : World St)
         (op : Operation jsstring) (err : JsError) (stx : St),
    nth_error ids i = Some file ->
    fetch_steps sink retries ids sched1 (fetch_init ids, w) = (st1, w1) ->
    nth_error (ops st1) i = Some op ->
    settled op = Pending ->
    get sink file (store w1) = (inl err, stx) ->
    includes (js "No file with name") (message err) = true ->
    exists st2 w2 b,
      fetch_steps sink retries ids (sched1 ++ i :: sched2) (fetch_init ids, w)
      = (st2, w2)
      /\ nth_error (ops st2) i
         = Some (mkOp (S (attempts op)) (errors op)
                   (Rejected (new_Error (js "File " ++ [dquote] ++ file
                                         ++ [dquote] ++ js " not found."))))
      /\ responses i (new_calls w1 w2) = [inl err]
      /\ fetchFeeds sink ids retries (sched1 ++ i :: sched2) w
         = Some (inl b, w2).
Proof.
  intros St sink ids retries sched1 sched2 i file w st1 w1 op err stx
         Hid Hrun1 Hop Hp Hget Hnf.
  destruct (fetch_steps sink retries ids (sched1 ++ i :: sched2)
              (fetch_init ids, w)) as [st2 w2] eqn:Hrun.
  pose proof Hrun as Hrun2.
  rewrite fetch_steps_app, Hrun1 in Hrun2.
  cbn [fetch_steps fold_left] in Hrun2.
  fold (fetch_steps sink retries ids sched2) in Hrun2.
  rewrite (fetch_step_attempt St sink retries ids i st1 w1 file op (inl err) stx)
    in Hrun2 by assumption.
  cbv zeta in Hrun2. rewrite (run_outcome_not_found file err Hnf) in Hrun2.
  cbn [pretry_settle] in Hrun2.
  set (msg := js "File " ++ [dquote] ++ file ++ [dquote] ++ js " not found.")
    in *.
  set (op' := mkOp (S (attempts op)) (errors op) (Rejected (new_Error msg)))
    in *.
  destruct (fetch_steps_replay St sink retries ids sched2 _ _ _ _ Hrun2)
    as [delta [Hcalls [_ Hops]]].
  cbn [calls ops] in Hcalls, Hops.
  destruct (Hops i file op' Hid) as [Hfinal Hquiet].
  { eapply nth_error_update_nth_eq; eauto. }
  assert (Hnone : responses i delta = []) by (apply Hquiet; discriminate).
  rewrite Hnone in Hfinal. cbn [replay fold_left] in Hfinal.
  destruct (fetch_run_replay St sink retries ids _ w st2 w2 Hrun) as [Hinv _].
  destruct (rejected_fetch_rejects_all st2 i op' (new_Error msg) Hinv Hfinal
              eq_refl) as [e He].
  exists st2, w2. eexists. split; [reflexivity|]. split; [exact Hfinal|].
  split.
  - rewrite (new_calls_app w1 w2 ([GetCall i file (inl err)] ++ delta)).
    + cbn [app responses]. rewrite Nat.eqb_refl, Hnone. reflexivity.
    + now rewrite Hcalls, <- app_assoc.
  - rewrite (fetchFeeds_unfold St sink retries ids _ w st2 w2 Hrun), He.
    reflexivity.
Qed.

(** A store without the file: the fetch of "missing.json" is given three
    turns and makes one call. *)
Lemma fetchFeeds_aborts_on_not_found_witness :
  exists st2 w2 b,
    fetch_steps Examples.SinkMem 3 [js "missing.json"] ([] ++ 0 :: [0; 0])
      (fetch_init [js "missing.json"], Examples.world [])
    = (st2, w2)
    /\ nth_error (ops st2) 0
       = Some (mkOp 1 []
                 (Rejected (new_Error (js "File " ++ [dquote]
                                       ++ js "missing.json" ++ [dquote]
                                       ++ js " not found."))))
    /\ responses 0 (new_calls (Examples.world []) w2)
       = [inl (new_Error (js "No file with name " ++ [dquote]
                          ++ js "missing.json" ++ [dquote]))]
    /\ fetchFeeds Examples.SinkMem [js "missing.json"] 3 ([] ++ 0 :: [0; 0])
         (Examples.world [])
       = Some (inl b, w2).
Proof.
  apply (fetchFeeds_aborts_on_not_found Examples.Db Examples.SinkMem
           [js "missing.json"] 3 [] [0; 0] 0 (js "missing.json")
           (Examples.world []) (fetch_init [js "missing.json"])
           (Examples.world []) new_operation
           (new_Error (js "No file with name " ++ [dquote]
                       ++ js "missing.json" ++ [dquote])) []);
    reflexivity.
Defined.

(** C2, as stated, fails.  The id "notjson" is no [*.json] reference, yet
    when the sink reports it missing the failure has status 404, not 500;
    and the [*.json] reference whose name holds a line feed before ".json"
    is reported missing with status 500, not 404. *)
Lemma fetchFeeds_status_counterexample :
  (exists b w',
     fetchFeeds Examples.SinkMem [js "notjson"] 0 [0] (Examples.world [])
     = Some (inl b, w')
     /\ (forall stem, js "notjson" <> stem ++ js ".json")
     /\ statusCode b = 404%N)
  /\ (exists b w',
        fetchFeeds Examples.SinkMem [js "a" ++ [10%N] ++ js ".json"] 0 [0]
          (Examples.world [])
        = Some (inl b, w')
        /\ original b
           = new_Error (js "File " ++ [dquote]
                        ++ (js "a" ++ [10%N] ++ js ".json") ++ [dquote]
                        ++ js " not found.")
        /\ statusCode b = 500%N).
Proof.
  split.
  - eexists. eexists. split; [vm_compute; reflexivity|]. split.
    + intros stem H. apply (f_equal (@rev N)) in H.
      rewrite rev_app_distr in H. vm_compute in H. congruence.
    + reflexivity.
  - eexists. eexists. split; [vm_compute; reflexivity|]. split; reflexivity.
Qed.

(** C2, amended.  Whenever [fetchFeeds] fails, the error it throws is the
    error one of the fetches was rejected with, made a Boom error: its
    status is 404 exactly when the message of that error has a part that
    reads 'File "', any characters but line terminators, 'json" not found'
    (so in particular when a file whose name ends in "json" and holds no
    line terminator was reported missing), and 500 otherwise; its message
    is 'Unable to fetch 1 or more feeds from storage.', followed by a colon
    and the message of the original error when that is not empty. *)
Theorem fetchFeeds_failure_classified :
  forall (St : Type) (sink : Sink St) (ids : list jsstring) (retries : nat)
         (sched : list nat) (w w' : World St) (b : BoomError),
    fetchFeeds sink ids retries sched w = Some (inl b, w') ->
    (exists i op,
       nth_error
         (ops (fst (fetch_steps sink retries ids sched (fetch_init ids, w)))) i
       = Some op
       /\ settled op = Rejected (original b))
    /\ (statusCode b = 404%N <-> says_json_not_found (message (original b)))
    /\ (statusCode b <> 404%N -> statusCode b = 500%N)
    /\ (forall stem,
          no_line_terminator stem ->
          original b = new_Error (js "File " ++ [dquote] ++ (stem ++ js "json")
                                  ++ [dquote] ++ js " not found.") ->
          statusCode b = 404%N)
    /\ bmessage b
       = js "Unable to fetch 1 or more feeds from storage."
         ++ match message (original b) with
            | [] => []
            | m => js ": " ++ m
            end.
Proof.
  intros St sink ids retries sched w w' b Hfail.
  destruct (fetch_steps sink retries ids sched (fetch_init ids, w))
    as [st2 w2] eqn:Hrun.
  destruct (fetch_run_replay St sink retries ids sched w st2 w2 Hrun)
    as [Hinv _].
  rewrite (fetchFeeds_unfold St sink retries ids sched w st2 w2 Hrun) in Hfail.
  unfold all_agrees in Hinv.
  destruct (all st2) as [|raws|e]; try discriminate.
  injection Hfail as <- <-. cbn [fst original statusCode bmessage boomify].
  split; [exact Hinv|].
  split; [apply fetch_status_404|].
  split; [destruct (fetch_status_cases e); tauto|].
  split; [|reflexivity].
  intros stem Hstem ->. now apply fetch_status_abort_json.
Qed.

Lemma fetchFeeds_failure_classified_witness :
  exists b w',
    fetchFeeds Examples.SinkMem [js "missing.json"] 3 [0] (Examples.world [])
    = Some (inl b, w')
    /\ statusCode b = 404%N
    /\ bmessage b
       = js "Unable to fetch 1 or more feeds from storage.: File "
         ++ [dquote] ++ js "missing.json" ++ [dquote] ++ js " not found.".
Proof.
  eexists. eexists. split; [vm_compute; reflexivity|].
  destruct (fetchFeeds_failure_classified Examples.Db Examples.SinkMem
              [js "missing.json"] 3 [0] (Examples.world []) _ _ eq_refl)
    as [_ [_ [_ [H404 Hmsg]]]].
  split.
  - apply (H404 (js "missing.")); [|reflexivity].
    repeat constructor.
  - exact Hmsg.
Defined.

(** ** upload: the retries of [sink.set] *)

Lemma mainError_loop_In rest : forall seen main count m,
  mainError_loop seen rest main count = Some m ->
  main = Some m \/ In m rest.
Proof.
  induction rest as [|e rest IH]; intros seen main count m H; simpl in H.
  - now left.
  - destruct (count <=? count_message (message e) seen + 1);
      apply IH in H as [H|H]; auto.
    + injection H as ->. right. now left.
    + right. now right.
    + right. now right.
Qed.

Lemma mainError_In es m : mainError es = Some m -> In m es.
Proof.
  intros H. apply mainError_loop_In in H as [H|H]; [discriminate | assumption].
Qed.

Lemma pretry_loop_settled {A W} fuel retries (fn : W -> Attempt A * W) op w :
  settled op <> Pending ->
  pretry_loop fuel retries fn op w = (op, w).
Proof.
  intros Hs. induction fuel as [|fuel IH]; simpl; auto.
  unfold pretry_attempt. destruct (settled op) eqn:Hp; try congruence.
Qed.

Lemma pretry_loop_step {A W} fuel retries (fn : W -> Attempt A * W) op w :
  pretry_loop (S fuel) retries fn op w
  = let (op', w') := pretry_attempt retries fn op w in
    pretry_loop fuel retries fn op' w'.
Proof. reflexivity. Qed.

Lemma set_fails_app {St} (sink : Sink St) f c errs1 : forall errs2 st st',
  set_fails sink f c (errs1 ++ errs2) st st' <->
  exists mid, set_fails sink f c errs1 st mid
              /\ set_fails sink f c errs2 mid st'.
Proof.
  induction errs1 as [|e errs1 IH]; intros errs2 st st'; simpl.
  - split.
    + intros H. now exists st.
    + now intros [mid [-> H]].
  - split.
    + intros [st1 [Hset H]]. apply IH in H as [mid [H1 H2]].
      exists mid. split; auto. now exists st1.
    + intros [mid [[st1 [Hset H1]] H2]]. exists st1. split; auto.
      apply IH. now exists mid.
Qed.

Section UploadFacts.

Variable St : Type.
Variable sink : Sink St.
Variable retries : nat.
Variables fileName content : jsstring.

Lemma sink_set_result w res st1 :
  set sink fileName content (store w) = (res, st1) ->
  sink_set sink fileName content w
  = (match res with inr u => Returned u | inl e => Threw e end,
     {| store := st1;
        calls := calls w ++ [SetCall fileName content res] |}).
Proof. intros H. unfold sink_set. now rewrite H. Qed.

(** Failures of [set] within the budget leave the upload pending. *)
Lemma pretry_loop_set_fails errs : forall op w st1 fuel,
  settled op = Pending ->
  set_fails sink fileName content errs (store w) st1 ->
  Forall (fun e => is_TypeError e = false) errs ->
  List.length (errors op) + List.length errs <= retries ->
  List.length errs <= fuel ->
  pretry_loop fuel retries (sink_set sink fileName content) op w
  = pretry_loop (fuel - List.length errs) retries
      (sink_set sink fileName content)
      (mkOp (attempts op + List.length errs) (errors op ++ errs) Pending)
      {| store := st1; calls := calls w ++ failed_sets fileName content errs |}.
Proof.
  induction errs as [|e errs IH]; intros op w st1 fuel Hp Hfails Hte Hlen Hfuel.
  - simpl in Hfails. subst st1. simpl.
    rewrite Nat.sub_0_r, Nat.add_0_r, !app_nil_r.
    destruct op as [n es s]; destruct w as [st cs]; simpl in *. now subst.
  - simpl in Hfails. destruct Hfails as [st0 [Hset Hfails]].
    inversion Hte as [|? ? He Hte']; subst. simpl in Hlen, Hfuel.
    destruct fuel as [|fuel]; [lia|].
    cbn [pretry_loop]. unfold pretry_attempt at 1. rewrite Hp.
    rewrite (sink_set_result w (inl e) st0 Hset).
    rewrite pretry_settle_retry by (auto; lia).
    rewrite (IH _ _ st1 fuel); simpl; auto; try lia.
    + rewrite <- !app_assoc. simpl.
      now rewrite Nat.add_succ_r.
    + rewrite length_app. simpl. lia.
Qed.

(** At most [retries] failures of [set] and then a success: the upload
    succeeds. *)
Lemma upload_retry_success w errs st1 st2 :
  set_fails sink fileName content errs (store w) st1 ->
  set sink fileName content st1 = (inr tt, st2) ->
  Forall (fun e => is_TypeError e = false) errs ->
  List.length errs <= retries ->
  upload sink fileName content retries w
  = Some (inr tt,
          {| store := st2;
             calls := calls w ++ failed_sets fileName content errs
                      ++ [SetCall fileName content (inr tt)] |}).
Proof.
  intros Hfails Hset Hte Hlen. unfold upload, pretry.
  rewrite (pretry_loop_set_fails errs new_operation w st1 (S retries))
    by (simpl; auto; lia).
  replace (S retries - List.length errs)
    with (S (retries - List.length errs)) by lia.
  rewrite pretry_loop_step. unfold pretry_attempt. cbn [settled].
  rewrite (sink_set_result _ (inr tt) st2) by exact Hset.
  cbn [pretry_settle calls store].
  rewrite pretry_loop_settled by (simpl; discriminate).
  cbn [settled]. now rewrite <- app_assoc.
Qed.

(** [retries + 1] failures of [set]: the upload fails with a Boom error
    that names the file and wraps one of the failures. *)
Lemma upload_retry_exhausted w errs st1 :
  set_fails sink fileName content errs (store w) st1 ->
  Forall (fun e => is_TypeError e = false) errs ->
  List.length errs = S retries ->
  exists b,
    upload sink fileName content retries w
    = Some (inl b, {| store := st1; calls := calls w ++ failed_sets fileName content errs |})
    /\ In (original b) errs
    /\ statusCode b = 500%N
    /\ bmessage b
       = (js "Unable to upload bundle with fileName " ++ [dquote]
          ++ fileName ++ [dquote] ++ js " to storage.")
         ++ match message (original b) with
            | [] => []
            | m => js ": " ++ m
            end.
Proof.
  intros Hfails Hte Hlen.
  destruct (exists_last (l := errs)) as [front [e ->]].
  { intros ->. discriminate. }
  rewrite length_app in Hlen. simpl in Hlen.
  apply Forall_app in Hte as [Hfront He]. inversion He as [|? ? Hne _]; subst.
  apply set_fails_app in Hfails as [mid [Hfront_fails Hlast]].
  simpl in Hlast. destruct Hlast as [st' [Hset ->]].
  unfold upload, pretry.
  rewrite (pretry_loop_set_fails front new_operation w mid (S retries))
    by (simpl; auto; lia).
  replace (S retries - List.length front) with 1 by lia.
  rewrite pretry_loop_step. unfold pretry_attempt. cbn [settled].
  rewrite (sink_set_result _ (inl e) st') by exact Hset.
  unfold pretry_settle. rewrite Hne. cbn [errors attempts new_operation app].
  replace (List.length front <? retries) with false
    by (symmetry; apply Nat.ltb_ge; lia).
  cbn [pretry_loop settled calls store].
  eexists. split.
  - unfold failed_sets. rewrite map_app, <- app_assoc. reflexivity.
  - cbn [original statusCode bmessage boomify]. split; [|split; reflexivity].
    destruct (mainError (front ++ [e])) as [m|] eqn:Hm.
    + now apply mainError_In.
    + apply in_or_app. right. now left.
Qed.

(** [upload] always settles. *)
Lemma upload_settles w :
  exists r w', upload sink fileName content retries w = Some (r, w').
Proof.
  unfold upload, pretry.
  assert (H : forall fuel (op : Operation unit) w0,
             settled op = Pending ->
             List.length (errors op) <= retries ->
             retries < List.length (errors op) + fuel ->
             settled (fst (pretry_loop fuel retries
                             (sink_set sink fileName content) op w0))
             <> Pending).
  { induction fuel as [|fuel IH]; intros op w0 Hp Hle Hlen; [lia|].
    cbn [pretry_loop]. unfold pretry_attempt at 1. rewrite Hp.
    destruct (sink_set sink fileName content w0) as [r w1].
    destruct r as [u|e|m].
    - rewrite pretry_loop_settled; simpl; discriminate.
    - unfold pretry_settle. destruct (is_TypeError e).
      + rewrite pretry_loop_settled; simpl; discriminate.
      + destruct (List.length (errors op) <? retries) eqn:Hlt.
        * apply Nat.ltb_lt in Hlt.
          apply IH; simpl; auto; rewrite length_app; simpl; lia.
        * rewrite pretry_loop_settled; simpl; discriminate.
    - rewrite pretry_loop_settled; simpl; discriminate. }
  specialize (H (S retries) new_operation w eq_refl).
  cbn [new_operation errors List.length] in H.
  specialize (H (Nat.le_0_l retries) (Nat.lt_succ_diag_r retries)).
  destruct (pretry_loop (S retries) retries (sink_set sink fileName content)
              new_operation w) as [op w'].
  simpl in H. destruct (settled op); [congruence | eauto | eauto].
Qed.

End UploadFacts.

(** ** bundleAndUpload, step by step *)

Lemma bundleAndUpload_steps
  (bundleJS bundleCSS : list JsValue -> JsError + jsstring)
  (St : Type) (sink : Sink St) (type uri : jsstring) (id : jsstring)
  (ids : list jsstring) (sched : list nat) (w : World St) :
  bundleAndUpload bundleJS bundleCSS sink type (IdArray (id :: ids)) uri sched w
  = match fetchFeeds sink (id :: ids) 3 sched w with
    | None => None
    | Some (inl b, w1) => Some (inl (Classified b), w1)
    | Some (inr fetchedFeeds, w1) =>
        match parseFeeds fetchedFeeds with
        | inl b => Some (inl (Classified b), w1)
        | inr parsedFeeds =>
            match bundleFeeds bundleJS bundleCSS parsedFeeds type with
            | inl b => Some (inl (Classified b), w1)
            | inr content =>
                let fileName :=
                  createHashFromContent content ++ js "." ++ type in
                match upload sink fileName content 3 w1 with
                | None => None
                | Some (inl b, w2) => Some (inl (Classified b), w2)
                | Some (inr _, w2) =>
                    Some (inr {| file := fileName; uri := uri ++ fileName |},
                          w2)
                end
            end
        end
    end.
Proof.
  unfold bundleAndUpload, await, sync, classified, assert_feed_ids, resolve.
  cbv beta.
  destruct (fetchFeeds sink (id :: ids) 3 sched w) as [[[b|raws] w1]|];
    try reflexivity.
  destruct (parseFeeds raws) as [b|feeds]; try reflexivity.
  destruct (bundleFeeds bundleJS bundleCSS feeds type) as [b|content];
    try reflexivity.
  cbv zeta.
  destruct (upload sink (createHashFromContent content ++ js "." ++ type)
              content 3 w1) as [[[b|u] w2]|]; reflexivity.
Qed.

(** [bundleAndUpload] returns or throws once every fetch has had four
    turns. *)
Lemma bundleAndUpload_settles
  (bundleJS bundleCSS : list JsValue -> JsError + jsstring)
  (St : Type) (sink : Sink St) (type uri : jsstring) (feedIds : FeedIds)
  (sched : list nat) (w : World St) :
  (forall ids, feedIds = IdArray ids ->
     forall i, i < List.length ids -> 3 < count_occ Nat.eq_dec sched i) ->
  exists r w',
    bundleAndUpload bundleJS bundleCSS sink type feedIds uri sched w
    = Some (r, w').
Proof.
  intros Hturns. destruct feedIds as [shown|[|id ids]].
  - eexists. eexists. reflexivity.
  - eexists. eexists. reflexivity.
  - rewrite bundleAndUpload_steps.
    destruct (fetchFeeds_settles St sink 3 (id :: ids) sched w
                (Hturns (id :: ids) eq_refl)) as [r [w1 Hfetch]].
    rewrite Hfetch. destruct r as [b|raws]; [eauto|].
    destruct (parseFeeds raws) as [b|feeds]; [eauto|].
    destruct (bundleFeeds bundleJS bundleCSS feeds type) as [b|content];
      [eauto|].
    cbv zeta.
    destruct (upload_settles St sink 3
                (createHashFromContent content ++ js "." ++ type) content w1)
      as [r [w2 Hup]].
    rewrite Hup. destruct r as [b|u]; eauto.
Qed.

(** ** parseFeeds *)

Lemma map_JSON_parse_error rawFeeds :
  (exists raw e, In raw rawFeeds /\ JSON.parse raw = inl e) ->
  exists raw e,
    In raw rawFeeds /\ JSON.parse raw = inl e
    /\ map_JSON_parse rawFeeds = inl e.
Proof.
  induction rawFeeds as [|r rest IH]; intros [raw [e [Hin Hp]]].
  - destruct Hin.
  - simpl. destruct (JSON.parse r) as [e'|v] eqn:Hr.
    + exists r, e'. split; [now left|]. split; [exact Hr | reflexivity].
    + destruct Hin as [->|Hin]; [congruence|].
      destruct IH as [raw' [e' [Hin' [Hp' Hm]]]]; [now exists raw, e|].
      exists raw', e'. rewrite Hm.
      split; [now right|]. split; [exact Hp' | reflexivity].
Qed.

Lemma map_JSON_parse_ok rawFeeds feeds :
  map_JSON_parse rawFeeds = inr feeds ->
  Forall2 (fun raw feed => JSON.parse raw = inr feed) rawFeeds feeds.
Proof.
  revert feeds. induction rawFeeds as [|r rest IH]; intros feeds H; simpl in H.
  - injection H as <-. constructor.
  - destruct (JSON.parse r) as [e|v] eqn:Hr; try discriminate.
    destruct (map_JSON_parse rest) as [e|vs]; try discriminate.
    injection H as <-. constructor; auto.
Qed.

Lemma map_JSON_parse_all rawFeeds feeds :
  Forall2 (fun raw feed => JSON.parse raw = inr feed) rawFeeds feeds ->
  map_JSON_parse rawFeeds = inr feeds.
Proof.
  induction 1 as [|r v rest vs Hr _ IH]; simpl; auto.
  now rewrite Hr, IH.
Qed.

(** C5, as stated, fails: the text of the repository's own test, an object
    that lacks its closing brace, makes [parseFeeds] fail with status 500, a
    server error, not with a "bad request". *)
Lemma parseFeeds_status_counterexample :
  exists b,
    parseFeeds [js "{ " ++ [dquote] ++ js "foo" ++ [dquote] ++ js ": "
                ++ [dquote] ++ js "bar" ++ [dquote]]
    = inl b
    /\ statusCode b = 500%N
    /\ statusCode b <> 400%N
    /\ isServer b = true.
Proof.
  eexists. split; [vm_compute; reflexivity|].
  split; [reflexivity|]. split; [discriminate | reflexivity].
Qed.

(** C5, amended.  When one of the raw feeds is not JSON text, [parseFeeds]
    fails and returns no feed: it throws the [SyntaxError] of [JSON.parse]
    for one of the texts, made a Boom error with status 500 (a server
    error) and with the message 'Unable to parse 1 or more feeds as JSON.'
    put before its own.  [bundleAndUpload] then fails with that same error
    once the feeds are fetched, and goes no further. *)
Theorem parseFeeds_rejects_malformed :
  forall rawFeeds : list jsstring,
    (exists raw e, In raw rawFeeds /\ JSON.parse raw = inl e) ->
    exists b,
      parseFeeds rawFeeds = inl b
      /\ statusCode b = 500%N
      /\ isServer b = true
      /\ (exists raw, In raw rawFeeds /\ JSON.parse raw = inl (original b))
      /\ bmessage b
         = js "Unable to parse 1 or more feeds as JSON."
           ++ match message (original b) with
              | [] => []
              | m => js ": " ++ m
              end
      /\ forall (bundleJS bundleCSS : list JsValue -> JsError + jsstring)
                (St : Type) (sink : Sink St) (type uri : jsstring)
                (id : jsstring) (ids : list jsstring) (sched : list nat)
                (w w1 : World St),
           fetchFeeds sink (id :: ids) 3 sched w = Some (inr rawFeeds, w1) ->
           bundleAndUpload bundleJS bundleCSS sink type (IdArray (id :: ids))
             uri sched w
           = Some (inl (Classified b), w1).
Proof.
  intros rawFeeds Hbad.
  destruct (map_JSON_parse_error rawFeeds Hbad) as [raw [e [Hin [Hp Hm]]]].
  unfold parseFeeds. rewrite Hm. eexists. split; [reflexivity|].
  cbn [original statusCode bmessage boomify].
  split; [reflexivity|]. split; [reflexivity|].
  split; [now exists raw|]. split; [reflexivity|].
  intros bundleJS bundleCSS St sink type uri id ids sched w w1 Hfetch.
  rewrite bundleAndUpload_steps, Hfetch. unfold parseFeeds. now rewrite Hm.
Qed.

Lemma parseFeeds_rejects_malformed_witness :
  exists b,
    parseFeeds [Examples.feedA; js "{ not json"] = inl b
    /\ statusCode b = 500%N
    /\ bmessage b
       = js "Unable to parse 1 or more feeds as JSON.: Unexpected token in JSON".
Proof.
  destruct (parseFeeds_rejects_malformed [Examples.feedA; js "{ not json"])
    as [b [Hb [Hs [_ [[raw [Hin Hraw]] [Hm _]]]]]].
  - exists (js "{ not json"), JSON.syntax_error.
    split; [right; now left | vm_compute; reflexivity].
  - exists b. split; [exact Hb|]. split; [exact Hs|].
    rewrite Hm.
    assert (Horig : original b = JSON.syntax_error).
    { destruct Hin as [<-|[<-|[]]].
      - assert (H : exists v, JSON.parse Examples.feedA = inr v)
          by (vm_compute; eexists; reflexivity).
        destruct H as [v Hv]. congruence.
      - assert (H : JSON.parse (js "{ not json") = inl JSON.syntax_error)
          by (vm_compute; reflexivity).
        congruence. }
    rewrite Horig. reflexivity.
Defined.

(** ** bundleFeeds *)

(** C7, as stated, fails in its last part: the error of the bundler is not
    hidden.  A JS bundler that fails an assertion of its own makes
    [bundleFeeds] throw an error of the class [AssertionError], the class
    of the bundler's error and not one of the pipeline's. *)
Lemma bundleFeeds_error_class_counterexample :
  exists b,
    bundleFeeds Examples.asserting_bundler Examples.join_sources [] (js "js")
    = inl b
    /\ original b = Examples.assertion_failed
    /\ error_class b = OtherC (js "AssertionError")
    /\ error_class b <> ErrorC.
Proof.
  eexists. split; [reflexivity|]. split; [reflexivity|].
  split; [reflexivity | discriminate].
Qed.

(** C7, amended.  [bundleFeeds] hands the feeds to the CSS bundler exactly
    when the type is 'css', and to the JS bundler for any other type; the
    bundle is returned as it is, and an error the bundler throws is thrown
    decorated as a Boom error (status 500) that wraps it, with 'Unable to
    bundle feeds as CSS.' or 'Unable to bundle feeds as JS.' put before its
    message.  What is thrown is the error of the bundler that was called,
    and has its class: the type of the bundler's error reaches the
    caller. *)
Theorem bundleFeeds_dispatch :
  forall (bundleJS bundleCSS : list JsValue -> JsError + jsstring)
         (feeds : list JsValue) (type : jsstring),
    (type = js "css" ->
     bundleFeeds bundleJS bundleCSS feeds type
     = match bundleCSS feeds with
       | inr content => inr content
       | inl err =>
           inl {| original := err; statusCode := 500;
                  bmessage := js "Unable to bundle feeds as CSS."
                              ++ match message err with
                                 | [] => []
                                 | m => js ": " ++ m
                                 end |}
       end)
    /\ (type <> js "css" ->
        bundleFeeds bundleJS bundleCSS feeds type
        = match bundleJS feeds with
          | inr content => inr content
          | inl err =>
              inl {| original := err; statusCode := 500;
                     bmessage := js "Unable to bundle feeds as JS."
                                 ++ match message err with
                                    | [] => []
                                    | m => js ": " ++ m
                                    end |}
          end)
    /\ (forall b,
          bundleFeeds bundleJS bundleCSS feeds type = inl b ->
          exists err,
            (if jsstring_eqb type (js "css") then bundleCSS feeds
             else bundleJS feeds) = inl err
            /\ original b = err
            /\ error_class b = eclass err
            /\ (is_TypeError err = true -> is_TypeError (original b) = true)).
Proof.
  intros bundleJS bundleCSS feeds type. unfold bundleFeeds.
  split; [|split].
  - intros ->. rewrite jsstring_eqb_refl. destruct (bundleCSS feeds); reflexivity.
  - intros Hne. apply jsstring_eqb_neq in Hne. rewrite Hne.
    destruct (bundleJS feeds); reflexivity.
  - intros b Hb. destruct (jsstring_eqb type (js "css")).
    + destruct (bundleCSS feeds) as [err|content]; [|discriminate].
      injection Hb as <-. exists err. repeat split; auto.
    + destruct (bundleJS feeds) as [err|content]; [|discriminate].
      injection Hb as <-. exists err. repeat split; auto.
Qed.

(** The type 'png' goes to the JS bundler; a bundler that throws
    'Unexpected token' gives 'Unable to bundle feeds as JS.: Unexpected
    token', and for 'css' the same with CSS; the error of a bundler that
    fails an assertion is thrown with its class. *)
Lemma bundleFeeds_dispatch_witness :
  bundleFeeds Examples.join_sources Examples.broken_bundler
    [VObject [(js "source", VString (js "var a=1"))]] (js "png")
  = inr (js "var a=1;")
  /\ bundleFeeds Examples.broken_bundler Examples.join_sources [] (js "js")
     = inl {| original := new_Error (js "Unexpected token");
              statusCode := 500;
              bmessage := js "Unable to bundle feeds as JS.: Unexpected token" |}
  /\ bundleFeeds Examples.join_sources Examples.broken_bundler [] (js "css")
     = inl {| original := new_Error (js "Unexpected token");
              statusCode := 500;
              bmessage := js "Unable to bundle feeds as CSS.: Unexpected token" |}
  /\ exists err,
       Examples.asserting_bundler [] = inl err
       /\ error_class
            {| original := Examples.assertion_failed; statusCode := 500;
               bmessage := js "Unable to bundle feeds as CSS.: Expected feed" |}
          = eclass err.
Proof.
  split; [|split; [|split]].
  - destruct (bundleFeeds_dispatch Examples.join_sources Examples.broken_bundler
                [VObject [(js "source", VString (js "var a=1"))]] (js "png"))
      as [_ [H _]].
    rewrite H; [reflexivity | discriminate].
  - destruct (bundleFeeds_dispatch Examples.broken_bundler Examples.join_sources
                [] (js "js")) as [_ [H _]].
    rewrite H; [reflexivity | discriminate].
  - destruct (bundleFeeds_dispatch Examples.join_sources Examples.broken_bundler
                [] (js "css")) as [H _].
    rewrite H; reflexivity.
  - destruct (bundleFeeds_dispatch Examples.join_sources
                Examples.asserting_bundler [] (js "css")) as [_ [_ H]].
    destruct (H {| original := Examples.assertion_failed; statusCode := 500;
                   bmessage := js "Unable to bundle feeds as CSS.: Expected feed" |}
                eq_refl) as [err [Herr [_ [Hclass _]]]].
    exists err. split; [exact Herr | exact Hclass].
Defined.

(** ** bundleAndUpload *)

(** C8.  Called with anything but a non-empty array of ids,
    [bundleAndUpload] throws the [AssertionError] of its [assert] and does
    nothing else: the world, that is the store of the sink and the list of
    calls made to it, is as before, whatever the sink, the bundlers and the
    schedule are.  Called with a non-empty array it never throws an
    [AssertionError]. *)
Theorem bundleAndUpload_precondition :
  forall (bundleJS bundleCSS : list JsValue -> JsError + jsstring)
         (St : Type) (sink : Sink St) (type uri : jsstring)
         (sched : list nat) (w : World St),
    bundleAndUpload bundleJS bundleCSS sink type (IdArray []) uri sched w
    = Some (inl (AssertionError (js "Expected at least 1 feed id, but got ")),
            w)
    /\ (forall shown,
          bundleAndUpload bundleJS bundleCSS sink type (NotArray shown) uri
            sched w
          = Some (inl (AssertionError
                         (js "Expected at least 1 feed id, but got " ++ shown)),
                  w))
    /\ (forall id ids r w',
          bundleAndUpload bundleJS bundleCSS sink type (IdArray (id :: ids))
            uri sched w = Some (r, w') ->
          forall msg, r <> inl (AssertionError msg)).
Proof.
  intros bundleJS bundleCSS St sink type uri sched w.
  split; [reflexivity|]. split; [reflexivity|].
  intros id ids r w' H msg. rewrite bundleAndUpload_steps in H.
  destruct (fetchFeeds sink (id :: ids) 3 sched w) as [[[b|raws] w1]|];
    try discriminate.
  - injection H as <- _. discriminate.
  - destruct (parseFeeds raws) as [b|feeds].
    + injection H as <- _. discriminate.
    + destruct (bundleFeeds bundleJS bundleCSS feeds type) as [b|content].
      * injection H as <- _. discriminate.
      * cbv zeta in H.
        remember (createHashFromContent content ++ js "." ++ type)
          as fileName eqn:Hname.
        clear Hname.
        destruct (upload sink fileName content 3 w1) as [[[b|u] w2]|];
          try discriminate; injection H as <- _; discriminate.
Qed.

(** With one id, missing from the sink, [bundleAndUpload] fails, and not
    by the assertion. *)
Lemma bundleAndUpload_precondition_witness :
  exists r w',
    bundleAndUpload Examples.join_sources Examples.join_sources
      Examples.SinkMem (js "js") (IdArray [js "x.json"])
      (js "http://host/bundle/") [0] (Examples.world [])
    = Some (r, w')
    /\ r <> inl (AssertionError (js "Expected at least 1 feed id, but got ")).
Proof.
  eexists. eexists. split.
  - vm_compute. reflexivity.
  - destruct (bundleAndUpload_precondition Examples.join_sources
                Examples.join_sources Examples.Db Examples.SinkMem (js "js")
                (js "http://host/bundle/") [0] (Examples.world []))
      as [_ [_ Hnon]].
    eapply (Hnon (js "x.json") []). vm_compute. reflexivity.
Defined.

(** ** The content hash *)

(** The test vector 'abc' of FIPS 180-4. *)
Example createHashFromContent_abc :
  createHashFromContent (js "abc")
  = js "ba7816bf8f01cfea414140de5dae2223b00361a396177a9cb410ff61f20015ad".
Proof. vm_compute. reflexivity. Qed.

Lemma hex_digit_lower n :
  (n < 16)%N -> is_lower_hex (Sha256.hex_digit n) = true.
Proof.
  intros Hn. unfold is_lower_hex, Sha256.hex_digit.
  destruct (N.ltb_spec n 10) as [Hlt|Hge].
  - apply orb_true_iff. left. apply andb_true_iff.
    split; apply N.leb_le; lia.
  - apply orb_true_iff. right. apply andb_true_iff.
    split; apply N.leb_le; lia.
Qed.

Lemma hex_word_format w :
  List.length (Sha256.hex_word w) = 8
  /\ Forall (fun c => is_lower_hex c = true) (Sha256.hex_word w).
Proof.
  unfold Sha256.hex_word. split; [reflexivity|].
  cbn [map]. repeat constructor; apply hex_digit_lower;
    apply N.mod_upper_bound; discriminate.
Qed.

(** The hex digest is 64 lower-case hexadecimal digits. *)
Lemma createHashFromContent_format content :
  List.length (createHashFromContent content) = 64
  /\ Forall (fun c => is_lower_hex c = true) (createHashFromContent content).
Proof.
  unfold createHashFromContent, Sha256.hex.
  generalize (Sha256.sha256 (Sha256.utf8 content)). intros s. split.
  - rewrite !length_app.
    repeat rewrite (proj1 (hex_word_format _)). reflexivity.
  - repeat (apply Forall_app; split); apply hex_word_format.
Qed.

(** ** fetchFeeds on a reliable sink *)
Section Reliable.

Variable St : Type.
Variable sink : Sink St.
Variable contents : St -> jsstring -> option jsstring.
Hypothesis sink_reliable : reliable sink contents.

Variable retries : nat.
Variables ids raws : list jsstring.
Variable w0 : World St.

Hypothesis raws_length : List.length raws = List.length ids.
Hypothesis raws_stored :
  forall i id, nth_error ids i = Some id ->
    exists raw, nth_error raws i = Some raw
                /\ contents (store w0) id = Some raw.

Lemma untroubled_init : untroubled contents ids raws w0 (fetch_init ids) w0.
Proof.
  split; [reflexivity|]. split; [apply fetch_init_length|].
  intros j o Hj. left. simpl in Hj. rewrite nth_error_map in Hj.
  destruct (nth_error ids j); simpl in Hj; congruence.
Qed.

(** A turn on a reliable sink fulfils the fetch that takes it and leaves
    the others as they are. *)
Lemma untroubled_step i st w :
  untroubled contents ids raws w0 st w ->
  untroubled contents ids raws w0
    (fst (fetch_step sink retries ids i (st, w)))
    (snd (fetch_step sink retries ids i (st, w)))
  /\ (i < List.length ids ->
      exists raw,
        nth_error raws i = Some raw
        /\ nth_error (ops (fst (fetch_step sink retries ids i (st, w)))) i
           = Some (mkOp 1 [] (Fulfilled raw)))
  /\ (forall j raw,
        nth_error (ops st) j = Some (mkOp 1 [] (Fulfilled raw)) ->
        nth_error (ops (fst (fetch_step sink retries ids i (st, w)))) j
        = Some (mkOp 1 [] (Fulfilled raw))).
Proof.
  intros [Hcont [Hlen Hops]].
  destruct (fetch_step_cases St sink retries ids i st w)
    as [[Hidle Hset] | [file [op [res [stx [Hid [Hop [Hp Hget]]]]]]]].
  - rewrite Hidle. cbn [fst snd]. split; [now repeat split|]. split; auto.
    intros Hi.
    destruct (nth_error ids i) as [file|] eqn:Hid;
      [|apply nth_error_None in Hid; lia].
    destruct (nth_error (ops st) i) as [op|] eqn:Hop;
      [|apply nth_error_None in Hop; lia].
    destruct (Hops i op Hop) as [->|[raw [Hraw ->]]].
    + exfalso. now apply (Hset file new_operation).
    + now exists raw.
  - destruct (raws_stored i file Hid) as [raw [Hraw Hstored]].
    rewrite <- Hcont in Hstored.
    destruct (@get_stored _ _ _ sink_reliable _ _ _ Hstored)
      as [st' [Hget' Hsame]].
    rewrite Hget' in Hget. injection Hget as <- <-.
    rewrite (fetch_step_attempt St sink retries ids i st w file op
               (inr raw) st') by assumption.
    cbv zeta. cbn [fst snd ops store run_outcome pretry_settle].
    assert (Hnew : op = new_operation).
    { destruct (Hops i op Hop) as [->|[raw' [_ ->]]]; [reflexivity|].
      discriminate. }
    subst op. cbn [attempts errors new_operation].
    split; [|split].
    + split; [|split]; cbn [ops store].
      * intros f. now rewrite Hsame.
      * now rewrite update_nth_length.
      * intros j o Hj. destruct (Nat.eq_dec i j) as [<-|Hne].
        -- rewrite (nth_error_update_nth_eq i _ _ _ Hop) in Hj.
           injection Hj as <-. right. now exists raw.
        -- rewrite nth_error_update_nth_neq in Hj by assumption. auto.
    + intros _. exists raw. split; [exact Hraw|].
      eapply nth_error_update_nth_eq; eauto.
    + intros j raw' Hj. rewrite nth_error_update_nth_neq; auto.
      intros <-. rewrite Hop in Hj. discriminate.
Qed.

Lemma untroubled_steps sched : forall st w,
  untroubled contents ids raws w0 st w ->
  untroubled contents ids raws w0
    (fst (fetch_steps sink retries ids sched (st, w)))
    (snd (fetch_steps sink retries ids sched (st, w)))
  /\ (forall j raw,
        nth_error (ops st) j = Some (mkOp 1 [] (Fulfilled raw)) ->
        nth_error (ops (fst (fetch_steps sink retries ids sched (st, w)))) j
        = Some (mkOp 1 [] (Fulfilled raw)))
  /\ (forall i, In i sched -> i < List.length ids ->
        exists raw,
          nth_error raws i = Some raw
          /\ nth_error (ops (fst (fetch_steps sink retries ids sched (st, w))))
               i
             = Some (mkOp 1 [] (Fulfilled raw))).
Proof.
  induction sched as [|i0 sched IH]; intros st w Hinv.
  - cbn [fetch_steps fold_left fst snd]. split; [exact Hinv|].
    split; [auto | intros i []].
  - cbn [fetch_steps fold_left]. fold (fetch_steps sink retries ids sched).
    destruct (untroubled_step i0 st w Hinv) as [Hinv1 [Hdone Hkeep]].
    destruct (fetch_step sink retries ids i0 (st, w)) as [st1 w1].
    cbn [fst snd] in *.
    destruct (IH st1 w1 Hinv1) as [Hinv2 [Hkeep2 Hsched]].
    split; [exact Hinv2|]. split.
    + intros j raw Hj. apply Hkeep2. now apply Hkeep.
    + intros i [<-|Hin] Hi.
      * destruct (Hdone Hi) as [raw [Hraw Hf]]. exists raw. split; auto.
      * now apply Hsched.
Qed.

(** Once every fetch has had a turn, [fetchFeeds] returns the stored feeds
    in the order of the ids, and the contents of the sink are as before. *)
Lemma fetchFeeds_reliable sched :
  (forall i, i < List.length ids -> In i sched) ->
  exists w',
    fetchFeeds sink ids retries sched w0 = Some (inr raws, w')
    /\ forall f, contents (store w') f = contents (store w0) f.
Proof.
  intros Hfair.
  destruct (untroubled_steps sched (fetch_init ids) w0 untroubled_init)
    as [[Hcont [Hlen Hops]] [_ Hdone]].
  destruct (fetch_steps sink retries ids sched (fetch_init ids, w0))
    as [st' w'] eqn:Hrun.
  cbn [fst snd] in *. exists w'. split; [|exact Hcont].
  destruct (fetch_run_replay St sink retries ids sched w0 st' w' Hrun)
    as [Hinv _].
  rewrite (fetchFeeds_unfold St sink retries ids sched w0 st' w' Hrun).
  assert (Hall : all st' = Fulfilled raws); [|now rewrite Hall].
  apply fulfilled_fetches_fulfil_all;
    [exact Hinv
    | transitivity (List.length ids); [exact raws_length | symmetry; exact Hlen]
    |].
  intros j o Hj.
  assert (Hlt : j < List.length ids).
  { rewrite <- Hlen. apply nth_error_Some. congruence. }
  destruct (Hdone j (Hfair j Hlt) Hlt) as [raw [Hraw Hf]].
  rewrite Hf in Hj. injection Hj as <-. now exists raw.
Qed.

End Reliable.

(** The sink in memory is reliable. *)
Lemma SinkMem_reliable :
  reliable Examples.SinkMem (fun db file => Examples.lookup file db).
Proof.
  split.
  - intros db file content H. exists db. simpl. unfold Examples.mem_get.
    now rewrite H.
  - intros db file content. exists ((file, content) :: db). simpl.
    split; [reflexivity|]. rewrite jsstring_eqb_refl. split; [reflexivity|].
    intros f Hne.
    destruct (jsstring_eqb file f) eqn:Heq; [|reflexivity].
    apply jsstring_eqb_eq in Heq. congruence.
Qed.

(** C4.  End to end.  Let a reliable sink hold, under [idA] and [idB], two
    texts that parse as JSON into feeds the JS bundler makes [bytes] of, in
    that order.  Then [bundleAndUpload] for the type 'js', on any schedule
    that gives both fetches a turn, returns [{ file, uri }] where [file] is
    the SHA-256 digest of the UTF-8 bytes of the bundle, as 64 lower-case
    hexadecimal digits, followed by '.js', and [uri] is the base uri followed
    by [file]; afterwards the sink holds the bundle under [file]. *)
Theorem bundleAndUpload_end_to_end :
  forall (bundleJS bundleCSS : list JsValue -> JsError + jsstring)
         (St : Type) (sink : Sink St)
         (contents : St -> jsstring -> option jsstring)
         (idA idB rawA rawB : jsstring) (feedA feedB : JsValue)
         (bytes baseUri : jsstring) (sched : list nat) (w : World St),
    reliable sink contents ->
    contents (store w) idA = Some rawA ->
    contents (store w) idB = Some rawB ->
    JSON.parse rawA = inr feedA ->
    JSON.parse rawB = inr feedB ->
    bundleJS [feedA; feedB] = inr bytes ->
    In 0 sched ->
    In 1 sched ->
    exists H w',
      H = Sha256.hex (Sha256.sha256 (Sha256.utf8 bytes))
      /\ List.length H = 64
      /\ Forall (fun c => is_lower_hex c = true) H
      /\ bundleAndUpload bundleJS bundleCSS sink (js "js")
           (IdArray [idA; idB]) baseUri sched w
         = Some (inr {| file := H ++ js ".js";
                        uri := baseUri ++ H ++ js ".js" |}, w')
      /\ contents (store w') (H ++ js ".js") = Some bytes.
Proof.
  intros bundleJS bundleCSS St sink contents idA idB rawA rawB feedA feedB
         bytes baseUri sched w Hrel HA HB HpA HpB Hbundle H0 H1.
  destruct (createHashFromContent_format bytes) as [Hlen Hhex].
  exists (createHashFromContent bytes).
  destruct (fetchFeeds_reliable St sink contents Hrel 3 [idA; idB] [rawA; rawB]
              w eq_refl) with (sched := sched) as [w1 [Hfetch Hcont]].
  { intros [|[|i]] id Hid; simpl in Hid;
      [| | destruct i; discriminate];
      injection Hid as <-; eexists; (split; [reflexivity | assumption]). }
  { intros [|[|i]] Hi; simpl in Hi; auto; lia. }
  destruct (@set_stores _ _ _ Hrel (store w1)
              (createHashFromContent bytes ++ js ".js") bytes)
    as [st2 [Hset [Hfile _]]].
  eexists. split; [reflexivity|]. split; [exact Hlen|]. split; [exact Hhex|].
  rewrite bundleAndUpload_steps, Hfetch.
  unfold parseFeeds. cbn [map_JSON_parse]. rewrite HpA, HpB.
  unfold bundleFeeds.
  replace (jsstring_eqb (js "js") (js "css")) with false by reflexivity.
  rewrite Hbundle. cbv zeta.
  change (createHashFromContent bytes ++ js "." ++ js "js")
    with (createHashFromContent bytes ++ js ".js").
  rewrite (upload_retry_success St sink 3
             (createHashFromContent bytes ++ js ".js") bytes w1 [] (store w1)
             st2 eq_refl Hset (Forall_nil _) (Nat.le_0_l 3)).
  split; [reflexivity | exact Hfile].
Qed.

(** The sink in memory with the two feeds, the fetch of the second one
    served first. *)
Lemma bundleAndUpload_end_to_end_witness :
  exists w',
    bundleAndUpload Examples.join_sources Examples.broken_bundler
      Examples.SinkMem (js "js") (IdArray [js "feedA.json"; js "feedB.json"])
      (js "http://host/bundle/") [1; 0] (Examples.world Examples.two_feeds)
    = Some (inr {| file := js "93e5a786a221e591be9f93aea929782e23590c4ecfa423f59a6c9c08f0e3a4bf.js";
                   uri := js "http://host/bundle/93e5a786a221e591be9f93aea929782e23590c4ecfa423f59a6c9c08f0e3a4bf.js" |},
            w')
    /\ Examples.lookup
         (js "93e5a786a221e591be9f93aea929782e23590c4ecfa423f59a6c9c08f0e3a4bf.js")
         (store w')
       = Some (js "var a=1;var b=2;").
Proof.
  destruct (bundleAndUpload_end_to_end Examples.join_sources
              Examples.broken_bundler Examples.Db Examples.SinkMem
              (fun db file => Examples.lookup file db)
              (js "feedA.json") (js "feedB.json") Examples.feedA Examples.feedB
              (VObject [(js "id", VString (js "a"));
                        (js "source", VString (js "var a=1"))])
              (VObject [(js "id", VString (js "b"));
                        (js "source", VString (js "var b=2"))])
              (js "var a=1;var b=2;") (js "http://host/bundle/") [1; 0]
              (Examples.world Examples.two_feeds) SinkMem_reliable)
    as [H [w' [HH [_ [_ [Hrun Hstored]]]]]];
    try (vm_compute; reflexivity).
  - simpl. auto.
  - simpl. auto.
  - assert (Hhash : H = js "93e5a786a221e591be9f93aea929782e23590c4ecfa423f59a6c9c08f0e3a4bf")
      by (rewrite HH; vm_compute; reflexivity).
    subst H. rewrite Hhash in Hrun, Hstored. exists w'.
    split; [exact Hrun | exact Hstored].
Defined.

(** ** parseBody and validateFeeds *)

Lemma skip_ws_blank s :
  Forall (fun c => JSON.is_ws c = true) s -> JSON.skip_ws s = [].
Proof.
  induction 1 as [|c s Hc _ IH]; simpl; auto. now rewrite Hc.
Qed.

(** Blank text is not JSON. *)
Lemma JSON_parse_blank s :
  Forall (fun c => JSON.is_ws c = true) s ->
  JSON.parse s = inl JSON.syntax_error.
Proof.
  intros H. unfold JSON.parse. cbn [JSON.value].
  now rewrite (skip_ws_blank s H).
Qed.

Lemma ids_schema :
  schemas.ids
  = {| Joi.array_required := true;
       Joi.array_items := [ {| Joi.string_required := true |} ];
       Joi.array_sparse := true;
       Joi.array_min := Some 1;
       Joi.array_max := Some 100 |}.
Proof. reflexivity. Qed.

Lemma accepts_required_string v :
  Joi.accepts {| Joi.string_required := true |} v = true <-> nonempty_string v.
Proof.
  unfold Joi.accepts, nonempty_string.
  destruct v as [| |b|n|s|vs|ms]; simpl;
    try (split; [discriminate | intros [s' [H _]]; discriminate]).
  destruct s as [|c s]; simpl.
  - split; [discriminate | intros [s' [H Hne]]]. injection H as <-. congruence.
  - split; [|reflexivity]. intros _. exists (c :: s). split; [reflexivity|discriminate].
Qed.

Lemma accepts_required_string_false v :
  Joi.accepts {| Joi.string_required := true |} v = false <-> ~ nonempty_string v.
Proof.
  rewrite <- accepts_required_string.
  destruct (Joi.accepts _ v); split; congruence.
Qed.

(** Once the required item is found, every item has to be a non-empty
    string. *)
Lemma check_items_ids_rest vs :
  Joi.check_items schemas.ids [] vs = None <-> Forall nonempty_string vs.
Proof.
  induction vs as [|v vs IH].
  - simpl. split; auto.
  - cbn [Joi.check_items Joi.take_required]. rewrite ids_schema.
    cbn [Joi.array_sparse Joi.array_items existsb].
    rewrite <- ids_schema, orb_false_r.
    destruct (Joi.accepts {| Joi.string_required := true |} v) eqn:Hv.
    + apply accepts_required_string in Hv.
      assert (Hgo : Joi.check_items schemas.ids [] vs = None
                    <-> Forall nonempty_string (v :: vs)).
      { rewrite IH. split; [now constructor | now inversion 1]. }
      destruct v; exact Hgo.
    + apply accepts_required_string_false in Hv.
      assert (Hstop : forall e : JsError,
                 Some e = None <-> Forall nonempty_string (v :: vs)).
      { intros e. split; [discriminate | inversion 1; contradiction]. }
      destruct v; apply Hstop.
Qed.

(** Until then, an item that is one is the required item. *)
Lemma check_items_ids vs :
  Joi.check_items schemas.ids [ {| Joi.string_required := true |} ] vs = None
  <-> vs <> [] /\ Forall nonempty_string vs.
Proof.
  destruct vs as [|v vs].
  - simpl. split; [discriminate | intros [H _]; congruence].
  - cbn [Joi.check_items Joi.take_required]. rewrite ids_schema.
    cbn [Joi.array_sparse Joi.array_items existsb].
    rewrite <- ids_schema, orb_false_r.
    destruct (Joi.accepts {| Joi.string_required := true |} v) eqn:Hv.
    + apply accepts_required_string in Hv.
      assert (Hgo : Joi.check_items schemas.ids [] vs = None
                    <-> v :: vs <> [] /\ Forall nonempty_string (v :: vs)).
      { rewrite check_items_ids_rest. split.
        - intros H. split; [discriminate | now constructor].
        - intros [_ H]. now inversion H. }
      destruct v; exact Hgo.
    + apply accepts_required_string_false in Hv.
      assert (Hstop : forall e : JsError,
                 Some e = None
                 <-> v :: vs <> [] /\ Forall nonempty_string (v :: vs)).
      { intros e. split; [discriminate | intros [_ H]; inversion H; contradiction]. }
      destruct v; apply Hstop.
Qed.

(** The arrays the schema [ids] accepts. *)
Lemma validate_ids_array vs :
  Joi.value (Joi.validate schemas.ids (VArray vs)) = VArray vs
  /\ (Joi.error (Joi.validate schemas.ids (VArray vs)) = None
      <-> 1 <= List.length vs <= 100 /\ Forall nonempty_string vs).
Proof.
  unfold Joi.validate.
  change (filter Joi.string_required (Joi.array_items schemas.ids))
    with [ {| Joi.string_required := true |} ].
  pose proof (check_items_ids vs) as Hitems.
  destruct (Joi.check_items schemas.ids
              [ {| Joi.string_required := true |} ] vs) as [e|].
  - cbn [Joi.error Joi.value]. split; [reflexivity|].
    split; [discriminate|]. intros [[Hmin _] Hall].
    apply Hitems. split; auto. intros ->. simpl in Hmin. lia.
  - destruct Hitems as [Hitems _]. destruct (Hitems eq_refl) as [Hne Hall].
    unfold Joi.check_min, Joi.check_max.
    change (Joi.array_min schemas.ids) with (Some 1).
    change (Joi.array_max schemas.ids) with (Some 100).
    cbv beta iota.
    assert (Hge : (List.length vs <? 1) = false).
    { apply Nat.ltb_ge. destruct vs; [congruence | simpl; lia]. }
    rewrite Hge. apply Nat.ltb_ge in Hge.
    destruct (100 <? List.length vs) eqn:Hmax;
      cbn [Joi.error Joi.value]; (split; [reflexivity|]).
    + apply Nat.ltb_lt in Hmax.
      split; [discriminate | intros [[_ H] _]; lia].
    + apply Nat.ltb_ge in Hmax. split; auto.
Qed.

(** Whatever [ids] accepts comes out as an array of 1 to 100 non-empty
    strings. *)
Lemma validate_ids_accepts v :
  Joi.error (Joi.validate schemas.ids v) = None ->
  exists vs,
    Joi.value (Joi.validate schemas.ids v) = VArray vs
    /\ 1 <= List.length vs <= 100 /\ Forall nonempty_string vs.
Proof.
  assert (Harray : forall vs,
             Joi.error (Joi.validate schemas.ids (VArray vs)) = None ->
             exists vs',
               Joi.value (Joi.validate schemas.ids (VArray vs)) = VArray vs'
               /\ 1 <= List.length vs' <= 100 /\ Forall nonempty_string vs').
  { intros vs H. destruct (validate_ids_array vs) as [Hv Hiff].
    exists vs. split; [exact Hv | now apply Hiff]. }
  destruct v as [| |b|n|text|vs|ms]; try (intros H; discriminate H).
  - unfold Joi.validate at 1 2. destruct (JSON.parse text) as [e|p].
    + intros H; discriminate H.
    + destruct p as [| |b|n|text'|vs|ms]; try (intros H; discriminate H).
      apply Harray.
  - apply Harray.
Qed.

(** C6.  Input validation.  [parseBody] rejects an empty or blank request
    body, and [validateFeeds] rejects an empty list of ids and a list with
    an entry that is not a string; every rejection of either is a Boom
    error with status 400.  A list is accepted, and returned as it is,
    exactly when it has 1 to 100 entries and each of them is a non-empty
    string; and whatever else [validateFeeds] accepts comes out as such a
    list.  Both are functions of the request alone: they are not handed the
    sink, so nothing of this touches it. *)
Theorem input_validation :
  (forall req,
     Forall (fun c => JSON.is_ws c = true) req ->
     exists b, parseBody req = inl b /\ statusCode b = 400%N)
  /\ (forall req b, parseBody req = inl b -> statusCode b = 400%N)
  /\ (exists b, validateFeeds (VArray []) = inl b /\ statusCode b = 400%N)
  /\ (forall vs v,
        In v vs -> (forall s, v <> VString s) ->
        exists b, validateFeeds (VArray vs) = inl b /\ statusCode b = 400%N)
  /\ (forall v b, validateFeeds v = inl b -> statusCode b = 400%N)
  /\ (forall vs,
        validateFeeds (VArray vs) = inr (VArray vs)
        <-> 1 <= List.length vs <= 100 /\ Forall nonempty_string vs)
  /\ (forall vs v', validateFeeds (VArray vs) = inr v' -> v' = VArray vs)
  /\ (forall v v',
        validateFeeds v = inr v' ->
        exists vs,
          v' = VArray vs
          /\ 1 <= List.length vs <= 100 /\ Forall nonempty_string vs).
Proof.
  assert (Hreject : forall v,
             Joi.error (Joi.validate schemas.ids v) <> None ->
             exists b, validateFeeds v = inl b /\ statusCode b = 400%N).
  { intros v H. unfold validateFeeds.
    destruct (Joi.error (Joi.validate schemas.ids v)) as [e|]; [|congruence].
    eexists. split; reflexivity. }
  assert (Haccept : forall v v',
             validateFeeds v = inr v' <->
             Joi.error (Joi.validate schemas.ids v) = None
             /\ v' = Joi.value (Joi.validate schemas.ids v)).
  { intros v v'. unfold validateFeeds.
    destruct (Joi.error (Joi.validate schemas.ids v)) as [e|].
    - split; [discriminate | intros [H _]; discriminate].
    - split; [intros H; injection H as <-; auto | intros [_ ->]; reflexivity]. }
  split; [|split; [|split; [|split; [|split; [|split; [|split]]]]]].
  - intros req Hblank. unfold parseBody. rewrite (JSON_parse_blank req Hblank).
    eexists. split; reflexivity.
  - intros req b H. unfold parseBody in H.
    destruct (JSON.parse req); [|discriminate]. now injection H as <-.
  - apply Hreject. destruct (validate_ids_array []) as [_ Hiff].
    intros H. apply Hiff in H as [[H _] _]. simpl in H. lia.
  - intros vs v Hin Hns. apply Hreject.
    destruct (validate_ids_array vs) as [_ Hiff].
    intros H. apply Hiff in H as [_ Hall].
    rewrite Forall_forall in Hall. destruct (Hall v Hin) as [s [Hs _]].
    now apply (Hns s).
  - intros v b H. unfold validateFeeds in H.
    destruct (Joi.error (Joi.validate schemas.ids v)); [|discriminate].
    now injection H as <-.
  - intros vs. rewrite Haccept. destruct (validate_ids_array vs) as [Hv Hiff].
    rewrite Hv, Hiff. split; [now intros [H _] | now split].
  - intros vs v' H. apply Haccept in H as [_ ->].
    apply (validate_ids_array vs).
  - intros v v' H. apply Haccept in H as [Herr ->].
    now apply validate_ids_accepts.
Qed.

(** A blank body, an empty list and a list with a number in it are
    rejected with status 400; a list of two ids is accepted. *)
Lemma input_validation_witness :
  (exists b, parseBody (js "  ") = inl b /\ statusCode b = 400%N)
  /\ (exists b,
        validateFeeds (VArray [VString (js "a.json"); VNumber (js "1")])
        = inl b
        /\ statusCode b = 400%N)
  /\ validateFeeds (VArray [VString (js "a.json"); VString (js "b.json")])
     = inr (VArray [VString (js "a.json"); VString (js "b.json")]).
Proof.
  destruct input_validation as [Hblank [_ [_ [Hentry [_ [Hlist _]]]]]].
  split; [|split].
  - apply Hblank. repeat constructor.
  - apply (Hentry _ (VNumber (js "1"))); [right; now left | discriminate].
  - apply Hlist. split; [simpl; lia|].
    repeat constructor; eexists; (split; [reflexivity | discriminate]).
Defined.

(** ** Tests of the repository, replayed on the sink in memory *)

(** '/bundle/js with invalid bundle reference' expects 404. *)
Example bundle_with_invalid_reference :
  exists b w',
    bundleAndUpload Examples.join_sources Examples.join_sources
      Examples.SinkMem (js "js") (IdArray [js "completelyfake.json"])
      (js "http://host/bundle/") [0] (Examples.world [])
    = Some (inl (Classified b), w')
    /\ statusCode b = 404%N
    /\ calls w'
       = [GetCall 0 (js "completelyfake.json")
            (inl (new_Error (js "No file with name " ++ [dquote]
                             ++ js "completelyfake.json" ++ [dquote])))].
Proof.
  eexists. eexists. split; [vm_compute; reflexivity|]. split; reflexivity.
Qed.

(** '/bundle/js with multiple invalid bundle reference' expects 404,
    whichever of the two fetches fails first. *)
Example bundle_with_two_invalid_references :
  forall sched, In sched [[0; 1]; [1; 0]; [0]; [1]] ->
    exists b w',
      bundleAndUpload Examples.join_sources Examples.join_sources
        Examples.SinkMem (js "js")
        (IdArray [js "completelyfake.json"; js "alsocompletelyfake.json"])
        (js "http://host/bundle/") sched (Examples.world [])
      = Some (inl (Classified b), w')
      /\ statusCode b = 404%N.
Proof.
  intros sched [<-|[<-|[<-|[<-|[]]]]];
    (eexists; eexists; split; [vm_compute; reflexivity | reflexivity]).
Qed.

(** 'invalid json response should error correctly' expects 500 and a
    message about parsing. *)
Example bundle_with_invalid_json :
  exists b w',
    bundleAndUpload Examples.join_sources Examples.join_sources
      Examples.SinkMem (js "js") (IdArray [js "invalid.json"])
      (js "http://host/bundle/") [0]
      (Examples.world
         [(js "invalid.json",
           js "{ " ++ [dquote] ++ js "foo" ++ [dquote] ++ js ": " ++ [dquote]
           ++ js "bar" ++ [dquote])])
    = Some (inl (Classified b), w')
    /\ statusCode b = 500%N
    /\ starts_with (js "Unable to parse 1 or more feeds as JSON")
         (bmessage b) = true
    /\ set_responses (calls w') = [].
Proof.
  eexists. eexists. split; [vm_compute; reflexivity|].
  split; [reflexivity|]. split; reflexivity.
Qed.

(** '/bundle/js with body as empty array' and '/bundle/js with empty
    body' expect 400. *)
Example bundle_with_empty_input :
  (exists b, validateFeeds (VArray []) = inl b /\ statusCode b = 400%N)
  /\ (exists b, parseBody [] = inl b /\ statusCode b = 400%N).
Proof.
  split; eexists; (split; [vm_compute; reflexivity | reflexivity]).
Qed.

(** The feeds come back in the order of the ids, whatever the order of the
    turns. *)
Example fetch_keeps_order :
  forall sched, In sched [[0; 1]; [1; 0]; [1; 1; 0; 0]] ->
    exists w',
      fetchFeeds Examples.SinkMem [js "feedA.json"; js "feedB.json"] 3 sched
        (Examples.world Examples.two_feeds)
      = Some (inr [Examples.feedA; Examples.feedB], w').
Proof.
  intros sched [<-|[<-|[<-|[]]]]; eexists; vm_compute; reflexivity.
Qed.

(** The status for some messages: a missing [.json] file, a missing [.js]
    file, a message that merely quotes such a sentence, and a name with a
    line feed in it. *)
Example fetch_status_examples :
  fetch_status (new_Error (js "File " ++ [dquote] ++ js "a.json" ++ [dquote]
                           ++ js " not found.")) = 404%N
  /\ fetch_status (new_Error (js "File " ++ [dquote] ++ js "a.js" ++ [dquote]
                              ++ js " not found.")) = 500%N
  /\ fetch_status (new_Error (js "ETIMEDOUT after File " ++ [dquote]
                              ++ js "b.json" ++ [dquote]
                              ++ js " not found upstream")) = 404%N
  /\ fetch_status (new_Error (js "File " ++ [dquote] ++ js "a" ++ [10%N]
                              ++ js ".json" ++ [dquote] ++ js " not found."))
     = 500%N.
Proof. repeat split; vm_compute; reflexivity. Qed.

(** A sink that fails with an error of its own wording is retried until
    the budget is used up, and the wording decides the status. *)
Example transient_failure_with_not_found_wording :
  exists b w',
    fetchFeeds
      {| get := fun file (st : unit) =>
           (inl (new_Error (js "upstream says: File " ++ [dquote] ++ file
                            ++ [dquote] ++ js " not found")), st);
         set := fun _ _ st => (inr tt, st) |}
      [js "a.json"] 2 [0; 0; 0] (Examples.world tt)
    = Some (inl b, w')
    /\ List.length (calls w') = 3
    /\ statusCode b = 404%N.
Proof.
  eexists. eexists. split; [vm_compute; reflexivity|]. split; reflexivity.
Qed.

(** * Further properties of the pipeline *)

(** ** What a run shows of each fetch *)

Lemma fetch_history_new retries file :
  fetch_history retries file [] new_operation.
Proof.
  exists []. split; [constructor|]. split; [apply Nat.le_0_l|].
  cbn. auto.
Qed.

(** An attempt of a pending fetch adds the answer of the sink to its
    history. *)
Lemma fetch_history_settle retries file rs op res :
  settled op = Pending ->
  fetch_history retries file rs op ->
  fetch_history retries file (rs ++ [res])
    (pretry_settle retries op (run_outcome file res)).
Proof.
  intros Hp [errs [Htr [Hlen Hop]]]. rewrite Hp in Hop.
  destruct Hop as [-> [Herrs Hatt]].
  destruct res as [e|raw].
  - unfold run_outcome.
    destruct (includes (js "No file with name") (message e)) eqn:Hnf.
    + exists errs. split; [exact Htr|]. split; [exact Hlen|].
      cbn [pretry_settle settled attempts]. exists e.
      split; [reflexivity|]. split; [now rewrite Hatt|]. left. now split.
    + unfold pretry_settle. destruct (is_TypeError e) eqn:Hte.
      * exists errs. split; [exact Htr|]. split; [exact Hlen|].
        cbn [settled attempts]. exists e.
        split; [reflexivity|]. split; [now rewrite Hatt|].
        right. left. now repeat split.
      * assert (Htrans : transient_get e) by now split.
        rewrite Herrs.
        destruct (List.length errs <? retries) eqn:Hlt.
        -- apply Nat.ltb_lt in Hlt. exists (errs ++ [e]).
           split; [apply Forall_app; split; auto|].
           split; [rewrite length_app; simpl; lia|].
           cbn [settled errors attempts]. rewrite map_app, length_app.
           simpl. repeat split; lia.
        -- apply Nat.ltb_ge in Hlt. exists errs.
           split; [exact Htr|]. split; [exact Hlen|].
           cbn [settled attempts]. exists e.
           split; [reflexivity|]. split; [now rewrite Hatt|].
           right. right. split; [exact Htrans|]. split; [lia|].
           destruct (mainError (errs ++ [e])) as [m|] eqn:Hm.
           ++ now apply mainError_In.
           ++ apply in_or_app. right. now left.
  - exists errs. split; [exact Htr|]. split; [exact Hlen|].
    cbn [run_outcome pretry_settle settled attempts].
    split; [reflexivity | now rewrite Hatt].
Qed.

Section FetchHistory.

Variable St : Type.
Variable sink : Sink St.
Variable retries : nat.
Variable ids : list jsstring.

(** Along a run every call is a [get] by one of the fetches for its own
    file, and the history of every fetch grows by the answers to its
    calls. *)
Lemma fetch_steps_history sched :
  forall st w st' w' (before : nat -> list (JsError + jsstring)),
    fetch_steps sink retries ids sched (st, w) = (st', w') ->
    (forall i file op,
       nth_error ids i = Some file -> nth_error (ops st) i = Some op ->
       fetch_history retries file (before i) op) ->
    exists delta,
      calls w' = calls w ++ delta
      /\ Forall (get_of ids) delta
      /\ forall i file op,
           nth_error ids i = Some file -> nth_error (ops st') i = Some op ->
           fetch_history retries file (before i ++ responses i delta) op.
Proof.
  induction sched as [|i0 sched IH]; intros st w st' w' before Hrun Hbefore.
  - simpl in Hrun. injection Hrun as <- <-. exists [].
    rewrite app_nil_r. split; [reflexivity|]. split; [constructor|].
    intros i file op Hid Hop. cbn [responses]. rewrite app_nil_r. auto.
  - cbn [fetch_steps fold_left] in Hrun.
    fold (fetch_steps sink retries ids sched) in Hrun.
    destruct (fetch_step_cases St sink retries ids i0 st w)
      as [[Hidle _] | [file0 [op0 [res [stx [Hid0 [Hop0 [Hp Hget]]]]]]]].
    + rewrite Hidle in Hrun. now apply (IH st w st' w' before).
    + rewrite (fetch_step_attempt St sink retries ids i0 st w file0 op0 res stx)
        in Hrun by assumption.
      cbv zeta in Hrun.
      apply (IH _ _ _ _
               (fun i => if Nat.eqb i i0 then before i ++ [res] else before i))
        in Hrun.
      * destruct Hrun as [delta [Hcalls [Hgets Hhist]]].
        cbn [calls] in Hcalls.
        exists (GetCall i0 file0 res :: delta).
        split; [now rewrite Hcalls, <- app_assoc|].
        split; [constructor; [now exists i0, file0, res | exact Hgets]|].
        intros i file op Hid Hop. specialize (Hhist i file op Hid Hop).
        cbn [responses].
        destruct (Nat.eqb i i0); [now rewrite <- app_assoc in Hhist | exact Hhist].
      * intros i file op Hid Hop. cbn [ops] in Hop.
        destruct (Nat.eqb_spec i i0) as [->|Hne].
        -- rewrite (nth_error_update_nth_eq i0 _ op0 (ops st) Hop0) in Hop.
           injection Hop as <-. assert (file = file0) by congruence. subst file.
           apply fetch_history_settle; auto.
        -- rewrite nth_error_update_nth_neq in Hop by congruence. auto.
Qed.

(** A run from the start. *)
Lemma fetch_run_history sched w st' w' :
  fetch_steps sink retries ids sched (fetch_init ids, w) = (st', w') ->
  Forall (get_of ids) (new_calls w w')
  /\ List.length (ops st') = List.length ids
  /\ all_agrees st'
  /\ forall i file op,
       nth_error ids i = Some file -> nth_error (ops st') i = Some op ->
       fetch_history retries file (responses i (new_calls w w')) op.
Proof.
  intros Hrun.
  destruct (fetch_steps_history sched _ _ _ _ (fun _ => []) Hrun)
    as [delta [Hcalls [Hgets Hhist]]].
  { intros i file op Hid Hop.
    rewrite (fetch_init_nth ids i file Hid) in Hop. injection Hop as <-.
    apply fetch_history_new. }
  rewrite (new_calls_app w w' delta Hcalls).
  destruct (fetch_steps_replay St sink retries ids sched _ _ _ _ Hrun)
    as [_ [_ [Hlen _]]].
  rewrite fetch_init_length in Hlen.
  destruct (fetch_run_replay St sink retries ids sched w st' w' Hrun)
    as [Hagree _].
  repeat split; auto.
Qed.

End FetchHistory.

Lemma responses_in_calls ids i file res cs :
  Forall (get_of ids) cs ->
  nth_error ids i = Some file ->
  In res (responses i cs) ->
  In (GetCall i file res) cs.
Proof.
  intros Hgets Hid. induction Hgets as [|c cs [j [f [r [-> Hj]]]] _ IH];
    cbn [responses]; [intros []|].
  destruct (Nat.eqb_spec i j) as [->|Hne].
  - intros [<-|Hin]; [left; congruence | right; auto].
  - intros Hin. right. auto.
Qed.

Lemma responses_out_of_range ids i cs :
  Forall (get_of ids) cs ->
  nth_error ids i = None ->
  responses i cs = [].
Proof.
  intros Hgets Hid. induction Hgets as [|c cs [j [f [r [-> Hj]]]] _ IH];
    cbn [responses]; [reflexivity|].
  destruct (Nat.eqb_spec i j) as [->|Hne]; [congruence | exact IH].
Qed.

Lemma set_responses_of_gets ids cs :
  Forall (get_of ids) cs -> set_responses cs = [].
Proof.
  induction 1 as [|c cs [j [f [r [-> Hj]]]] _ IH]; cbn [set_responses]; auto.
Qed.

Lemma fetch_history_length retries file rs op :
  fetch_history retries file rs op -> List.length rs <= S retries.
Proof.
  intros [errs [_ [Hlen Hop]]]. destruct (settled op) as [|raw|e].
  - destruct Hop as [-> _]. rewrite length_map. lia.
  - destruct Hop as [-> _]. rewrite length_app, length_map. simpl. lia.
  - destruct Hop as [last [-> _]]. rewrite length_app, length_map. simpl. lia.
Qed.

(** X1.  Provenance and order.  When [fetchFeeds] returns, it returns one
    feed for each id, in the order of the ids, and the feed at the place of
    an id is what [sink.get] resolved with for that id, at the last call
    for it; the calls for it before that one all failed, at most [retries]
    of them, each with a failure that is retried. *)
Theorem fetchFeeds_returns_what_the_sink_gave :
  forall (St : Type) (sink : Sink St) (ids : list jsstring) (retries : nat)
         (sched : list nat) (w w' : World St) (raws : list jsstring),
    fetchFeeds sink ids retries sched w = Some (inr raws, w') ->
    List.length raws = List.length ids
    /\ forall i file,
         nth_error ids i = Some file ->
         exists errs raw,
           nth_error raws i = Some raw
           /\ responses i (new_calls w w') = map inl errs ++ [inr raw]
           /\ In (GetCall i file (inr raw)) (new_calls w w')
           /\ Forall transient_get errs
           /\ List.length errs <= retries.
Proof.
  intros St sink ids retries sched w w' raws Hfetch.
  destruct (fetch_steps sink retries ids sched (fetch_init ids, w))
    as [st2 w2] eqn:Hrun.
  rewrite (fetchFeeds_unfold St sink retries ids sched w st2 w2 Hrun) in Hfetch.
  destruct (fetch_run_history St sink retries ids sched w st2 w2 Hrun)
    as [Hgets [Hlen [Hagree Hhist]]].
  unfold all_agrees in Hagree.
  destruct (all st2) as [|vs|e]; try discriminate.
  injection Hfetch as <- <-.
  split.
  - rewrite (all_fulfilled_length _ _ Hagree). exact Hlen.
  - intros i file Hid.
    destruct (nth_error (ops st2) i) as [op|] eqn:Hop.
    2:{ apply nth_error_None in Hop.
        assert (i < List.length ids) by (apply nth_error_Some; congruence).
        lia. }
    destruct (all_fulfilled_nth _ _ _ _ Hagree Hop) as [raw [Hraw Hnth]].
    destruct (Hhist i file op Hid Hop) as [errs [Htr [Hle Hrs]]].
    rewrite Hraw in Hrs. destruct Hrs as [Hrs _].
    exists errs, raw. split; [exact Hnth|]. split; [exact Hrs|].
    split; [|now split].
    apply (responses_in_calls ids); auto.
    rewrite Hrs. apply in_or_app. right. now left.
Qed.

Lemma fetchFeeds_returns_what_the_sink_gave_witness :
  List.length [Examples.feedB; Examples.feedA] = 2
  /\ forall i file,
       nth_error [js "feedB.json"; js "feedA.json"] i = Some file ->
       exists errs raw,
         nth_error [Examples.feedB; Examples.feedA] i = Some raw
         /\ responses i
              (new_calls (Examples.world (1, Examples.two_feeds))
                 {| store := (0, Examples.two_feeds);
                    calls := [GetCall 1 (js "feedA.json") (inl Examples.timeout);
                              GetCall 1 (js "feedA.json") (inr Examples.feedA);
                              GetCall 0 (js "feedB.json") (inr Examples.feedB)] |})
            = map inl errs ++ [inr raw]
         /\ In (GetCall i file (inr raw))
              (new_calls (Examples.world (1, Examples.two_feeds))
                 {| store := (0, Examples.two_feeds);
                    calls := [GetCall 1 (js "feedA.json") (inl Examples.timeout);
                              GetCall 1 (js "feedA.json") (inr Examples.feedA);
                              GetCall 0 (js "feedB.json") (inr Examples.feedB)] |})
         /\ Forall transient_get errs
         /\ List.length errs <= 3.
Proof.
  apply (fetchFeeds_returns_what_the_sink_gave (nat * Examples.Db)
           Examples.SinkFlaky [js "feedB.json"; js "feedA.json"] 3 [1; 1; 0]
           (Examples.world (1, Examples.two_feeds))).
  vm_compute. reflexivity.
Defined.

(** X2.  No failure without a cause.  When [fetchFeeds] fails, one of the
    fetches got, after at most [retries] transient failures, a failure of
    [sink.get] that ended it: one whose message includes 'No file with
    name' (the error thrown is then 'File "<id>" not found.'), a
    [TypeError] (thrown as it is), or the transient failure number
    [retries + 1] (the error thrown is then one of the failures of that
    fetch). *)
Theorem fetchFeeds_fails_for_a_cause :
  forall (St : Type) (sink : Sink St) (ids : list jsstring) (retries : nat)
         (sched : list nat) (w w' : World St) (b : BoomError),
    fetchFeeds sink ids retries sched w = Some (inl b, w') ->
    exists i file errs last,
      nth_error ids i = Some file
      /\ responses i (new_calls w w') = map inl errs ++ [inl last]
      /\ Forall transient_get errs
      /\ List.length errs <= retries
      /\ ((includes (js "No file with name") (message last) = true
           /\ original b = new_Error (js "File " ++ [dquote] ++ file
                                      ++ [dquote] ++ js " not found."))
          \/ (includes (js "No file with name") (message last) = false
              /\ is_TypeError last = true /\ original b = last)
          \/ (transient_get last
              /\ List.length errs = retries
              /\ In (original b) (errs ++ [last]))).
Proof.
  intros St sink ids retries sched w w' b Hfetch.
  destruct (fetch_steps sink retries ids sched (fetch_init ids, w))
    as [st2 w2] eqn:Hrun.
  rewrite (fetchFeeds_unfold St sink retries ids sched w st2 w2 Hrun) in Hfetch.
  destruct (fetch_run_history St sink retries ids sched w st2 w2 Hrun)
    as [Hgets [Hlen [Hagree Hhist]]].
  unfold all_agrees in Hagree.
  destruct (all st2) as [|vs|e]; try discriminate.
  injection Hfetch as <- <-. cbn [original boomify].
  destruct Hagree as [i [op [Hop Hrej]]].
  destruct (nth_error ids i) as [file|] eqn:Hid.
  2:{ apply nth_error_None in Hid.
      assert (i < List.length (ops st2)) by (apply nth_error_Some; congruence).
      lia. }
  destruct (Hhist i file op Hid Hop) as [errs [Htr [Hle Hrs]]].
  rewrite Hrej in Hrs. destruct Hrs as [last [Hrs [_ Hcause]]].
  exists i, file, errs, last. repeat split; auto.
Qed.

Lemma fetchFeeds_fails_for_a_cause_witness :
  exists i file errs last,
    nth_error [js "feedA.json"] i = Some file
    /\ responses i
         (new_calls (Examples.world (2, Examples.two_feeds))
            {| store := (0, Examples.two_feeds);
               calls := [GetCall 0 (js "feedA.json") (inl Examples.timeout);
                         GetCall 0 (js "feedA.json") (inl Examples.timeout)] |})
       = map inl errs ++ [inl last]
    /\ Forall transient_get errs
    /\ List.length errs <= 1
    /\ ((includes (js "No file with name") (message last) = true
         /\ Examples.timeout
            = new_Error (js "File " ++ [dquote] ++ file ++ [dquote]
                         ++ js " not found."))
        \/ (includes (js "No file with name") (message last) = false
            /\ is_TypeError last = true /\ Examples.timeout = last)
        \/ (transient_get last
            /\ List.length errs = 1
            /\ In Examples.timeout (errs ++ [last]))).
Proof.
  apply (fetchFeeds_fails_for_a_cause (nat * Examples.Db) Examples.SinkFlaky
           [js "feedA.json"] 1 [0; 0] (Examples.world (2, Examples.two_feeds))
           _ (boomify Examples.timeout (Some 500%N)
                (js "Unable to fetch 1 or more feeds from storage."))).
  vm_compute. reflexivity.
Defined.

(** ** How many calls a run makes *)

Lemma calls_split n cs :
  List.length cs
  = List.length (responses n cs) + List.length (calls_of_others n cs).
Proof.
  induction cs as [|[j f r|f c r] cs IH];
    cbn [responses calls_of_others filter]; auto;
    fold (calls_of_others n cs).
  - destruct (Nat.eqb n j); cbn [negb List.length]; lia.
  - cbn [List.length]. lia.
Qed.

Lemma responses_of_others n i cs :
  i <> n -> responses i (calls_of_others n cs) = responses i cs.
Proof.
  intros Hne.
  induction cs as [|[j f r|f c r] cs IH];
    cbn [responses calls_of_others filter]; auto;
    fold (calls_of_others n cs).
  destruct (Nat.eqb_spec n j) as [<-|Hnj]; cbn [negb].
  - destruct (Nat.eqb_spec i n); [contradiction | exact IH].
  - cbn [responses]. destruct (Nat.eqb i j); now rewrite IH.
Qed.

Lemma get_of_others ids id cs :
  Forall (get_of (ids ++ [id])) cs ->
  Forall (get_of ids) (calls_of_others (List.length ids) cs).
Proof.
  induction 1 as [|c cs [j [f [r [-> Hj]]]] _ IH];
    cbn [calls_of_others filter]; [constructor|].
  fold (calls_of_others (List.length ids) cs).
  destruct (Nat.eqb_spec (List.length ids) j) as [<-|Hne]; cbn [negb]; auto.
  constructor; [|exact IH]. exists j, f, r. split; [reflexivity|].
  assert (Hlt : j < List.length (ids ++ [id]))
    by (apply nth_error_Some; congruence).
  rewrite length_app in Hlt. simpl in Hlt.
  rewrite nth_error_app1 in Hj by lia. exact Hj.
Qed.

(** Calls that are all [get] calls of the fetches of [ids], at most [k] by
    each fetch, are no more than [k] times the number of ids. *)
Lemma calls_bound k ids : forall cs,
  Forall (get_of ids) cs ->
  (forall i, List.length (responses i cs) <= k) ->
  List.length cs <= List.length ids * k.
Proof.
  induction ids as [|id ids IH] using rev_ind; intros cs Hgets Hk.
  - destruct Hgets as [|c cs [j [f [r [_ Hj]]]] _]; [simpl; lia|].
    destruct j; discriminate.
  - rewrite (calls_split (List.length ids) cs), length_app. simpl.
    specialize (IH (calls_of_others (List.length ids) cs)
                   (get_of_others ids id cs Hgets)).
    assert (Hrest : List.length (calls_of_others (List.length ids) cs)
                    <= List.length ids * k).
    { apply IH. intros i.
      destruct (Nat.eq_dec i (List.length ids)) as [->|Hne].
      - rewrite (responses_out_of_range ids);
          [simpl; lia | now apply get_of_others with (id := id) |].
        apply nth_error_None. lia.
      - rewrite responses_of_others by assumption. apply Hk. }
    specialize (Hk (List.length ids)). lia.
Qed.

(** X3.  The calls of a run.  Whatever [fetchFeeds] returns or throws, the
    calls it made come after the earlier ones, which it leaves as they
    were; each is a [sink.get] for one of the ids, made by the fetch of that
    id; it never calls [sink.set]; no fetch calls more than [retries + 1]
    times; so there are at most [(retries + 1) * ids.length] calls. *)
Theorem fetchFeeds_call_discipline :
  forall (St : Type) (sink : Sink St) (ids : list jsstring) (retries : nat)
         (sched : list nat) (w w' : World St) (r : BoomError + list jsstring),
    fetchFeeds sink ids retries sched w = Some (r, w') ->
    calls w' = calls w ++ new_calls w w'
    /\ Forall (get_of ids) (new_calls w w')
    /\ set_responses (new_calls w w') = []
    /\ (forall i, List.length (responses i (new_calls w w')) <= S retries)
    /\ List.length (new_calls w w') <= List.length ids * S retries.
Proof.
  intros St sink ids retries sched w w' r Hfetch.
  destruct (fetch_steps sink retries ids sched (fetch_init ids, w))
    as [st2 w2] eqn:Hrun.
  rewrite (fetchFeeds_unfold St sink retries ids sched w st2 w2 Hrun) in Hfetch.
  assert (w2 = w') as ->.
  { destruct (all st2); [discriminate | |]; now injection Hfetch. }
  clear Hfetch.
  destruct (fetch_run_history St sink retries ids sched w st2 w' Hrun)
    as [Hgets [Hlen [_ Hhist]]].
  destruct (fetch_steps_replay St sink retries ids sched _ _ _ _ Hrun)
    as [delta [Hcalls _]].
  assert (Hbound : forall i,
             List.length (responses i (new_calls w w')) <= S retries).
  { intros i. destruct (nth_error ids i) as [file|] eqn:Hid.
    - destruct (nth_error (ops st2) i) as [op|] eqn:Hop.
      + apply (fetch_history_length retries file _ op). now apply Hhist.
      + apply nth_error_None in Hop.
        assert (i < List.length ids) by (apply nth_error_Some; congruence).
        lia.
    - rewrite (responses_out_of_range ids); auto. simpl. lia. }
  split; [now rewrite (new_calls_app w w' delta Hcalls)|].
  split; [exact Hgets|].
  split; [now apply (set_responses_of_gets ids)|].
  split; [exact Hbound|].
  now apply calls_bound.
Qed.

Lemma fetchFeeds_call_discipline_witness :
  exists w',
    calls w' = calls (Examples.world (1, Examples.two_feeds))
               ++ new_calls (Examples.world (1, Examples.two_feeds)) w'
    /\ Forall (get_of [js "feedB.json"; js "feedA.json"])
         (new_calls (Examples.world (1, Examples.two_feeds)) w')
    /\ set_responses (new_calls (Examples.world (1, Examples.two_feeds)) w')
       = []
    /\ (forall i,
          List.length
            (responses i (new_calls (Examples.world (1, Examples.two_feeds)) w'))
          <= 4)
    /\ List.length (new_calls (Examples.world (1, Examples.two_feeds)) w')
       <= 2 * 4.
Proof.
  eexists.
  apply (fetchFeeds_call_discipline (nat * Examples.Db) Examples.SinkFlaky
           [js "feedB.json"; js "feedA.json"] 3 [1; 1; 0]
           (Examples.world (1, Examples.two_feeds)) _
           (inr [Examples.feedB; Examples.feedA])).
  vm_compute. reflexivity.
Defined.

(** ** No ids *)

(** X4.  With no ids [fetchFeeds] returns no feeds, whatever the schedule
    and the budget, and does not touch the sink: [Promise.all] of no
    promises is fulfilled at once. *)
Theorem fetchFeeds_of_no_ids :
  forall (St : Type) (sink : Sink St) (retries : nat) (sched : list nat)
         (w : World St),
    fetchFeeds sink [] retries sched w = Some (inr [], w).
Proof.
  intros St sink retries sched w. unfold fetchFeeds.
  assert (Hrun : fetch_steps sink retries [] sched (fetch_init [], w)
                 = (fetch_init [], w)).
  { induction sched as [|i sched IH]; [reflexivity|].
    cbn [fetch_steps fold_left]. fold (fetch_steps sink retries [] sched).
    rewrite (fetch_step_idle St sink retries [] i (fetch_init []) w);
      [exact IH|].
    intros file op Hid. destruct i; discriminate. }
  rewrite Hrun. reflexivity.
Qed.

(** ** Once settled *)

Section FetchSettled.

Variable St : Type.
Variable sink : Sink St.
Variable retries : nat.
Variable ids : list jsstring.

(** A settled [Promise.all] stays as it is, whatever the fetches do. *)
Lemma fetch_step_all_settled i st w :
  all st <> Pending ->
  all (fst (fetch_step sink retries ids i (st, w))) = all st.
Proof.
  intros Hs.
  destruct (fetch_step_cases St sink retries ids i st w)
    as [[Hidle _] | [file [op [res [stx [Hid [Hop [Hp Hget]]]]]]]].
  - now rewrite Hidle.
  - rewrite (fetch_step_attempt St sink retries ids i st w file op res stx)
      by assumption.
    cbv zeta. cbn [fst all]. unfold Promise_all_update.
    destruct (all st); [congruence | reflexivity | reflexivity].
Qed.

Lemma fetch_steps_all_settled sched : forall st w,
  all st <> Pending ->
  all (fst (fetch_steps sink retries ids sched (st, w))) = all st.
Proof.
  induction sched as [|i sched IH]; intros st w Hs; [reflexivity|].
  change (fetch_steps sink retries ids (i :: sched) (st, w))
    with (fetch_steps sink retries ids sched
            (fetch_step sink retries ids i (st, w))).
  pose proof (fetch_step_all_settled i st w Hs) as Hstep.
  destruct (fetch_step sink retries ids i (st, w)) as [st1 w1].
  cbn [fst] in Hstep. rewrite <- Hstep. apply IH. congruence.
Qed.

End FetchSettled.

(** X5.  The result is final.  What [fetchFeeds] has returned or thrown
    does not change with what the fetches do afterwards: under any longer
    schedule the result is the same, and the calls made by then are still
    there. *)
Theorem fetchFeeds_result_is_final :
  forall (St : Type) (sink : Sink St) (ids : list jsstring) (retries : nat)
         (sched more : list nat) (w w1 : World St)
         (r : BoomError + list jsstring),
    fetchFeeds sink ids retries sched w = Some (r, w1) ->
    exists w2 later,
      fetchFeeds sink ids retries (sched ++ more) w = Some (r, w2)
      /\ calls w2 = calls w1 ++ later.
Proof.
  intros St sink ids retries sched more w w1 r Hfetch.
  destruct (fetch_steps sink retries ids sched (fetch_init ids, w))
    as [st1 wa] eqn:Hrun.
  rewrite (fetchFeeds_unfold St sink retries ids sched w st1 wa Hrun) in Hfetch.
  destruct (fetch_steps sink retries ids more (st1, wa)) as [st2 w2] eqn:Hmore.
  assert (Hall : all st2 = all st1).
  { pose proof (fetch_steps_all_settled St sink retries ids more st1 wa) as H.
    rewrite Hmore in H. apply H. intros Hp. rewrite Hp in Hfetch.
    discriminate. }
  destruct (fetch_steps_replay St sink retries ids more _ _ _ _ Hmore)
    as [later [Hcalls _]].
  assert (Hrun2 : fetch_steps sink retries ids (sched ++ more)
                    (fetch_init ids, w) = (st2, w2)).
  { now rewrite fetch_steps_app, Hrun. }
  exists w2, later.
  rewrite (fetchFeeds_unfold St sink retries ids (sched ++ more) w st2 w2 Hrun2).
  rewrite Hall.
  destruct (all st1); [discriminate | |];
    injection Hfetch as <- <-; split; auto.
Qed.

Lemma fetchFeeds_result_is_final_witness :
  exists w2 later,
    fetchFeeds Examples.SinkMem [js "missing.json"; js "feedA.json"] 3
      ([0] ++ [1; 0; 1]) (Examples.world Examples.two_feeds)
    = Some (inl (boomify
                   (new_Error (js "File " ++ [dquote] ++ js "missing.json"
                               ++ [dquote] ++ js " not found."))
                   (Some 404%N)
                   (js "Unable to fetch 1 or more feeds from storage.")), w2)
    /\ calls w2
       = [GetCall 0 (js "missing.json")
            (inl (new_Error (js "No file with name " ++ [dquote]
                             ++ js "missing.json" ++ [dquote])))]
         ++ later.
Proof.
  apply (fetchFeeds_result_is_final Examples.Db Examples.SinkMem
           [js "missing.json"; js "feedA.json"] 3 [0] [1; 0; 1]
           (Examples.world Examples.two_feeds)
           {| store := Examples.two_feeds;
              calls := [GetCall 0 (js "missing.json")
                          (inl (new_Error (js "No file with name " ++ [dquote]
                                           ++ js "missing.json" ++ [dquote])))] |}).
  vm_compute. reflexivity.
Defined.

(** X6.  No fetch is cancelled.  After [fetchFeeds] has thrown, a fetch
    that has so far met only transient failures within its budget is still
    running: at its next turn it calls [sink.get] for its file once more.
    What [fetchFeeds] has thrown stays the same. *)
Theorem fetchFeeds_does_not_cancel :
  forall (St : Type) (sink : Sink St) (ids : list jsstring) (retries : nat)
         (sched : list nat) (w w1 : World St) (b : BoomError)
         (i : nat) (file : jsstring) (errs : list JsError),
    fetchFeeds sink ids retries sched w = Some (inl b, w1) ->
    nth_error ids i = Some file ->
    responses i (new_calls w w1) = map inl errs ->
    Forall transient_get errs ->
    List.length errs <= retries ->
    exists res st2,
      get sink file (store w1) = (res, st2)
      /\ fetchFeeds sink ids retries (sched ++ [i]) w
         = Some (inl b, {| store := st2;
                           calls := calls w1 ++ [GetCall i file res] |}).
Proof.
  intros St sink ids retries sched w w1 b i file errs Hfetch Hid Hresp Htr Hle.
  destruct (fetch_steps sink retries ids sched (fetch_init ids, w))
    as [st1 wa] eqn:Hrun.
  rewrite (fetchFeeds_unfold St sink retries ids sched w st1 wa Hrun) in Hfetch.
  destruct (all st1) as [|vs|e] eqn:Hall; try discriminate.
  injection Hfetch as <- ->.
  destruct (fetch_run_replay St sink retries ids sched w st1 w1 Hrun)
    as [_ Hops].
  specialize (Hops i file Hid). rewrite Hresp in Hops.
  rewrite (replay_transient retries file errs new_operation) in Hops
    by (simpl; auto).
  destruct (get sink file (store w1)) as [res st2] eqn:Hget.
  exists res, st2. split; [reflexivity|].
  assert (Hrun2 : fetch_steps sink retries ids (sched ++ [i])
                    (fetch_init ids, w)
                  = fetch_step sink retries ids i (st1, w1)).
  { now rewrite fetch_steps_app, Hrun. }
  rewrite (fetch_step_attempt St sink retries ids i st1 w1 file _ res st2
             Hid Hops eq_refl Hget) in Hrun2.
  cbv zeta in Hrun2.
  rewrite (fetchFeeds_unfold St sink retries ids (sched ++ [i]) w _ _ Hrun2).
  cbn [all]. rewrite Hall. reflexivity.
Qed.

Lemma fetchFeeds_does_not_cancel_witness :
  exists res st2,
    get Examples.SinkMem (js "feedA.json") Examples.two_feeds = (res, st2)
    /\ fetchFeeds Examples.SinkMem [js "missing.json"; js "feedA.json"] 3
         ([0] ++ [1]) (Examples.world Examples.two_feeds)
       = Some (inl (boomify
                      (new_Error (js "File " ++ [dquote] ++ js "missing.json"
                                  ++ [dquote] ++ js " not found."))
                      (Some 404%N)
                      (js "Unable to fetch 1 or more feeds from storage.")),
               {| store := st2;
                  calls := [GetCall 0 (js "missing.json")
                              (inl (new_Error
                                      (js "No file with name " ++ [dquote]
                                       ++ js "missing.json" ++ [dquote])))]
                           ++ [GetCall 1 (js "feedA.json") res] |}).
Proof.
  apply (fetchFeeds_does_not_cancel Examples.Db Examples.SinkMem
           [js "missing.json"; js "feedA.json"] 3 [0]
           (Examples.world Examples.two_feeds)
           {| store := Examples.two_feeds;
              calls := [GetCall 0 (js "missing.json")
                          (inl (new_Error (js "No file with name " ++ [dquote]
                                           ++ js "missing.json" ++ [dquote])))] |}
           _ 1 (js "feedA.json") []);
    [vm_compute; reflexivity | reflexivity | reflexivity | constructor
    | apply Nat.le_0_l].
Defined.

(** ** upload: what it does to the sink *)

Section UploadCalls.

Variable St : Type.
Variable sink : Sink St.
Variable retries : nat.
Variables fileName content : jsstring.

(** A pending upload within its budget calls [sink.set] until a call
    succeeds, fails with a [TypeError], or finds the budget used up. *)
Lemma pretry_loop_sets fuel : forall (op : Operation unit) (w : World St),
  settled op = Pending ->
  List.length (errors op) <= retries ->
  retries < List.length (errors op) + fuel ->
  exists op' w' errs last st1,
    pretry_loop fuel retries (sink_set sink fileName content) op w = (op', w')
    /\ set_fails sink fileName content errs (store w) st1
    /\ set sink fileName content st1 = (last, store w')
    /\ calls w' = calls w ++ failed_sets fileName content errs
                  ++ [SetCall fileName content last]
    /\ Forall (fun e => is_TypeError e = false) errs
    /\ List.length (errors op) + List.length errs <= retries
    /\ match last with
       | inr u => settled op' = Fulfilled u
       | inl e =>
           exists cause,
             settled op' = Rejected cause
             /\ if is_TypeError e then cause = e
                else List.length (errors op) + List.length errs = retries
                     /\ In cause (errors op ++ errs ++ [e])
       end.
Proof.
  induction fuel as [|fuel IH]; intros op w Hp Hle Hfuel; [lia|].
  rewrite pretry_loop_step. unfold pretry_attempt. rewrite Hp.
  destruct (set sink fileName content (store w)) as [res st0] eqn:Hset.
  rewrite (sink_set_result St sink fileName content w res st0 Hset).
  destruct res as [e|u].
  - unfold pretry_settle. destruct (is_TypeError e) eqn:Hte.
    + rewrite pretry_loop_settled by (simpl; discriminate).
      eexists. eexists. exists [], (inl e), (store w).
      split; [reflexivity|]. cbn [set_fails store calls failed_sets map app].
      repeat split; auto; [simpl; lia|].
      exists e. rewrite Hte. now split.
    + destruct (List.length (errors op) <? retries) eqn:Hlt.
      * apply Nat.ltb_lt in Hlt.
        destruct (IH (mkOp (S (attempts op)) (errors op ++ [e]) Pending)
                     {| store := st0;
                        calls := calls w ++ [SetCall fileName content (inl e)] |})
          as [op' [w' [errs [last [st1 [Hloop [Hfails [Hlast [Hcalls
                [Hnte [Hbudget Hend]]]]]]]]]]].
        { reflexivity. }
        { cbn [errors]. rewrite length_app. simpl. lia. }
        { cbn [errors]. rewrite length_app. simpl. lia. }
        cbn [errors store calls] in *. rewrite length_app in Hbudget.
        simpl in Hbudget.
        exists op', w', (e :: errs), last, st1.
        split; [exact Hloop|].
        split; [simpl; exists st0; now split|].
        split; [exact Hlast|].
        split; [rewrite Hcalls, <- app_assoc; reflexivity|].
        split; [now constructor|].
        split; [simpl; lia|].
        destruct last as [e'|u]; [|exact Hend].
        destruct Hend as [cause [Hs Hcause]]. exists cause.
        split; [exact Hs|].
        destruct (is_TypeError e'); [exact Hcause|].
        destruct Hcause as [Hlen Hin]. rewrite length_app in Hlen.
        simpl in Hlen. split; [simpl; lia|].
        rewrite <- app_assoc in Hin. exact Hin.
      * apply Nat.ltb_ge in Hlt.
        rewrite pretry_loop_settled by (simpl; discriminate).
        eexists. eexists. exists [], (inl e), (store w).
        split; [reflexivity|]. cbn [set_fails store calls failed_sets map app].
        repeat split; auto; [simpl; lia|].
        eexists. split; [reflexivity|]. rewrite Hte.
        split; [simpl; lia|].
        destruct (mainError (errors op ++ [e])) as [m|] eqn:Hm.
        -- now apply mainError_In.
        -- apply in_or_app. right. now left.
  - cbn [pretry_settle]. rewrite pretry_loop_settled by (simpl; discriminate).
    eexists. eexists. exists [], (inr u), (store w).
    split; [reflexivity|]. cbn [set_fails store calls failed_sets map app].
    repeat split; auto. simpl. lia.
Qed.

End UploadCalls.

(** [upload] always settles, after calls of [sink.set] that failed within
    the budget and one that ended it. *)
Lemma upload_sets :
  forall (St : Type) (sink : Sink St) (fileName content : jsstring)
         (retries : nat) (w : World St),
    exists r w' errs last st1,
      upload sink fileName content retries w = Some (r, w')
      /\ set_fails sink fileName content errs (store w) st1
      /\ set sink fileName content st1 = (last, store w')
      /\ calls w' = calls w ++ failed_sets fileName content errs
                    ++ [SetCall fileName content last]
      /\ Forall (fun e => is_TypeError e = false) errs
      /\ List.length errs <= retries
      /\ match last with
         | inr u => r = inr u
         | inl e =>
             exists cause,
               r = inl (boomify cause None
                          (js "Unable to upload bundle with fileName "
                           ++ [dquote] ++ fileName ++ [dquote]
                           ++ js " to storage."))
               /\ if is_TypeError e then cause = e
                  else List.length errs = retries /\ In cause (errs ++ [e])
         end.
Proof.
  intros St sink fileName content retries w.
  destruct (pretry_loop_sets St sink retries fileName content (S retries)
              new_operation w eq_refl (Nat.le_0_l retries))
    as [op' [w' [errs [last [st1 [Hloop [Hfails [Hlast [Hcalls
          [Hnte [Hbudget Hend]]]]]]]]]]].
  { simpl. lia. }
  cbn [new_operation errors List.length app] in Hbudget, Hend.
  unfold upload, pretry. rewrite Hloop.
  destruct last as [e|u].
  - destruct Hend as [cause [Hs Hcause]]. rewrite Hs.
    eexists. exists w', errs, (inl e), st1.
    split; [reflexivity|]. repeat split; auto.
    exists cause. split; [reflexivity | exact Hcause].
  - rewrite Hend. exists (inr u), w', errs, (inr u), st1.
    repeat split; auto.
Qed.

Lemma responses_failed_sets i fileName content errs :
  responses i (failed_sets fileName content errs) = [].
Proof. induction errs as [|e errs IH]; simpl; auto. Qed.

Lemma set_responses_failed_sets fileName content errs :
  set_responses (failed_sets fileName content errs) = map inl errs.
Proof. induction errs as [|e errs IH]; simpl; [|rewrite IH]; reflexivity. Qed.

(** X7.  [upload] always settles, and this is all it does: it calls
    [sink.set] with the same file name and content until a call succeeds,
    fails with a [TypeError], or is the failure number [retries + 1]; it
    makes no other call, and none of [sink.get].  It succeeds exactly when
    its last call did; otherwise it throws a Boom error that names the
    file: around the [TypeError], or around one of the failures when the
    budget is used up. *)
Theorem upload_calls_set_until_done :
  forall (St : Type) (sink : Sink St) (fileName content : jsstring)
         (retries : nat) (w : World St),
    exists r w' errs last,
      upload sink fileName content retries w = Some (r, w')
      /\ calls w' = calls w ++ new_calls w w'
      /\ new_calls w w' = failed_sets fileName content errs
                          ++ [SetCall fileName content last]
      /\ (forall i, responses i (new_calls w w') = [])
      /\ set_responses (new_calls w w') = map inl errs ++ [last]
      /\ Forall (fun e => is_TypeError e = false) errs
      /\ List.length errs <= retries
      /\ match last with
         | inr u => r = inr u
         | inl e =>
             exists cause,
               r = inl (boomify cause None
                          (js "Unable to upload bundle with fileName "
                           ++ [dquote] ++ fileName ++ [dquote]
                           ++ js " to storage."))
               /\ if is_TypeError e then cause = e
                  else List.length errs = retries /\ In cause (errs ++ [e])
         end.
Proof.
  intros St sink fileName content retries w.
  destruct (upload_sets St sink fileName content retries w)
    as [r [w' [errs [last [st1 [Hup [_ [_ [Hcalls [Hnte [Hle Hend]]]]]]]]]]].
  exists r, w', errs, last.
  rewrite (new_calls_app w w' _ Hcalls).
  split; [exact Hup|]. split; [exact Hcalls|]. split; [reflexivity|].
  split; [|split; [|split; [exact Hnte | split; [exact Hle | exact Hend]]]].
  - intros i. rewrite responses_app, responses_failed_sets. reflexivity.
  - rewrite set_responses_app, set_responses_failed_sets. reflexivity.
Qed.

(** ** parseFeeds: all or nothing *)

(** X8.  [parseFeeds] returns exactly when every text is JSON, and then the
    values of the texts, one for each and in their order.  Otherwise it
    throws for the first text that is not JSON, the texts before it being
    JSON, whatever comes after it: the error of [JSON.parse] for that text,
    made a Boom error. *)
Theorem parseFeeds_all_or_nothing :
  forall rawFeeds : list jsstring,
    match parseFeeds rawFeeds with
    | inr feeds =>
        Forall2 (fun raw feed => JSON.parse raw = inr feed) rawFeeds feeds
    | inl b =>
        exists before raw after,
          rawFeeds = before ++ raw :: after
          /\ Forall (fun r => exists feed, JSON.parse r = inr feed) before
          /\ JSON.parse raw = inl (original b)
          /\ b = boomify (original b) None
                   (js "Unable to parse 1 or more feeds as JSON.")
    end.
Proof.
  intros rawFeeds. unfold parseFeeds.
  destruct (map_JSON_parse rawFeeds) as [e|feeds] eqn:Hmap.
  - cbn [original boomify]. revert e Hmap.
    induction rawFeeds as [|r rest IH]; intros e Hmap; [discriminate|].
    cbn [map_JSON_parse] in Hmap.
    destruct (JSON.parse r) as [e'|v] eqn:Hr.
    + injection Hmap as <-. exists [], r, rest.
      repeat split; auto.
    + destruct (map_JSON_parse rest) as [e'|vs]; [|discriminate].
      injection Hmap as <-.
      destruct (IH e' eq_refl) as [before [raw [after [-> [Hok [Hraw _]]]]]].
      exists (r :: before), raw, after.
      split; [reflexivity|]. split; [constructor; eauto|].
      split; [exact Hraw | reflexivity].
  - now apply map_JSON_parse_ok.
Qed.

(** ** bundleAndUpload: what a run leaves behind *)

Lemma fetchFeeds_calls (St : Type) (sink : Sink St) ids retries sched
  (w w' : World St) r :
  fetchFeeds sink ids retries sched w = Some (r, w') ->
  exists delta, calls w' = calls w ++ delta /\ Forall (get_of ids) delta.
Proof.
  intros Hfetch.
  destruct (fetch_steps sink retries ids sched (fetch_init ids, w))
    as [st2 w2] eqn:Hrun.
  rewrite (fetchFeeds_unfold St sink retries ids sched w st2 w2 Hrun) in Hfetch.
  assert (w2 = w') as ->.
  { destruct (all st2); [discriminate | |]; now injection Hfetch. }
  destruct (fetch_run_history St sink retries ids sched w st2 w' Hrun)
    as [Hgets _].
  destruct (fetch_steps_replay St sink retries ids sched _ _ _ _ Hrun)
    as [delta [Hcalls _]].
  exists delta. split; [exact Hcalls|].
  now rewrite (new_calls_app w w' delta Hcalls) in Hgets.
Qed.

Lemma starts_with_app p a b : starts_with p ((p ++ a) ++ b) = true.
Proof.
  apply starts_with_spec. exists (a ++ b). now rewrite app_assoc.
Qed.

Lemma new_calls_same {St : Type} (w : World St) : new_calls w w = [].
Proof. apply new_calls_app. now rewrite app_nil_r. Qed.

(** X9.  A success means every step succeeded.  When [bundleAndUpload]
    returns, the ids were a non-empty array, [fetchFeeds] returned a text
    for each, every text was JSON, the bundler for the type made the
    content of the values in the order of the ids, and the last thing that
    happened is the call of [sink.set] that stored that content under the
    returned file name and succeeded, after at most three that failed. *)
Theorem bundleAndUpload_success_means_every_step :
  forall (bundleJS bundleCSS : list JsValue -> JsError + jsstring)
         (St : Type) (sink : Sink St) (type uri0 : jsstring)
         (feedIds : FeedIds) (sched : list nat) (w w' : World St)
         (up : Uploaded),
    bundleAndUpload bundleJS bundleCSS sink type feedIds uri0 sched w
    = Some (inr up, w') ->
    exists ids raws feeds content errs w1,
      feedIds = IdArray ids
      /\ ids <> []
      /\ fetchFeeds sink ids 3 sched w = Some (inr raws, w1)
      /\ Forall2 (fun raw feed => JSON.parse raw = inr feed) raws feeds
      /\ (if jsstring_eqb type (js "css") then bundleCSS feeds
          else bundleJS feeds) = inr content
      /\ file up = createHashFromContent content ++ js "." ++ type
      /\ uri up = uri0 ++ file up
      /\ calls w' = calls w1 ++ failed_sets (file up) content errs
                    ++ [SetCall (file up) content (inr tt)]
      /\ List.length errs <= 3.
Proof.
  intros bundleJS bundleCSS St sink type uri0 feedIds sched w w' up Hrun.
  destruct feedIds as [shown|[|id ids]]; try discriminate.
  rewrite bundleAndUpload_steps in Hrun.
  destruct (fetchFeeds sink (id :: ids) 3 sched w) as [[[b|raws] w1]|]
    eqn:Hfetch; try discriminate.
  destruct (parseFeeds raws) as [b|feeds] eqn:Hparse; try discriminate.
  destruct (bundleFeeds bundleJS bundleCSS feeds type) as [b|content] eqn:Hb;
    try discriminate.
  cbv zeta in Hrun.
  remember (createHashFromContent content ++ js "." ++ type) as name eqn:Hname.
  destruct (upload_sets St sink name content 3 w1)
    as [r [w2 [errs [last [st1 [Hup [_ [_ [Hcalls [_ [Hle Hend]]]]]]]]]]].
  rewrite Hup in Hrun.
  destruct last as [e|u].
  - destruct Hend as [cause [-> _]]. discriminate.
  - subst r. injection Hrun as <- <-. cbn [file uri]. destruct u.
    exists (id :: ids), raws, feeds, content, errs, w1.
    split; [reflexivity|]. split; [discriminate|]. split; [exact Hfetch|].
    split.
    { unfold parseFeeds in Hparse.
      destruct (map_JSON_parse raws) as [e|vs] eqn:Hmap; [discriminate|].
      injection Hparse as <-. now apply map_JSON_parse_ok. }
    split.
    { unfold bundleFeeds in Hb.
      destruct (jsstring_eqb type (js "css")).
      - destruct (bundleCSS feeds); [discriminate | congruence].
      - destruct (bundleJS feeds); [discriminate | congruence]. }
    repeat split; auto.
Qed.

Lemma bundleAndUpload_success_means_every_step_witness :
  exists ids raws feeds content errs w1,
    IdArray [js "feedA.json"] = IdArray ids
    /\ ids <> []
    /\ fetchFeeds Examples.SinkMem ids 3 [0]
         (Examples.world Examples.two_feeds)
       = Some (inr raws, w1)
    /\ Forall2 (fun raw feed => JSON.parse raw = inr feed) raws feeds
    /\ (if jsstring_eqb (js "css") (js "css")
        then Examples.join_sources feeds
        else Examples.broken_bundler feeds) = inr content
    /\ js "81a68c14d1d9c91b5af330765479162cc3f8b4cc49f9df2fddd4d6ee7c36afa3.css"
       = createHashFromContent content ++ js "." ++ js "css"
    /\ js "http://host/bundle/81a68c14d1d9c91b5af330765479162cc3f8b4cc49f9df2fddd4d6ee7c36afa3.css"
       = js "http://host/bundle/"
         ++ js "81a68c14d1d9c91b5af330765479162cc3f8b4cc49f9df2fddd4d6ee7c36afa3.css"
    /\ [GetCall 0 (js "feedA.json") (inr Examples.feedA);
        SetCall
          (js "81a68c14d1d9c91b5af330765479162cc3f8b4cc49f9df2fddd4d6ee7c36afa3.css")
          (js "var a=1;") (inr tt)]
       = calls w1
         ++ failed_sets
              (js "81a68c14d1d9c91b5af330765479162cc3f8b4cc49f9df2fddd4d6ee7c36afa3.css")
              content errs
         ++ [SetCall
               (js "81a68c14d1d9c91b5af330765479162cc3f8b4cc49f9df2fddd4d6ee7c36afa3.css")
               content (inr tt)]
    /\ List.length errs <= 3.
Proof.
  apply (bundleAndUpload_success_means_every_step Examples.broken_bundler
           Examples.join_sources Examples.Db Examples.SinkMem (js "css")
           (js "http://host/bundle/") (IdArray [js "feedA.json"]) [0]
           (Examples.world Examples.two_feeds)
           {| store := [(js "81a68c14d1d9c91b5af330765479162cc3f8b4cc49f9df2fddd4d6ee7c36afa3.css",
                         js "var a=1;"); (js "feedA.json", Examples.feedA);
                        (js "feedB.json", Examples.feedB)];
              calls := [GetCall 0 (js "feedA.json") (inr Examples.feedA);
                        SetCall
                          (js "81a68c14d1d9c91b5af330765479162cc3f8b4cc49f9df2fddd4d6ee7c36afa3.css")
                          (js "var a=1;") (inr tt)] |}
           {| file := js "81a68c14d1d9c91b5af330765479162cc3f8b4cc49f9df2fddd4d6ee7c36afa3.css";
              uri := js "http://host/bundle/81a68c14d1d9c91b5af330765479162cc3f8b4cc49f9df2fddd4d6ee7c36afa3.css" |}).
  vm_compute. reflexivity.
Defined.

(** X10.  A failure stores nothing.  When [bundleAndUpload] throws, no call
    of [sink.set] has succeeded, and there were at most four of them; there
    was one only if it is [upload] that failed; and the assertion on the
    ids fails before anything is done. *)
Theorem bundleAndUpload_failure_stores_nothing :
  forall (bundleJS bundleCSS : list JsValue -> JsError + jsstring)
         (St : Type) (sink : Sink St) (type uri0 : jsstring)
         (feedIds : FeedIds) (sched : list nat) (w w' : World St)
         (f : Failure),
    bundleAndUpload bundleJS bundleCSS sink type feedIds uri0 sched w
    = Some (inl f, w') ->
    Forall (fun res => exists e, res = inl e)
      (set_responses (new_calls w w'))
    /\ List.length (set_responses (new_calls w w')) <= 4
    /\ (set_responses (new_calls w w') <> [] ->
        exists b,
          f = Classified b
          /\ starts_with (js "Unable to upload bundle with fileName ")
               (bmessage b) = true)
    /\ (forall msg, f = AssertionError msg -> w' = w).
Proof.
  intros bundleJS bundleCSS St sink type uri0 feedIds sched w w' f Hrun.
  assert (Hnone : forall w1 delta,
             calls w1 = calls w ++ delta -> Forall (get_of
               match feedIds with IdArray ids => ids | NotArray _ => [] end)
               delta ->
             forall b, Some (@inl Failure Uploaded (Classified b), w1)
                       = Some (inl f, w') ->
             Forall (fun res => exists e, res = inl e)
               (set_responses (new_calls w w'))
             /\ List.length (set_responses (new_calls w w')) <= 4
             /\ (set_responses (new_calls w w') <> [] ->
                 exists b,
                   f = Classified b
                   /\ starts_with (js "Unable to upload bundle with fileName ")
                        (bmessage b) = true)
             /\ (forall msg, f = AssertionError msg -> w' = w)).
  { intros w1 delta Hcalls Hgets b Heq. injection Heq as <- <-.
    rewrite (new_calls_app w w1 delta Hcalls).
    rewrite (set_responses_of_gets _ delta Hgets).
    split; [constructor|]. split; [simpl; lia|].
    split; [congruence | discriminate]. }
  destruct feedIds as [shown|[|id ids]].
  - injection Hrun as <- <-. rewrite new_calls_same.
    split; [constructor|]. split; [simpl; lia|].
    split; [intros H; exfalso; now apply H | auto].
  - injection Hrun as <- <-. rewrite new_calls_same.
    split; [constructor|]. split; [simpl; lia|].
    split; [intros H; exfalso; now apply H | auto].
  - rewrite bundleAndUpload_steps in Hrun.
    destruct (fetchFeeds sink (id :: ids) 3 sched w) as [[[b|raws] w1]|]
      eqn:Hfetch; try discriminate;
      destruct (fetchFeeds_calls St sink _ _ _ _ _ _ Hfetch)
        as [delta [Hcalls Hgets]].
    { now apply (Hnone w1 delta Hcalls Hgets b). }
    destruct (parseFeeds raws) as [b|feeds].
    { now apply (Hnone w1 delta Hcalls Hgets b). }
    destruct (bundleFeeds bundleJS bundleCSS feeds type) as [b|content].
    { now apply (Hnone w1 delta Hcalls Hgets b). }
    cbv zeta in Hrun.
    remember (createHashFromContent content ++ js "." ++ type) as name
      eqn:Hname.
    clear Hname Hnone.
    destruct (upload_sets St sink name content 3 w1)
      as [r [w2 [errs [last [st1 [Hup [_ [_ [Hcalls2 [_ [Hle Hend]]]]]]]]]]].
    rewrite Hup in Hrun.
    destruct last as [e|u].
    + destruct Hend as [cause [-> _]]. injection Hrun as <- <-.
      assert (Hall : calls w2
                     = calls w ++ delta ++ failed_sets name content errs
                       ++ [SetCall name content (inl e)]).
      { now rewrite Hcalls2, Hcalls, <- app_assoc. }
      rewrite (new_calls_app w w2 _ Hall).
      rewrite !set_responses_app, (set_responses_of_gets _ delta Hgets).
      rewrite set_responses_failed_sets. cbn [set_responses app].
      split.
      { apply Forall_app. split.
        - apply Forall_forall. intros res Hin. apply in_map_iff in Hin.
          destruct Hin as [e' [<- _]]. now exists e'.
        - constructor; [now exists e | constructor]. }
      split; [rewrite length_app, length_map; simpl; lia|].
      split; [|discriminate].
      intros _. eexists. split; [reflexivity|].
      exact (starts_with_app (js "Unable to upload bundle with fileName ")
               ([dquote] ++ name ++ [dquote] ++ js " to storage.") _).
    + subst r. discriminate.
Qed.

Lemma bundleAndUpload_failure_stores_nothing_witness :
  exists w',
    Forall (fun res => exists e, res = inl e)
      (set_responses (new_calls (Examples.world Examples.two_feeds) w'))
    /\ List.length
         (set_responses (new_calls (Examples.world Examples.two_feeds) w'))
       <= 4
    /\ (set_responses (new_calls (Examples.world Examples.two_feeds) w')
        <> [] ->
        exists b,
          Classified
            (boomify Examples.read_only None
               (js "Unable to upload bundle with fileName " ++ [dquote]
                ++ js "81a68c14d1d9c91b5af330765479162cc3f8b4cc49f9df2fddd4d6ee7c36afa3.js"
                ++ [dquote] ++ js " to storage."))
          = Classified b
          /\ starts_with (js "Unable to upload bundle with fileName ")
               (bmessage b) = true)
    /\ (forall msg,
          Classified
            (boomify Examples.read_only None
               (js "Unable to upload bundle with fileName " ++ [dquote]
                ++ js "81a68c14d1d9c91b5af330765479162cc3f8b4cc49f9df2fddd4d6ee7c36afa3.js"
                ++ [dquote] ++ js " to storage."))
          = AssertionError msg ->
          w' = Examples.world Examples.two_feeds).
Proof.
  eexists.
  apply (bundleAndUpload_failure_stores_nothing Examples.join_sources
           Examples.broken_bundler Examples.Db Examples.SinkReadOnly
           (js "js") (js "http://host/bundle/") (IdArray [js "feedA.json"])
           [0] (Examples.world Examples.two_feeds)).
  vm_compute. reflexivity.
Defined.

(** ** bundleAndUpload on a reliable sink *)

Lemma Forall2_nth_error {A B} (R : A -> B -> Prop) l l' :
  Forall2 R l l' ->
  forall i a, nth_error l i = Some a ->
              exists b, nth_error l' i = Some b /\ R a b.
Proof.
  induction 1 as [|x y l l' Hxy _ IH]; intros i a Hi.
  - destruct i; discriminate.
  - destruct i as [|i]; simpl in *.
    + injection Hi as <-. now exists y.
    + now apply IH.
Qed.

(** On a reliable sink that holds a JSON text for every id,
    [bundleAndUpload] succeeds if the bundler does: with one call of
    [sink.set], which stores the bundle under the returned name and leaves
    every other file as it was. *)
Lemma bundleAndUpload_reliable
  (bundleJS bundleCSS : list JsValue -> JsError + jsstring)
  (St : Type) (sink : Sink St) (contents : St -> jsstring -> option jsstring)
  (type uri0 : jsstring) (ids raws : list jsstring) (feeds : list JsValue)
  (content name : jsstring) (sched : list nat) (w : World St) :
  reliable sink contents ->
  ids <> [] ->
  Forall2 (fun id raw => contents (store w) id = Some raw) ids raws ->
  Forall2 (fun raw feed => JSON.parse raw = inr feed) raws feeds ->
  bundleFeeds bundleJS bundleCSS feeds type = inr content ->
  (forall i, i < List.length ids -> In i sched) ->
  name = createHashFromContent content ++ js "." ++ type ->
  exists w',
    bundleAndUpload bundleJS bundleCSS sink type (IdArray ids) uri0 sched w
    = Some (inr {| file := name; uri := uri0 ++ name |}, w')
    /\ contents (store w') name = Some content
    /\ (forall f, f <> name -> contents (store w') f = contents (store w) f)
    /\ set_responses (new_calls w w') = [inr tt].
Proof.
  intros Hrel Hne Hstored Hparse Hbundle Hfair Hname.
  destruct ids as [|id ids]; [congruence|]. clear Hne.
  destruct (fetchFeeds_reliable St sink contents Hrel 3 (id :: ids) raws w)
    with (sched := sched) as [w1 [Hfetch Hcont]].
  { symmetry. exact (Forall2_length Hstored). }
  { intros i f Hi. exact (Forall2_nth_error _ _ _ Hstored i f Hi). }
  { exact Hfair. }
  destruct (fetchFeeds_calls St sink _ _ _ _ _ _ Hfetch)
    as [delta [Hcalls Hgets]].
  destruct (@set_stores _ _ _ Hrel (store w1) name content)
    as [st2 [Hset [Hfile Hframe]]].
  rewrite bundleAndUpload_steps, Hfetch.
  unfold parseFeeds. rewrite (map_JSON_parse_all raws feeds Hparse).
  rewrite Hbundle. cbv zeta. rewrite <- Hname. clear Hname.
  rewrite (upload_retry_success St sink 3 name content w1 [] (store w1) st2
             eq_refl Hset (Forall_nil _) (Nat.le_0_l 3)).
  eexists. split; [reflexivity|]. cbn [store calls failed_sets map app].
  split; [exact Hfile|]. split.
  - intros f Hf. rewrite (Hframe f Hf). apply Hcont.
  - assert (Hall : calls w1 ++ [SetCall name content (inr tt)]
                   = calls w ++ delta ++ [SetCall name content (inr tt)]).
    { now rewrite Hcalls, <- app_assoc. }
    rewrite (new_calls_app w {| store := st2;
                                calls := calls w1
                                         ++ [SetCall name content (inr tt)] |}
               _ Hall).
    rewrite set_responses_app, (set_responses_of_gets _ delta Hgets).
    reflexivity.
Qed.

(** X11.  On a reliable sink.  Let a reliable sink hold, under each of the
    ids (any number of them, at least one), a text that is JSON, and let
    the bundler for the type (any type) make [content] of the values in the
    order of the ids.  Then, on any schedule that gives every fetch a turn,
    [bundleAndUpload] returns the name made of the hash of [content] and
    the type; it has called [sink.set] once, with success; the sink now
    holds [content] under that name, and every other file as before. *)
Theorem bundleAndUpload_on_a_reliable_sink :
  forall (bundleJS bundleCSS : list JsValue -> JsError + jsstring)
         (St : Type) (sink : Sink St)
         (contents : St -> jsstring -> option jsstring)
         (type uri0 : jsstring) (ids raws : list jsstring)
         (feeds : list JsValue) (content : jsstring) (sched : list nat)
         (w : World St),
    reliable sink contents ->
    ids <> [] ->
    Forall2 (fun id raw => contents (store w) id = Some raw) ids raws ->
    Forall2 (fun raw feed => JSON.parse raw = inr feed) raws feeds ->
    bundleFeeds bundleJS bundleCSS feeds type = inr content ->
    (forall i, i < List.length ids -> In i sched) ->
    exists name w',
      name = createHashFromContent content ++ js "." ++ type
      /\ bundleAndUpload bundleJS bundleCSS sink type (IdArray ids) uri0
           sched w
         = Some (inr {| file := name; uri := uri0 ++ name |}, w')
      /\ contents (store w') name = Some content
      /\ (forall f, f <> name -> contents (store w') f = contents (store w) f)
      /\ set_responses (new_calls w w') = [inr tt].
Proof.
  intros bundleJS bundleCSS St sink contents type uri0 ids raws feeds content
         sched w Hrel Hne Hstored Hparse Hbundle Hfair.
  remember (createHashFromContent content ++ js "." ++ type) as name
    eqn:Hname.
  destruct (bundleAndUpload_reliable bundleJS bundleCSS St sink contents type
              uri0 ids raws feeds content name sched w Hrel Hne Hstored Hparse
              Hbundle Hfair Hname) as [w' Hrun].
  exists name, w'. split; [reflexivity | exact Hrun].
Qed.

Lemma bundleAndUpload_on_a_reliable_sink_witness :
  exists name w',
    name = createHashFromContent (js "var b=2;var a=1;var b=2;")
           ++ js "." ++ js "css"
    /\ bundleAndUpload Examples.broken_bundler Examples.join_sources
         Examples.SinkMem (js "css")
         (IdArray [js "feedB.json"; js "feedA.json"; js "feedB.json"])
         (js "/") [2; 0; 1] (Examples.world Examples.two_feeds)
       = Some (inr {| file := name; uri := js "/" ++ name |}, w')
    /\ Examples.lookup name (store w') = Some (js "var b=2;var a=1;var b=2;")
    /\ (forall f, f <> name ->
          Examples.lookup f (store w')
          = Examples.lookup f (store (Examples.world Examples.two_feeds)))
    /\ set_responses (new_calls (Examples.world Examples.two_feeds) w')
       = [inr tt].
Proof.
  apply (bundleAndUpload_on_a_reliable_sink Examples.broken_bundler
           Examples.join_sources Examples.Db Examples.SinkMem
           (fun db file => Examples.lookup file db) (js "css") (js "/")
           [js "feedB.json"; js "feedA.json"; js "feedB.json"]
           [Examples.feedB; Examples.feedA; Examples.feedB]
           [VObject [(js "id", VString (js "b"));
                     (js "source", VString (js "var b=2"))];
            VObject [(js "id", VString (js "a"));
                     (js "source", VString (js "var a=1"))];
            VObject [(js "id", VString (js "b"));
                     (js "source", VString (js "var b=2"))]]
           (js "var b=2;var a=1;var b=2;") [2; 0; 1]
           (Examples.world Examples.two_feeds) SinkMem_reliable).
  - discriminate.
  - repeat constructor.
  - repeat constructor.
  - vm_compute. reflexivity.
  - intros [|[|[|i]]] Hi; simpl in *; auto; lia.
Defined.

(** X12.  Twice is once.  Under the conditions of the reliable sink, and if
    the name of the bundle is not one of the ids, [bundleAndUpload] called
    again for the same ids returns the same file and uri, and the sink
    holds what it held after the first call: the bundle under its name,
    every other file as at the start. *)
Theorem bundleAndUpload_twice :
  forall (bundleJS bundleCSS : list JsValue -> JsError + jsstring)
         (St : Type) (sink : Sink St)
         (contents : St -> jsstring -> option jsstring)
         (type uri0 : jsstring) (ids raws : list jsstring)
         (feeds : list JsValue) (content : jsstring) (sched sched' : list nat)
         (w : World St),
    reliable sink contents ->
    ids <> [] ->
    Forall2 (fun id raw => contents (store w) id = Some raw) ids raws ->
    Forall2 (fun raw feed => JSON.parse raw = inr feed) raws feeds ->
    bundleFeeds bundleJS bundleCSS feeds type = inr content ->
    (forall i, i < List.length ids -> In i sched) ->
    (forall i, i < List.length ids -> In i sched') ->
    ~ In (createHashFromContent content ++ js "." ++ type) ids ->
    exists up w1 w2,
      bundleAndUpload bundleJS bundleCSS sink type (IdArray ids) uri0
        sched w = Some (inr up, w1)
      /\ bundleAndUpload bundleJS bundleCSS sink type (IdArray ids) uri0
           sched' w1 = Some (inr up, w2)
      /\ contents (store w2) (file up) = Some content
      /\ (forall f, f <> file up ->
            contents (store w2) f = contents (store w) f).
Proof.
  intros bundleJS bundleCSS St sink contents type uri0 ids raws feeds content
         sched sched' w Hrel Hne Hstored Hparse Hbundle Hfair Hfair' Hfresh.
  remember (createHashFromContent content ++ js "." ++ type) as name
    eqn:Hname.
  destruct (bundleAndUpload_reliable bundleJS bundleCSS St sink contents type
              uri0 ids raws feeds content name sched w Hrel Hne Hstored Hparse
              Hbundle Hfair Hname) as [w1 [Hrun1 [Hfile1 [Hframe1 _]]]].
  assert (Hstored1 : Forall2 (fun id raw => contents (store w1) id = Some raw)
                       ids raws).
  { clear Hne Hfair Hfair' Hrun1 Hparse.
    induction Hstored as [|id raw ids raws Hid _ IH]; constructor.
    - rewrite Hframe1; [exact Hid|]. intros ->. apply Hfresh. now left.
    - apply IH. intros Hin. apply Hfresh. now right. }
  destruct (bundleAndUpload_reliable bundleJS bundleCSS St sink contents type
              uri0 ids raws feeds content name sched' w1 Hrel Hne Hstored1
              Hparse Hbundle Hfair' Hname) as [w2 [Hrun2 [Hfile2 [Hframe2 _]]]].
  exists {| file := name; uri := uri0 ++ name |}, w1, w2. cbn [file].
  split; [exact Hrun1|]. split; [exact Hrun2|]. split; [exact Hfile2|].
  intros f Hf. rewrite (Hframe2 f Hf). now apply Hframe1.
Qed.

Lemma bundleAndUpload_twice_witness :
  exists up w1 w2,
    bundleAndUpload Examples.join_sources Examples.broken_bundler
      Examples.SinkMem (js "js") (IdArray [js "feedA.json"]) (js "/") [0]
      (Examples.world Examples.two_feeds)
    = Some (inr up, w1)
    /\ bundleAndUpload Examples.join_sources Examples.broken_bundler
         Examples.SinkMem (js "js") (IdArray [js "feedA.json"]) (js "/")
         [0; 0] w1
       = Some (inr up, w2)
    /\ Examples.lookup (file up) (store w2) = Some (js "var a=1;")
    /\ (forall f, f <> file up ->
          Examples.lookup f (store w2)
          = Examples.lookup f (store (Examples.world Examples.two_feeds))).
Proof.
  apply (bundleAndUpload_twice Examples.join_sources Examples.broken_bundler
           Examples.Db Examples.SinkMem
           (fun db file => Examples.lookup file db) (js "js") (js "/")
           [js "feedA.json"] [Examples.feedA]
           [VObject [(js "id", VString (js "a"));
                     (js "source", VString (js "var a=1"))]]
           (js "var a=1;") [0] [0; 0]
           (Examples.world Examples.two_feeds) SinkMem_reliable).
  - discriminate.
  - repeat constructor.
  - repeat constructor.
  - vm_compute. reflexivity.
  - intros [|i] Hi; simpl in *; auto; lia.
  - intros [|i] Hi; simpl in *; auto; lia.
  - vm_compute. intros [H|[]]. discriminate H.
Defined.

(** ** validateFeeds and the assertion of bundleAndUpload *)

Lemma nonempty_strings vs :
  Forall nonempty_string vs ->
  exists ids, vs = map VString ids /\ Forall (fun id => id <> []) ids.
Proof.
  induction 1 as [|v vs [s [-> Hs]] _ [ids [-> Hids]]].
  - now exists [].
  - exists (s :: ids). split; [reflexivity | now constructor].
Qed.

(** X13.  What [validateFeeds] returns is valid, and fit for
    [bundleAndUpload].  The value it returns is an array of 1 to 100
    non-empty strings, which it would return again as it is; and called
    with these strings as ids, [bundleAndUpload] does not fail its
    assertion. *)
Theorem validateFeeds_returns_valid_ids :
  forall (v v' : JsValue),
    validateFeeds v = inr v' ->
    validateFeeds v' = inr v'
    /\ exists id ids,
         v' = VArray (map VString (id :: ids))
         /\ List.length (id :: ids) <= 100
         /\ Forall (fun i => i <> []) (id :: ids)
         /\ forall (bundleJS bundleCSS : list JsValue -> JsError + jsstring)
                   (St : Type) (sink : Sink St) (type uri0 : jsstring)
                   (sched : list nat) (w w' : World St) (msg : jsstring),
              bundleAndUpload bundleJS bundleCSS sink type
                (IdArray (id :: ids)) uri0 sched w
              <> Some (inl (AssertionError msg), w').
Proof.
  intros v v' Hv. unfold validateFeeds in Hv.
  destruct (Joi.error (Joi.validate schemas.ids v)) as [e|] eqn:Herr;
    [discriminate|].
  injection Hv as <-.
  destruct (validate_ids_accepts v Herr) as [vs [-> [Hlen Hall]]].
  destruct (validate_ids_array vs) as [Hvalue Hiff].
  split.
  - unfold validateFeeds.
    rewrite (proj2 Hiff (conj Hlen Hall)), Hvalue. reflexivity.
  - destruct (nonempty_strings vs Hall) as [strs [-> Hstrs]].
    rewrite length_map in Hlen.
    destruct strs as [|id ids]; [simpl in Hlen; lia|].
    exists id, ids. split; [reflexivity|]. split; [lia|].
    split; [exact Hstrs|].
    intros bundleJS bundleCSS St sink type uri0 sched w w' msg.
    rewrite bundleAndUpload_steps.
    destruct (fetchFeeds sink (id :: ids) 3 sched w) as [[[b|raws] w1]|];
      try discriminate.
    destruct (parseFeeds raws) as [b|feeds]; try discriminate.
    destruct (bundleFeeds bundleJS bundleCSS feeds type) as [b|content];
      try discriminate.
    cbv zeta.
    remember (createHashFromContent content ++ js "." ++ type) as name
      eqn:Hname.
    clear Hname.
    destruct (upload sink name content 3 w1) as [[[b|u] w2]|];
      discriminate.
Qed.

Lemma validateFeeds_returns_valid_ids_witness :
  validateFeeds (VArray [VString (js "a.json"); VString (js "b.json")])
  = inr (VArray [VString (js "a.json"); VString (js "b.json")])
  /\ exists id ids,
       VArray [VString (js "a.json"); VString (js "b.json")]
       = VArray (map VString (id :: ids))
       /\ List.length (id :: ids) <= 100
       /\ Forall (fun i => i <> []) (id :: ids)
       /\ forall (bundleJS bundleCSS : list JsValue -> JsError + jsstring)
                 (St : Type) (sink : Sink St) (type uri0 : jsstring)
                 (sched : list nat) (w w' : World St) (msg : jsstring),
            bundleAndUpload bundleJS bundleCSS sink type
              (IdArray (id :: ids)) uri0 sched w
            <> Some (inl (AssertionError msg), w').
Proof.
  apply (validateFeeds_returns_valid_ids
           (VString (js "[" ++ [dquote] ++ js "a.json" ++ [dquote] ++ js ", "
                     ++ [dquote] ++ js "b.json" ++ [dquote] ++ js "]"))).
  vm_compute. reflexivity.
Defined.

(** ** schemas.fileName *)

Module AnchoredFacts.
Import Regex.

(** The test between anchors decides the language. *)
Lemma anchored_test_spec s : forall r, Anchored.test r s = true <-> matches r s.
Proof.
  unfold Anchored.test. induction s as [|c s IH]; intros r.
  - apply RegexFacts.nullable_spec.
  - cbn [fold_left]. rewrite IH. apply RegexFacts.deriv_spec.
Qed.

Lemma matches_one_of cs s :
  matches (Anchored.one_of cs) s <-> exists c, s = [c] /\ In c cs.
Proof.
  unfold Anchored.one_of. induction cs as [|d cs IH]; cbn [fold_right].
  - split; [inversion 1 | intros [c [_ []]]].
  - split.
    + inversion 1 as [| | | |r t u Hu|r t u Hu| |]; subst.
      * inversion Hu; subst. exists d. split; [reflexivity | now left].
      * apply IH in Hu as [c [-> Hin]]. exists c.
        split; [reflexivity | now right].
    + intros [c [-> [<-|Hin]]].
      * apply MAltL. constructor.
      * apply MAltR. apply IH. now exists c.
Qed.

Lemma matches_star_one_of cs s :
  matches (Star (Anchored.one_of cs)) s <-> Forall (fun c => In c cs) s.
Proof.
  split.
  - intros H. remember (Star (Anchored.one_of cs)) as r eqn:Hr.
    induction H; try discriminate.
    + constructor.
    + injection Hr as ->. apply matches_one_of in H as [c [-> Hin]].
      simpl. constructor; auto.
  - induction 1 as [|c s Hc _ IH].
    + constructor.
    + change (c :: s) with ([c] ++ s).
      constructor; [apply matches_one_of; now exists c | assumption].
Qed.

Lemma matches_plus_one_of cs s :
  matches (Anchored.plus (Anchored.one_of cs)) s
  <-> s <> [] /\ Forall (fun c => In c cs) s.
Proof.
  unfold Anchored.plus. split.
  - inversion 1 as [| | |r t u v Hu Hv| | | |]; subst.
    apply matches_one_of in Hu as [c [-> Hin]].
    apply matches_star_one_of in Hv.
    split; [discriminate | now constructor].
  - intros [Hne Hall]. destruct Hall as [|c s Hc Hs]; [congruence|].
    change (c :: s) with ([c] ++ s).
    constructor; [apply matches_one_of; now exists c
                 | now apply matches_star_one_of].
Qed.

(** The language of [[cs]+d(a|b)] for a class [cs], a character [d] and
    literals [a] and [b]. *)
Lemma matches_stem_ext cs d a b s :
  matches (Cat (Anchored.plus (Anchored.one_of cs))
             (Cat (Chr d) (Alt (lit a) (lit b)))) s
  <-> exists stem ext,
        s = stem ++ [d] ++ ext
        /\ stem <> []
        /\ Forall (fun c => In c cs) stem
        /\ (ext = a \/ ext = b).
Proof.
  split.
  - inversion 1 as [| | |r t stem v Hstem Hv| | | |]; subst.
    apply matches_plus_one_of in Hstem as [Hne Hall].
    inversion Hv as [| | |r t dot ext Hdot Hext| | | |]; subst.
    inversion Hdot; subst.
    exists stem, ext. split; [reflexivity|]. split; [exact Hne|].
    split; [exact Hall|].
    inversion Hext as [| | | |r t u Hu|r t u Hu| |]; subst;
      apply RegexFacts.matches_lit in Hu; auto.
  - intros [stem [ext [-> [Hne [Hall Hext]]]]].
    constructor; [now apply matches_plus_one_of|].
    constructor; [constructor|].
    destruct Hext as [->| ->];
      [apply MAltL | apply MAltR]; now apply RegexFacts.matches_lit.
Qed.

(** The language of the pattern of [schemas.fileName]. *)
Lemma matches_fileName_pattern s :
  matches schemas.fileName_pattern s <-> file_name_shape s.
Proof.
  exact (matches_stem_ext schemas.name_chars 46%N (js "json") (js "js") s).
Qed.

End AnchoredFacts.

(** X14.  The names [schemas.fileName] accepts.  A value passes exactly
    when it is a string that, put into lower case and trimmed, is made of
    one or more of the characters a-z, A-Z, 0-9, '.', '_' and '-' followed
    by '.json' or '.js'; what the validation returns for a string is the
    string in lower case and trimmed. *)
Theorem fileName_accepts_file_names :
  forall (toLowerCase trim_ : jsstring -> jsstring) (v : JsValue),
    (Joi.error (JoiString.validate toLowerCase trim_ schemas.fileName v) = None
     <-> exists text,
           v = VString text /\ file_name_shape (trim_ (toLowerCase text)))
    /\ (forall text,
          v = VString text ->
          Joi.value (JoiString.validate toLowerCase trim_ schemas.fileName v)
          = VString (trim_ (toLowerCase text))).
Proof.
  intros toLowerCase trim_ v.
  assert (Hshape_ne : ~ file_name_shape []).
  { intros [stem [ext [H [Hne _]]]]. destruct stem; [congruence | discriminate]. }
  destruct v as [| |b|n|text|vs|ms];
    try (split; [split; [discriminate | intros [t [H _]]; discriminate]
                | intros t H; discriminate]).
  unfold JoiString.validate, JoiString.convert.
  change (JoiString.to_lowercase schemas.fileName) with true.
  change (JoiString.trimmed schemas.fileName) with true.
  change (JoiString.pattern schemas.fileName)
    with (Some schemas.fileName_pattern).
  cbv beta iota.
  pose proof (AnchoredFacts.anchored_test_spec (trim_ (toLowerCase text))
                schemas.fileName_pattern) as Htest.
  rewrite AnchoredFacts.matches_fileName_pattern in Htest.
  destruct (trim_ (toLowerCase text)) as [|c rest] eqn:Hconv.
  - cbn [Joi.error Joi.value]. split.
    + split; [discriminate|]. intros [t [Ht Hs]]. injection Ht as <-.
      rewrite Hconv in Hs. contradiction.
    + intros t Ht. injection Ht as <-. now rewrite Hconv.
  - destruct (Anchored.test schemas.fileName_pattern (c :: rest)) eqn:Hm;
      cbn [Joi.error Joi.value].
    + split.
      * split; [|reflexivity]. intros _. exists text.
        split; [reflexivity|]. rewrite Hconv. now apply Htest.
      * intros t Ht. injection Ht as <-. now rewrite Hconv.
    + split.
      * split; [discriminate|]. intros [t [Ht Hs]]. injection Ht as <-.
        rewrite Hconv in Hs. apply Htest in Hs. congruence.
      * intros t Ht. injection Ht as <-. now rewrite Hconv.
Qed.

(** ** createHashFromContent and lone surrogates *)

Lemma utf8_app pre : forall post,
  Forall (fun d => Sha256.is_high_surrogate d = false) pre ->
  Sha256.utf8 (pre ++ post) = Sha256.utf8 pre ++ Sha256.utf8 post.
Proof.
  induction pre as [|c pre IH]; intros post Hpre; [reflexivity|].
  inversion Hpre as [|? ? Hc Hpre']; subst.
  cbn [app Sha256.utf8]. rewrite Hc, (IH post Hpre').
  destruct (c <? 128)%N; [reflexivity|].
  destruct (c <? 2048)%N; [reflexivity|].
  destruct (Sha256.is_low_surrogate c); now rewrite app_assoc.
Qed.

Lemma utf8_low_surrogate c post :
  Sha256.is_low_surrogate c = true ->
  Sha256.utf8 (c :: post) = Sha256.utf8_3 65533 ++ Sha256.utf8 post.
Proof.
  intros Hc. cbn [Sha256.utf8]. rewrite Hc.
  unfold Sha256.is_low_surrogate in Hc. apply andb_true_iff in Hc as [Hlo Hhi].
  apply N.leb_le in Hlo.
  replace (c <? 128)%N with false by (symmetry; apply N.ltb_ge; lia).
  replace (c <? 2048)%N with false by (symmetry; apply N.ltb_ge; lia).
  replace (Sha256.is_high_surrogate c) with false; [reflexivity|].
  symmetry. unfold Sha256.is_high_surrogate. apply andb_false_iff. right.
  apply N.leb_gt. lia.
Qed.

(** X15.  Contents that differ and share a name.  A low surrogate that no
    high surrogate precedes is hashed as U+FFFD is: a content with such a
    code unit and the content with U+FFFD in its place get the same hash,
    and so the same file name. *)
Theorem createHashFromContent_lone_surrogate :
  forall (pre post : jsstring) (c : N),
    Forall (fun d => Sha256.is_high_surrogate d = false) pre ->
    Sha256.is_low_surrogate c = true ->
    pre ++ c :: post <> pre ++ 65533%N :: post
    /\ createHashFromContent (pre ++ c :: post)
       = createHashFromContent (pre ++ 65533%N :: post).
Proof.
  intros pre post c Hpre Hc. split.
  - intros H. apply app_inv_head in H. injection H as ->. discriminate Hc.
  - unfold createHashFromContent. do 2 f_equal.
    rewrite !(utf8_app pre) by exact Hpre. f_equal.
    rewrite (utf8_low_surrogate c post Hc). reflexivity.
Qed.

Lemma createHashFromContent_lone_surrogate_witness :
  js "a" ++ 56320%N :: js "b" <> js "a" ++ 65533%N :: js "b"
  /\ createHashFromContent (js "a" ++ 56320%N :: js "b")
     = createHashFromContent (js "a" ++ 65533%N :: js "b").
Proof.
  apply (createHashFromContent_lone_surrogate (js "a") (js "b") 56320%N).
  - repeat constructor.
  - reflexivity.
Defined.

(** [schemas.fileName] with lower case and trimming as they are on ASCII:
    a name with capitals and blanks around it is accepted in lower case
    and trimmed; a path, a name with another ending and the empty string
    are refused. *)
Example fileName_examples :
  JoiString.validate AsciiExamples.toLowerCase AsciiExamples.trim
    schemas.fileName (VString (js "  Feed-A.JSON "))
  = Joi.mkResult None (VString (js "feed-a.json"))
  /\ Joi.error (JoiString.validate AsciiExamples.toLowerCase
                  AsciiExamples.trim schemas.fileName
                  (VString (js "feeds/a.json")))
     <> None
  /\ Joi.error (JoiString.validate AsciiExamples.toLowerCase
                  AsciiExamples.trim schemas.fileName
                  (VString (js "a.jsonp")))
     <> None
  /\ Joi.error (JoiString.validate AsciiExamples.toLowerCase
                  AsciiExamples.trim schemas.fileName (VString (js "   ")))
     <> None
  /\ Joi.error (JoiString.validate AsciiExamples.toLowerCase
                  AsciiExamples.trim schemas.fileName (VString (js ".js")))
     <> None.
Proof.
  split; [vm_compute; reflexivity|].
  repeat split; vm_compute; discriminate.
Qed.

(** ** Enough turns *)

Lemma fetchFeeds_calls_bound (St : Type) (sink : Sink St) ids retries sched
  (w w' : World St) r :
  fetchFeeds sink ids retries sched w = Some (r, w') ->
  exists delta,
    calls w' = calls w ++ delta
    /\ List.length delta <= List.length ids * S retries.
Proof.
  intros Hfetch.
  destruct (fetch_steps sink retries ids sched (fetch_init ids, w))
    as [st2 w2] eqn:Hrun.
  rewrite (fetchFeeds_unfold St sink retries ids sched w st2 w2 Hrun) in Hfetch.
  assert (w2 = w') as ->.
  { destruct (all st2); [discriminate | |]; now injection Hfetch. }
  destruct (fetch_run_history St sink retries ids sched w st2 w' Hrun)
    as [Hgets [Hlen [_ Hhist]]].
  destruct (fetch_steps_replay St sink retries ids sched _ _ _ _ Hrun)
    as [delta [Hcalls _]].
  rewrite (new_calls_app w w' delta Hcalls) in Hgets, Hhist.
  exists delta. split; [exact Hcalls|].
  apply calls_bound; [exact Hgets|].
  intros i. destruct (nth_error ids i) as [file|] eqn:Hid.
  - destruct (nth_error (ops st2) i) as [op|] eqn:Hop.
    + apply (fetch_history_length retries file _ op). now apply Hhist.
    + apply nth_error_None in Hop.
      assert (i < List.length ids) by (apply nth_error_Some; congruence).
      lia.
  - rewrite (responses_out_of_range ids); auto. simpl. lia.
Qed.

(** X16.  [fetchFeeds] settles.  Once every fetch has had more turns than
    the budget has retries, [fetchFeeds] has returned or thrown. *)
Theorem fetchFeeds_settles_after_enough_turns :
  forall (St : Type) (sink : Sink St) (ids : list jsstring) (retries : nat)
         (sched : list nat) (w : World St),
    (forall i, i < List.length ids ->
               retries < count_occ Nat.eq_dec sched i) ->
    exists r w', fetchFeeds sink ids retries sched w = Some (r, w').
Proof.
  intros St sink ids retries sched w Hturns.
  destruct (fetchFeeds_settles St sink retries ids sched w Hturns)
    as [r [w' Hfetch]].
  exists r, w'. exact Hfetch.
Qed.

Lemma fetchFeeds_settles_after_enough_turns_witness :
  exists r w',
    fetchFeeds Examples.SinkFlaky [js "feedA.json"; js "nope.json"] 1
      [0; 1; 1; 0] (Examples.world (3, Examples.two_feeds))
    = Some (r, w').
Proof.
  apply (fetchFeeds_settles_after_enough_turns (nat * Examples.Db)
           Examples.SinkFlaky [js "feedA.json"; js "nope.json"] 1
           [0; 1; 1; 0] (Examples.world (3, Examples.two_feeds))).
  intros [|[|i]] Hi; simpl in *; lia.
Defined.

(** X17.  [bundleAndUpload] settles, within bounds.  Once every fetch has
    had four turns, [bundleAndUpload] has returned or thrown, and it has
    called the sink at most four times for each id and four times for the
    bundle. *)
Theorem bundleAndUpload_settles_within_bounds :
  forall (bundleJS bundleCSS : list JsValue -> JsError + jsstring)
         (St : Type) (sink : Sink St) (type uri0 : jsstring)
         (ids : list jsstring) (sched : list nat) (w : World St),
    (forall i, i < List.length ids -> 3 < count_occ Nat.eq_dec sched i) ->
    exists r w',
      bundleAndUpload bundleJS bundleCSS sink type (IdArray ids) uri0 sched w
      = Some (r, w')
      /\ List.length (new_calls w w') <= List.length ids * 4 + 4.
Proof.
  intros bundleJS bundleCSS St sink type uri0 ids sched w Hturns.
  destruct ids as [|id ids].
  { eexists. exists w. split; [reflexivity|]. rewrite new_calls_same.
    simpl. lia. }
  rewrite bundleAndUpload_steps.
  destruct (fetchFeeds_settles St sink 3 (id :: ids) sched w Hturns)
    as [r [w1 Hfetch]].
  destruct (fetchFeeds_calls_bound St sink _ _ _ _ _ _ Hfetch)
    as [delta [Hcalls Hbound]].
  rewrite Hfetch.
  assert (Hstop : List.length (new_calls w w1)
                  <= List.length (id :: ids) * 4 + 4).
  { rewrite (new_calls_app w w1 delta Hcalls). lia. }
  destruct r as [b|raws]; [eauto|].
  destruct (parseFeeds raws) as [b|feeds]; [eauto|].
  destruct (bundleFeeds bundleJS bundleCSS feeds type) as [b|content];
    [eauto|].
  cbv zeta.
  remember (createHashFromContent content ++ js "." ++ type) as name
    eqn:Hname.
  clear Hname.
  destruct (upload_sets St sink name content 3 w1)
    as [ru [w2 [errs [last [st1 [Hup [_ [_ [Hcalls2 [_ [Hle _]]]]]]]]]]].
  rewrite Hup.
  assert (Hall : calls w2
                 = calls w ++ delta ++ failed_sets name content errs
                   ++ [SetCall name content last]).
  { now rewrite Hcalls2, Hcalls, <- app_assoc. }
  assert (Hlen : List.length (new_calls w w2)
                 <= List.length (id :: ids) * 4 + 4).
  { rewrite (new_calls_app w w2 _ Hall), !length_app.
    unfold failed_sets. rewrite length_map. simpl List.length in *. lia. }
  destruct ru as [b|u]; eauto.
Qed.

Lemma bundleAndUpload_settles_within_bounds_witness :
  exists r w',
    bundleAndUpload Examples.join_sources Examples.broken_bundler
      Examples.SinkFlaky (js "js") (IdArray [js "feedA.json"]) (js "/")
      [0; 0; 0; 0] (Examples.world (2, Examples.two_feeds))
    = Some (r, w')
    /\ List.length (new_calls (Examples.world (2, Examples.two_feeds)) w')
       <= 1 * 4 + 4.
Proof.
  apply (bundleAndUpload_settles_within_bounds Examples.join_sources
           Examples.broken_bundler (nat * Examples.Db) Examples.SinkFlaky
           (js "js") (js "/") [js "feedA.json"] [0; 0; 0; 0]
           (Examples.world (2, Examples.two_feeds))).
  intros [|i] Hi; simpl in *; lia.
Defined.

(** ** A sink whose reads leave it as it is *)

Lemma fetchFeeds_success_calls (St : Type) (sink : Sink St) ids retries sched
  (w w' : World St) raws :
  fetchFeeds sink ids retries sched w = Some (inr raws, w') ->
  List.length raws = List.length ids
  /\ forall i file,
       nth_error ids i = Some file ->
       exists raw, nth_error raws i = Some raw
                   /\ In (GetCall i file (inr raw)) (new_calls w w').
Proof.
  intros Hfetch.
  destruct (fetch_steps sink retries ids sched (fetch_init ids, w))
    as [st2 w2] eqn:Hrun.
  rewrite (fetchFeeds_unfold St sink retries ids sched w st2 w2 Hrun) in Hfetch.
  destruct (fetch_run_history St sink retries ids sched w st2 w2 Hrun)
    as [Hgets [Hlen [Hagree Hhist]]].
  unfold all_agrees in Hagree.
  destruct (all st2) as [|vs|e]; try discriminate.
  injection Hfetch as <- <-.
  split; [rewrite (all_fulfilled_length _ _ Hagree); exact Hlen|].
  intros i file Hid.
  destruct (nth_error (ops st2) i) as [op|] eqn:Hop.
  2:{ apply nth_error_None in Hop.
      assert (i < List.length ids) by (apply nth_error_Some; congruence).
      lia. }
  destruct (all_fulfilled_nth _ _ _ _ Hagree Hop) as [raw [Hraw Hnth]].
  destruct (Hhist i file op Hid Hop) as [errs [_ [_ Hrs]]].
  rewrite Hraw in Hrs. destruct Hrs as [Hrs _].
  exists raw. split; [exact Hnth|].
  apply (responses_in_calls ids); auto.
  rewrite Hrs. apply in_or_app. right. now left.
Qed.

Lemma fetchFeeds_failure_calls (St : Type) (sink : Sink St) ids retries sched
  (w w' : World St) b :
  fetchFeeds sink ids retries sched w = Some (inl b, w') ->
  exists i file last,
    nth_error ids i = Some file
    /\ In (GetCall i file (inl last)) (new_calls w w').
Proof.
  intros Hfetch.
  destruct (fetch_steps sink retries ids sched (fetch_init ids, w))
    as [st2 w2] eqn:Hrun.
  rewrite (fetchFeeds_unfold St sink retries ids sched w st2 w2 Hrun) in Hfetch.
  destruct (fetch_run_history St sink retries ids sched w st2 w2 Hrun)
    as [Hgets [Hlen [Hagree Hhist]]].
  unfold all_agrees in Hagree.
  destruct (all st2) as [|vs|e]; try discriminate.
  injection Hfetch as _ <-.
  destruct Hagree as [i [op [Hop Hrej]]].
  destruct (nth_error ids i) as [file|] eqn:Hid.
  2:{ apply nth_error_None in Hid.
      assert (i < List.length (ops st2)) by (apply nth_error_Some; congruence).
      lia. }
  destruct (Hhist i file op Hid Hop) as [errs [_ [_ Hrs]]].
  rewrite Hrej in Hrs. destruct Hrs as [last [Hrs _]].
  exists i, file, last. split; [exact Hid|].
  apply (responses_in_calls ids); auto.
  rewrite Hrs. apply in_or_app. right. now left.
Qed.

Lemma Forall2_of_nth_error {A B} (P : A -> B -> Prop) l : forall l',
  List.length l' = List.length l ->
  (forall i a, nth_error l i = Some a ->
               exists b, nth_error l' i = Some b /\ P a b) ->
  Forall2 P l l'.
Proof.
  induction l as [|a l IH]; intros [|b l'] Hlen H; try discriminate.
  - constructor.
  - constructor.
    + destruct (H 0 a eq_refl) as [b' [Hb HP]]. injection Hb as <-. exact HP.
    + apply IH; [now injection Hlen|]. intros i x Hi. apply (H (S i) x Hi).
Qed.

Lemma Forall2_functional {A B} (P : A -> B -> Prop) l : forall l1 l2,
  (forall a b1 b2, P a b1 -> P a b2 -> b1 = b2) ->
  Forall2 P l l1 -> Forall2 P l l2 -> l1 = l2.
Proof.
  intros l1 l2 Hfun H1. revert l2.
  induction H1 as [|a b1 l l1 Hab _ IH]; intros l2 H2; inversion H2; subst.
  - reflexivity.
  - f_equal; [eapply Hfun; eauto | now apply IH].
Qed.

Section Reads.

Variable St : Type.
Variable sink : Sink St.
Hypothesis get_reads : forall file st, snd (get sink file st) = st.

Variable retries : nat.
Variable ids : list jsstring.

(** Along a run the sink stays as it is, and every call is answered as
    the sink answers at the start. *)
Lemma fetch_steps_reads sched : forall st w st' w',
  fetch_steps sink retries ids sched (st, w) = (st', w') ->
  store w' = store w
  /\ exists delta,
       calls w' = calls w ++ delta
       /\ Forall (fun c => exists i file,
                    c = GetCall i file (fst (get sink file (store w))))
            delta.
Proof.
  induction sched as [|i0 sched IH]; intros st w st' w' Hrun.
  - simpl in Hrun. injection Hrun as <- <-. split; [reflexivity|].
    exists []. now rewrite app_nil_r.
  - change (fetch_steps sink retries ids (i0 :: sched) (st, w))
      with (fetch_steps sink retries ids sched
              (fetch_step sink retries ids i0 (st, w))) in Hrun.
    destruct (fetch_step_cases St sink retries ids i0 st w)
      as [[Hidle _] | [file0 [op0 [res [stx [Hid0 [Hop0 [Hp Hget]]]]]]]].
    + rewrite Hidle in Hrun. exact (IH st w st' w' Hrun).
    + rewrite (fetch_step_attempt St sink retries ids i0 st w file0 op0 res stx)
        in Hrun by assumption.
      cbv zeta in Hrun.
      assert (Hstx : stx = store w).
      { rewrite <- (get_reads file0 (store w)). now rewrite Hget. }
      assert (Hres : res = fst (get sink file0 (store w))) by now rewrite Hget.
      subst stx.
      apply IH in Hrun as [Hstore [delta [Hcalls Hall]]].
      cbn [store calls] in Hstore, Hcalls, Hall.
      split; [exact Hstore|].
      exists (GetCall i0 file0 res :: delta).
      split; [now rewrite Hcalls, <- app_assoc|].
      constructor; [exists i0, file0; now rewrite Hres | exact Hall].
Qed.

Lemma fetchFeeds_reads sched w w' r :
  fetchFeeds sink ids retries sched w = Some (r, w') ->
  store w' = store w
  /\ forall i file res,
       In (GetCall i file res) (new_calls w w') ->
       res = fst (get sink file (store w)).
Proof.
  intros Hfetch.
  destruct (fetch_steps sink retries ids sched (fetch_init ids, w))
    as [st2 w2] eqn:Hrun.
  rewrite (fetchFeeds_unfold St sink retries ids sched w st2 w2 Hrun) in Hfetch.
  assert (w2 = w') as ->.
  { destruct (all st2); [discriminate | |]; now injection Hfetch. }
  destruct (fetch_steps_reads sched _ _ _ _ Hrun)
    as [Hstore [delta [Hcalls Hall]]].
  split; [exact Hstore|].
  rewrite (new_calls_app w w' delta Hcalls).
  intros i file res Hin. rewrite Forall_forall in Hall.
  destruct (Hall _ Hin) as [j [f Heq]]. now injection Heq as _ -> ->.
Qed.

End Reads.

(** X18.  The schedule does not matter to a success.  Let [sink.get] leave
    the sink as it is.  If [fetchFeeds] returns feeds under one schedule,
    then under every schedule under which it settles, started with the
    sink in the same state, it returns the same feeds: for each id what
    [sink.get] resolves with for it; and the sink is left as it was. *)
Theorem fetchFeeds_schedule_independent :
  forall (St : Type) (sink : Sink St) (ids : list jsstring) (retries : nat)
         (sched sched' : list nat) (w wb w1 w2 : World St)
         (raws : list jsstring) (r : BoomError + list jsstring),
    (forall file st, snd (get sink file st) = st) ->
    store wb = store w ->
    fetchFeeds sink ids retries sched w = Some (inr raws, w1) ->
    fetchFeeds sink ids retries sched' wb = Some (r, w2) ->
    r = inr raws
    /\ Forall2 (fun id raw => fst (get sink id (store w)) = inr raw) ids raws
    /\ store w1 = store w
    /\ store w2 = store w.
Proof.
  intros St sink ids retries sched sched' w wb w1 w2 raws r Hreads Hsame
         Hrun Hrun'.
  destruct (fetchFeeds_reads St sink Hreads retries ids sched w w1 _ Hrun)
    as [Hstore Hans].
  destruct (fetchFeeds_reads St sink Hreads retries ids sched' wb w2 _ Hrun')
    as [Hstore' Hans'].
  rewrite Hsame in Hstore', Hans'.
  destruct (fetchFeeds_success_calls St sink ids retries sched w w1 raws Hrun)
    as [Hlen Hcalls].
  assert (Hraws : Forall2 (fun id raw => fst (get sink id (store w)) = inr raw)
                    ids raws).
  { apply Forall2_of_nth_error; [exact Hlen|].
    intros i file Hid. destruct (Hcalls i file Hid) as [raw [Hnth Hin]].
    exists raw. split; [exact Hnth|]. symmetry. now apply (Hans i file). }
  split; [|now repeat split].
  destruct r as [b|raws'].
  - exfalso.
    destruct (fetchFeeds_failure_calls St sink ids retries sched' wb w2 b Hrun')
      as [i [file [last [Hid Hin]]]].
    apply Hans' in Hin.
    destruct (Hcalls i file Hid) as [raw [_ Hin1]]. apply Hans in Hin1.
    congruence.
  - f_equal.
    destruct (fetchFeeds_success_calls St sink ids retries sched' wb w2 raws'
                Hrun') as [Hlen' Hcalls'].
    apply (Forall2_functional
             (fun id raw => fst (get sink id (store w)) = inr raw) ids);
      [intros a b1 b2 H1 H2; congruence | | exact Hraws].
    apply Forall2_of_nth_error; [exact Hlen'|].
    intros i file Hid. destruct (Hcalls' i file Hid) as [raw [Hnth Hin]].
    exists raw. split; [exact Hnth|]. symmetry. now apply (Hans' i file).
Qed.

Lemma fetchFeeds_schedule_independent_witness :
  exists w2,
    fetchFeeds Examples.SinkMem [js "feedA.json"; js "feedB.json"] 0
      [1; 1; 0; 1] (Examples.world Examples.two_feeds)
    = Some (inr [Examples.feedA; Examples.feedB], w2).
Proof.
  destruct (fetchFeeds Examples.SinkMem [js "feedA.json"; js "feedB.json"] 0
              [1; 1; 0; 1] (Examples.world Examples.two_feeds))
    as [[r w2]|] eqn:Hrun'; [|vm_compute in Hrun'; discriminate Hrun'].
  exists w2.
  destruct (fetchFeeds_schedule_independent Examples.Db Examples.SinkMem
              [js "feedA.json"; js "feedB.json"] 0 [0; 1] [1; 1; 0; 1]
              (Examples.world Examples.two_feeds)
              (Examples.world Examples.two_feeds)
              {| store := Examples.two_feeds;
                 calls := [GetCall 0 (js "feedA.json") (inr Examples.feedA);
                           GetCall 1 (js "feedB.json") (inr Examples.feedB)] |}
              w2 [Examples.feedA; Examples.feedB] r)
    as [-> _].
  - intros file st. simpl. unfold Examples.mem_get.
    destruct (Examples.lookup file st); reflexivity.
  - reflexivity.
  - vm_compute. reflexivity.
  - exact Hrun'.
  - reflexivity.
Defined.

(** * Sinks with scripted answers *)

Lemma nth_nil {A} n (d : A) : nth n [] d = d.
Proof. destruct n; reflexivity. Qed.

(** The sink that answers from lists is scripted. *)
Lemma SinkScripted_scripted :
  scripted Examples.SinkScripted Examples.script_of.
Proof.
  split. intros ss file. cbn [get Examples.SinkScripted].
  induction ss as [|[name answers] ss IH].
  - exists []. repeat split.
  - cbn [Examples.scripted_get Examples.script_of].
    destruct (jsstring_eqb name file) eqn:Hname.
    + apply jsstring_eqb_eq in Hname. subst name.
      destruct answers as [|r rs].
      * eexists. split; [reflexivity|]. split.
        -- intros n. cbn [Examples.script_of]. rewrite jsstring_eqb_refl.
           now rewrite !nth_nil.
        -- intros f Hf n. reflexivity.
      * eexists. split; [reflexivity|]. split.
        -- intros n. cbn [Examples.script_of]. rewrite jsstring_eqb_refl.
           reflexivity.
        -- intros f Hf n. cbn [Examples.script_of].
           destruct (jsstring_eqb file f) eqn:Hf'; [|reflexivity].
           apply jsstring_eqb_eq in Hf'. congruence.
    + destruct IH as [ss' [Hget [Hshift Hframe]]]. rewrite Hget.
      eexists. split; [reflexivity|]. split.
      * intros n. cbn [Examples.script_of]. rewrite Hname. apply Hshift.
      * intros f Hf n. cbn [Examples.script_of].
        destruct (jsstring_eqb name f); [reflexivity | now apply Hframe].
Qed.

(** The first answers of a script that begins with failures and then [y],
    set against failures and then [x]: the two agree, or one stops where
    the other still fails. *)
Lemma script_decides errs' :
  forall (s : nat -> JsError + jsstring) errs y x k,
    begins s (map inl errs ++ [y]) ->
    map s (seq 0 k) = map inl errs' ++ [x] ->
    (exists e, x = inl e /\ In e errs
               /\ List.length errs' < List.length errs)
    \/ (errs' = errs /\ x = y)
    \/ (exists e, y = inl e /\ In e errs'
                  /\ List.length errs < List.length errs').
Proof.
  induction errs' as [|e' errs' IH]; intros s errs y x k Hbegin Hmap.
  - destruct k as [|[|k]]; try discriminate. cbn in Hmap.
    injection Hmap as Hx. destruct errs as [|e errs].
    + right. left. split; [reflexivity|]. rewrite <- Hx.
      now apply (Hbegin 0 y).
    + left. exists e. rewrite <- Hx. split; [now apply (Hbegin 0 (inl e))|].
      split; [now left | simpl; lia].
  - destruct k as [|k]; [discriminate|].
    cbn [seq map app] in Hmap. injection Hmap as H0 Hrest.
    rewrite <- seq_shift, map_map in Hrest.
    destruct errs as [|e errs].
    + right. right. exists e'. split; [|split; [now left | simpl; lia]].
      rewrite <- H0. symmetry. now apply (Hbegin 0 y).
    + assert (e = e') as ->.
      { pose proof (Hbegin 0 (inl e) eq_refl) as H. congruence. }
      destruct (IH (fun n => s (S n)) errs y x k) as [H|[H|H]].
      * intros n r Hn. apply (Hbegin (S n) r). exact Hn.
      * exact Hrest.
      * destruct H as [e1 [Hx [Hin Hlen]]]. left. exists e1.
        split; [exact Hx|]. split; [now right | simpl; lia].
      * destruct H as [-> ->]. right. left. now split.
      * destruct H as [e1 [Hy [Hin Hlen]]]. right. right. exists e1.
        split; [exact Hy|]. split; [now right | simpl; lia].
Qed.

(** A fetch that has had more turns than the budget has retries is
    settled. *)
Lemma fetch_settled_after_turns (St : Type) (sink : Sink St) retries ids
  sched (w : World St) st' w' i op :
  fetch_steps sink retries ids sched (fetch_init ids, w) = (st', w') ->
  nth_error (ops st') i = Some op ->
  retries < count_occ Nat.eq_dec sched i ->
  settled op <> Pending.
Proof.
  intros Hrun Hop Hturns Hp.
  destruct (fetch_steps_turns St sink retries ids sched (fetch_init ids) w
              (fetch_init_length ids)) as [Hlen [Hinv Hcount]].
  { intros j o Ho _. simpl in Ho. rewrite nth_error_map in Ho.
    destruct (nth_error ids j); simpl in Ho; [|discriminate].
    injection Ho as <-. simpl. split; [reflexivity | lia]. }
  rewrite Hrun in Hlen, Hinv, Hcount. cbn [fst] in Hlen, Hinv, Hcount.
  assert (Hlt : i < List.length ids).
  { rewrite <- Hlen. apply nth_error_Some. congruence. }
  destruct (nth_error ids i) as [file|] eqn:Hid;
    [|apply nth_error_None in Hid; lia].
  destruct (Hcount i new_operation op (fetch_init_nth ids i file Hid) Hop Hp)
    as [_ Hatt].
  destruct (Hinv i op Hop Hp) as [Heq Hle].
  simpl in Hatt. lia.
Qed.

Section Scripted.

Variable St : Type.
Variable sink : Sink St.
Variable script : St -> jsstring -> nat -> JsError + jsstring.
Hypothesis sink_scripted : scripted sink script.

Variable retries : nat.
Variable ids : list jsstring.
Hypothesis ids_distinct : NoDup ids.

Lemma distinct_files i j file :
  nth_error ids i = Some file -> nth_error ids j = Some file -> i = j.
Proof.
  intros Hi Hj. apply (proj1 (NoDup_nth_error ids) ids_distinct).
  - apply nth_error_Some. congruence.
  - congruence.
Qed.

(** Along a run the calls of each fetch are answered by the script of its
    file, one answer after the other. *)
Lemma fetch_steps_scripted sched : forall st w st' w',
  fetch_steps sink retries ids sched (st, w) = (st', w') ->
  exists delta,
    calls w' = calls w ++ delta
    /\ forall i file,
         nth_error ids i = Some file ->
         responses i delta
         = map (script (store w) file)
             (seq 0 (List.length (responses i delta)))
         /\ forall n, script (store w') file n
                      = script (store w) file
                          (List.length (responses i delta) + n).
Proof.
  induction sched as [|i0 sched IH]; intros st w st' w' Hrun.
  - simpl in Hrun. injection Hrun as <- <-. exists []. rewrite app_nil_r.
    split; [reflexivity|]. intros i file Hid. split; reflexivity.
  - change (fetch_steps sink retries ids (i0 :: sched) (st, w))
      with (fetch_steps sink retries ids sched
              (fetch_step sink retries ids i0 (st, w))) in Hrun.
    destruct (fetch_step_cases St sink retries ids i0 st w)
      as [[Hidle _] | [file0 [op0 [res [stx [Hid0 [Hop0 [Hp Hget]]]]]]]].
    + rewrite Hidle in Hrun. exact (IH st w st' w' Hrun).
    + rewrite (fetch_step_attempt St sink retries ids i0 st w file0 op0 res stx)
        in Hrun by assumption.
      cbv zeta in Hrun.
      destruct (@get_next _ _ _ sink_scripted (store w) file0)
        as [stn [Hget' [Hshift Hframe]]].
      rewrite Hget' in Hget. injection Hget as <- <-.
      apply IH in Hrun as [delta [Hcalls Hall]].
      cbn [store calls] in Hcalls, Hall.
      exists (GetCall i0 file0 (script (store w) file0 0) :: delta).
      split; [rewrite Hcalls, <- app_assoc; reflexivity|].
      intros i file Hid. destruct (Hall i file Hid) as [Hresp Hscript].
      cbn [responses]. destruct (Nat.eqb_spec i i0) as [->|Hne].
      * assert (file = file0) by congruence. subst file.
        cbn [List.length]. split.
        -- cbn [seq map]. f_equal. rewrite <- seq_shift, map_map.
           etransitivity; [exact Hresp|]. apply map_ext. intros n.
           apply Hshift.
        -- intros n. rewrite Hscript, Hshift. reflexivity.
      * assert (Hfile : file <> file0).
        { intros ->. apply Hne. now apply (distinct_files i i0 file0). }
        split.
        -- etransitivity; [exact Hresp|]. apply map_ext. intros n.
           now apply Hframe.
        -- intros n. rewrite Hscript. now apply Hframe.
Qed.

(** The calls of a settled fetch took the answers of the script up to the
    first that is not retried. *)
Lemma scripted_fetch_answers sched w st' w' i file op errs y :
  fetch_steps sink retries ids sched (fetch_init ids, w) = (st', w') ->
  nth_error ids i = Some file ->
  nth_error (ops st') i = Some op ->
  settled op <> Pending ->
  Forall transient_get errs ->
  List.length errs <= retries ->
  (forall e, y = inl e -> transient_get e -> List.length errs = retries) ->
  begins (script (store w) file) (map inl errs ++ [y]) ->
  responses i (new_calls w w') = map inl errs ++ [y].
Proof.
  intros Hrun Hid Hop Hsettled Htr Hle Hlast Hbegin.
  destruct (fetch_run_history St sink retries ids sched w st' w' Hrun)
    as [_ [_ [_ Hhist]]].
  specialize (Hhist i file op Hid Hop).
  destruct (fetch_steps_scripted sched _ _ _ _ Hrun)
    as [delta [Hcalls Hall]].
  rewrite (new_calls_app w w' delta Hcalls) in *.
  destruct (Hall i file Hid) as [Hresp _].
  remember (responses i delta) as rs eqn:Hrs.
  remember (List.length rs) as k eqn:Hk. clear Hrs Hk Hall Hcalls.
  destruct Hhist as [errs' [Htr' [Hle' Hshape]]].
  assert (Hcases : forall x,
             rs = map inl errs' ++ [x] ->
             (forall e, x = inl e ->
                (includes (js "No file with name") (message e) = true
                 \/ is_TypeError e = true
                 \/ (transient_get e /\ List.length errs' = retries))) ->
             rs = map inl errs ++ [y]).
  { intros x Hx Hcause. rewrite Hx in Hresp. symmetry in Hresp.
    destruct (script_decides errs' _ errs y x k Hbegin Hresp)
      as [[e [He [Hin Hlen]]] | [[-> ->] | [e [Hy [Hin Hlen]]]]].
    - exfalso. rewrite Forall_forall in Htr.
      destruct (Htr e Hin) as [Hte Hnf].
      destruct (Hcause e He) as [H|[H|[_ H]]]; [congruence | congruence | lia].
    - exact Hx.
    - exfalso. rewrite Forall_forall in Htr'.
      specialize (Hlast e Hy (Htr' e Hin)). lia. }
  destruct (settled op) as [|raw|e] eqn:Hs; [congruence | |].
  - destruct Hshape as [Hrs _]. apply (Hcases (inr raw) Hrs).
    intros e0 He. discriminate He.
  - destruct Hshape as [last [Hrs [_ Hcause]]]. apply (Hcases (inl last) Hrs).
    intros e0 He. injection He as <-.
    destruct Hcause as [[H _]|[[_ [H _]]|[H [H' _]]]];
      [now left | right; now left | right; right; now split].
Qed.

(** A fetch whose script fails for good makes [fetchFeeds] fail. *)
Lemma scripted_fetch_fails sched w i file errs e :
  nth_error ids i = Some file ->
  Forall transient_get errs ->
  List.length errs <= retries ->
  (transient_get e -> List.length errs = retries) ->
  begins (script (store w) file) (map inl errs ++ [inl e]) ->
  (forall j, j < List.length ids -> retries < count_occ Nat.eq_dec sched j) ->
  exists b w',
    fetchFeeds sink ids retries sched w = Some (inl b, w')
    /\ responses i (new_calls w w') = map inl errs ++ [inl e]
    /\ statusCode b = fetch_status (original b)
    /\ starts_with (js "Unable to fetch 1 or more feeds from storage.")
         (bmessage b) = true.
Proof.
  intros Hid Htr Hle Hlast Hbegin Hfair.
  destruct (fetch_steps sink retries ids sched (fetch_init ids, w))
    as [st' w'] eqn:Hrun.
  destruct (fetch_run_history St sink retries ids sched w st' w' Hrun)
    as [_ [Hlen [Hagree Hhist]]].
  assert (Hlt : i < List.length ids) by (apply nth_error_Some; congruence).
  destruct (nth_error (ops st') i) as [op|] eqn:Hop;
    [|apply nth_error_None in Hop; lia].
  pose proof (fetch_settled_after_turns St sink retries ids sched w st' w' i op
                Hrun Hop (Hfair i Hlt)) as Hsettled.
  assert (Hresp : responses i (new_calls w w') = map inl errs ++ [inl e]).
  { apply (scripted_fetch_answers sched w st' w' i file op errs (inl e));
      auto.
    intros e0 He0. injection He0 as <-. exact Hlast. }
  assert (Hrej : exists m, settled op = Rejected m).
  { destruct (Hhist i file op Hid Hop) as [errs' [_ [_ Hshape]]].
    destruct (settled op) as [|raw|m]; [congruence | | now exists m].
    destruct Hshape as [Hrs _]. rewrite Hresp in Hrs.
    apply app_inj_tail in Hrs as [_ Hrs]. discriminate Hrs. }
  destruct Hrej as [m Hm].
  destruct (rejected_fetch_rejects_all st' i op m Hagree Hop Hm) as [e' He'].
  rewrite (fetchFeeds_unfold St sink retries ids sched w st' w' Hrun), He'.
  eexists. exists w'. split; [reflexivity|]. split; [exact Hresp|].
  split; [reflexivity|].
  apply starts_with_spec. eexists. reflexivity.
Qed.

(** Scripts that give every fetch its feed after failures within the
    budget make [fetchFeeds] return the feeds. *)
Lemma scripted_fetch_succeeds sched w raws (errss : nat -> list JsError) :
  List.length raws = List.length ids ->
  (forall i file,
     nth_error ids i = Some file ->
     Forall transient_get (errss i)
     /\ List.length (errss i) <= retries
     /\ begins (script (store w) file)
          (map inl (errss i) ++ [inr (nth i raws [])])) ->
  (forall j, j < List.length ids -> retries < count_occ Nat.eq_dec sched j) ->
  exists w',
    fetchFeeds sink ids retries sched w = Some (inr raws, w')
    /\ forall i, i < List.length ids ->
         responses i (new_calls w w')
         = map inl (errss i) ++ [inr (nth i raws [])].
Proof.
  intros Hraws Hscripts Hfair.
  destruct (fetch_steps sink retries ids sched (fetch_init ids, w))
    as [st' w'] eqn:Hrun.
  destruct (fetch_run_history St sink retries ids sched w st' w' Hrun)
    as [_ [Hlen _]].
  assert (Hresp : forall i, i < List.length ids ->
            responses i (new_calls w w')
            = map inl (errss i) ++ [inr (nth i raws [])]).
  { intros i Hlt.
    destruct (nth_error ids i) as [file|] eqn:Hid;
      [|apply nth_error_None in Hid; lia].
    destruct (nth_error (ops st') i) as [op|] eqn:Hop;
      [|apply nth_error_None in Hop; lia].
    destruct (Hscripts i file Hid) as [Htr [Hle Hbegin]].
    apply (scripted_fetch_answers sched w st' w' i file op (errss i)
             (inr (nth i raws []))); auto.
    - apply (fetch_settled_after_turns St sink retries ids sched w st' w' i op
               Hrun Hop (Hfair i Hlt)).
    - intros e He. discriminate He. }
  exists w'. split; [|exact Hresp].
  apply (fetchFeeds_retry_success St sink retries ids sched w st' w' raws Hrun
           Hraws).
  intros i Hlt. exists (errss i).
  destruct (nth_error ids i) as [file|] eqn:Hid;
    [|apply nth_error_None in Hid; lia].
  destruct (Hscripts i file Hid) as [Htr [Hle _]].
  split; [now apply Hresp | now split].
Qed.

End Scripted.

(** ** Bounded retry *)

(** A [TypeError] of [sink.set] ends the upload at once. *)
Lemma upload_type_error (St : Type) (sink : Sink St) retries fileName content
  (w : World St) errs e st1 st2 :
  set_fails sink fileName content errs (store w) st1 ->
  set sink fileName content st1 = (inl e, st2) ->
  is_TypeError e = true ->
  Forall (fun e => is_TypeError e = false) errs ->
  List.length errs <= retries ->
  upload sink fileName content retries w
  = Some (inl (boomify e None
                 (js "Unable to upload bundle with fileName " ++ [dquote]
                  ++ fileName ++ [dquote] ++ js " to storage.")),
          {| store := st2;
             calls := calls w ++ failed_sets fileName content errs
                      ++ [SetCall fileName content (inl e)] |}).
Proof.
  intros Hfails Hset Hte Hnte Hlen. unfold upload, pretry.
  rewrite (pretry_loop_set_fails St sink retries fileName content errs
             new_operation w st1 (S retries))
    by (simpl; auto; lia).
  replace (S retries - List.length errs)
    with (S (retries - List.length errs)) by lia.
  rewrite pretry_loop_step. unfold pretry_attempt. cbn [settled].
  rewrite (sink_set_result St sink fileName content _ (inl e) st2)
    by exact Hset.
  unfold pretry_settle. rewrite Hte. cbn [calls store].
  rewrite pretry_loop_settled by (simpl; discriminate).
  cbn [settled]. now rewrite <- app_assoc.
Qed.




(** ** Absent or failing: the message decides *)

(** C10.  Whether a failure of [sink.get] counts as a permanent absence is
    decided by its message alone.  Take any sink, ids and budget, any run
    of [fetchFeeds], and in it a turn of the fetch of [file] at which it
    is pending and [sink.get(file)] rejects with [err].
    If the message of [err] includes 'No file with name', then whatever
    kind of error [err] is, whatever is left of the budget and however the
    run goes on, this call is the last for the file and [fetchFeeds]
    fails; if no fetch had failed before, what it throws is the error
    'File "<file>" not found.', with status 404 exactly when that message
    has a part that reads 'File "', any characters but line terminators,
    'json" not found': so for every file whose name ends in "json", with a
    dot before it or without.
    If the message does not include it (and [err] is no [TypeError], and
    the budget is not used up), the fetch stays pending with [err] among
    its errors, and at its next turn calls [sink.get] for the file again.
    In every case the status of a failure of [fetchFeeds] is 404 or 500
    by the message of the error it wraps, and by nothing else. *)
Theorem fetchFeeds_classifies_by_message :
  forall (St : Type) (sink : Sink St) (ids : list jsstring) (retries : nat)
         (sched1 : list nat) (i : nat) (file : jsstring)
         (w : World St) (st1 : FetchState) (w1 : World St)
         (op : Operation jsstring) (err : JsError) (stx : St),
    nth_error ids i = Some file ->
    fetch_steps sink retries ids sched1 (fetch_init ids, w) = (st1, w1) ->
    nth_error (ops st1) i = Some op ->
    settled op = Pending ->
    get sink file (store w1) = (inl err, stx) ->
    (includes (js "No file with name") (message err) = true ->
     forall sched2,
     exists w2 b,
       fetchFeeds sink ids retries (sched1 ++ i :: sched2) w
       = Some (inl b, w2)
       /\ responses i (new_calls w1 w2) = [inl err]
       /\ (statusCode b = 404%N
           <-> says_json_not_found (message (original b)))
       /\ (statusCode b <> 404%N -> statusCode b = 500%N)
       /\ (all st1 = Pending ->
           original b
           = new_Error (js "File " ++ [dquote] ++ file ++ [dquote]
                        ++ js " not found.")
           /\ (statusCode b = 404%N
               <-> says_json_not_found
                     (js "File " ++ [dquote] ++ file ++ [dquote]
                      ++ js " not found."))
           /\ (forall stem,
                 file = stem ++ js "json" ->
                 no_line_terminator stem ->
                 statusCode b = 404%N)))
    /\ (includes (js "No file with name") (message err) = false ->
        is_TypeError err = false ->
        List.length (errors op) < retries ->
        forall res2 stx2,
          get sink file stx = (res2, stx2) ->
          exists st3,
            fetch_steps sink retries ids (sched1 ++ [i; i])
              (fetch_init ids, w)
            = (st3,
               {| store := stx2;
                  calls := calls w1 ++ [GetCall i file (inl err);
                                        GetCall i file res2] |})
            /\ nth_error (ops st3) i
               = Some (pretry_settle retries
                         (mkOp (S (attempts op)) (errors op ++ [err]) Pending)
                         (run_outcome file res2)))
    /\ (forall sched0 w0 w' b,
          fetchFeeds sink ids retries sched0 w0 = Some (inl b, w') ->
          (statusCode b = 404%N
           <-> says_json_not_found (message (original b)))
          /\ (statusCode b <> 404%N -> statusCode b = 500%N)).
Proof.
  intros St sink ids retries sched1 i file w st1 w1 op err stx
         Hid Hrun1 Hop Hp Hget.
  split; [|split].
  - intros Hnf sched2.
    destruct (fetch_steps sink retries ids (sched1 ++ i :: sched2)
                (fetch_init ids, w)) as [st2 w2] eqn:Hrun.
    pose proof Hrun as Hrun2.
    rewrite fetch_steps_app, Hrun1 in Hrun2.
    change (fetch_steps sink retries ids (i :: sched2) (st1, w1))
      with (fetch_steps sink retries ids sched2
              (fetch_step sink retries ids i (st1, w1))) in Hrun2.
    rewrite (fetch_step_attempt St sink retries ids i st1 w1 file op
               (inl err) stx) in Hrun2 by assumption.
    cbv zeta in Hrun2. rewrite (run_outcome_not_found file err Hnf) in Hrun2.
    cbn [pretry_settle] in Hrun2.
    set (msg := js "File " ++ [dquote] ++ file ++ [dquote] ++ js " not found.")
      in *.
    set (op' := mkOp (S (attempts op)) (errors op) (Rejected (new_Error msg)))
      in *.
    destruct (fetch_steps_replay St sink retries ids sched2 _ _ _ _ Hrun2)
      as [delta [Hcalls [_ Hops]]].
    cbn [calls ops] in Hcalls, Hops.
    destruct (Hops i file op' Hid) as [Hfinal Hquiet].
    { eapply nth_error_update_nth_eq; eauto. }
    assert (Hnone : responses i delta = []) by (apply Hquiet; discriminate).
    rewrite Hnone in Hfinal. cbn [replay fold_left] in Hfinal.
    destruct (fetch_run_replay St sink retries ids _ w st2 w2 Hrun)
      as [Hinv _].
    destruct (rejected_fetch_rejects_all st2 i op' (new_Error msg) Hinv Hfinal
                eq_refl) as [e He].
    exists w2. eexists.
    split; [rewrite (fetchFeeds_unfold St sink retries ids _ w st2 w2 Hrun), He;
            reflexivity|].
    cbn [original statusCode boomify].
    split.
    { rewrite (new_calls_app w1 w2 ([GetCall i file (inl err)] ++ delta)).
      - cbn [app responses]. rewrite Nat.eqb_refl, Hnone. reflexivity.
      - now rewrite Hcalls, <- app_assoc. }
    split; [apply fetch_status_404|].
    split; [destruct (fetch_status_cases e); tauto|].
    intros Hall1.
    assert (He' : all st2 = Rejected (new_Error msg)).
    { pose proof (fetch_steps_all_settled St sink retries ids sched2
                    {| ops := update_nth i op' (ops st1);
                       all := Promise_all_update (all st1)
                                (update_nth i op' (ops st1)) op' |}
                    {| store := stx;
                       calls := calls w1 ++ [GetCall i file (inl err)] |})
        as Hkeep.
      rewrite Hrun2 in Hkeep. cbn [fst all] in Hkeep.
      rewrite Hall1 in Hkeep. cbn [Promise_all_update settled op'] in Hkeep.
      apply Hkeep. discriminate. }
    assert (e = new_Error msg) by congruence. subst e.
    split; [reflexivity|]. split; [apply fetch_status_404|].
    intros stem -> Hstem. now apply fetch_status_abort_json.
  - intros Hnf Hte Hbudget res2 stx2 Hget2.
    rewrite fetch_steps_app, Hrun1.
    change (fetch_steps sink retries ids [i; i] (st1, w1))
      with (fetch_step sink retries ids i
              (fetch_step sink retries ids i (st1, w1))).
    rewrite (fetch_step_attempt St sink retries ids i st1 w1 file op
               (inl err) stx) by assumption.
    cbv zeta. rewrite (run_outcome_transient file err (conj Hte Hnf)).
    rewrite (pretry_settle_retry retries op err Hte Hbudget).
    set (op' := mkOp (S (attempts op)) (errors op ++ [err]) Pending).
    rewrite (fetch_step_attempt St sink retries ids i _ _ file op' res2 stx2);
      [|exact Hid
       |cbn [ops]; apply (nth_error_update_nth_eq i op' op (ops st1) Hop)
       |reflexivity
       |exact Hget2].
    cbv zeta. cbn [ops calls]. eexists. split.
    + rewrite <- app_assoc. reflexivity.
    + cbn [ops].
      apply (nth_error_update_nth_eq i _ op'). 
      apply (nth_error_update_nth_eq i op' op (ops st1) Hop).
  - intros sched0 w0 w' b Hfail. unfold fetchFeeds in Hfail.
    destruct (fetch_steps sink retries ids sched0 (fetch_init ids, w0))
      as [st2 w2].
    destruct (all st2) as [|raws|e]; try discriminate.
    injection Hfail as <- _. cbn [original statusCode boomify].
    split; [apply fetch_status_404|].
    destruct (fetch_status_cases e); tauto.
Qed.

(** The sink in memory reports "notjson" missing: the call is the only
    one though three turns are given and the budget is three, and
    [fetchFeeds] fails with status 404. *)
Lemma fetchFeeds_classifies_by_message_witness :
  exists w2 b,
    fetchFeeds Examples.SinkMem [js "notjson"] 3 ([] ++ 0 :: [0; 0])
      (Examples.world [])
    = Some (inl b, w2)
    /\ responses 0 (new_calls (Examples.world []) w2)
       = [inl (new_Error (js "No file with name " ++ [dquote]
                          ++ js "notjson" ++ [dquote]))]
    /\ statusCode b = 404%N.
Proof.
  destruct (fetchFeeds_classifies_by_message Examples.Db Examples.SinkMem
              [js "notjson"] 3 [] 0 (js "notjson") (Examples.world [])
              (fetch_init [js "notjson"]) (Examples.world []) new_operation
              (new_Error (js "No file with name " ++ [dquote]
                          ++ js "notjson" ++ [dquote])) []
              eq_refl eq_refl eq_refl eq_refl eq_refl)
    as [Habort _].
  destruct (Habort eq_refl [0; 0]) as [w2 [b [Hrun [Hcalls [_ [_ Hfirst]]]]]].
  destruct (Hfirst eq_refl) as [_ [_ Hjson]].
  exists w2, b. split; [exact Hrun|]. split; [exact Hcalls|].
  apply (Hjson (js "not")); [reflexivity | repeat constructor].
Defined.

(** ** The name of the bundle *)

(** Called with a type that is neither 'js' nor 'css', [bundleAndUpload]
    bundles as JS and names the file after the type it was given. *)
Example bundleAndUpload_other_type :
  exists up w',
    bundleAndUpload Examples.join_sources Examples.broken_bundler
      Examples.SinkMem (js "png") (IdArray [js "feedA.json"])
      (js "http://host/bundle/") [0] (Examples.world Examples.two_feeds)
    = Some (inr up, w')
    /\ file up
       = js "81a68c14d1d9c91b5af330765479162cc3f8b4cc49f9df2fddd4d6ee7c36afa3.png".
Proof.
  eexists. eexists. split; [vm_compute; reflexivity|].
  cbn [file]. vm_compute. reflexivity.
Qed.

(** C9.  The types are 'js' and 'css'.  Whenever [bundleAndUpload]
    succeeds for one of them, the file it names is the SHA-256 digest of
    the UTF-8 bytes of the bundle, as 64 lower-case hexadecimal digits,
    followed by a dot and by 'js' or 'css', the type.  The bundle is the one
    of this run: what the bundler for the type made of the feeds that were
    fetched for the ids and parsed, and what the last call of [sink.set],
    the one that succeeded, stored under that name. *)
Theorem bundleAndUpload_file_format :
  forall (bundleJS bundleCSS : list JsValue -> JsError + jsstring)
         (St : Type) (sink : Sink St) (type uri0 : jsstring)
         (feedIds : FeedIds) (sched : list nat) (w w' : World St)
         (up : Uploaded),
    type = js "js" \/ type = js "css" ->
    bundleAndUpload bundleJS bundleCSS sink type feedIds uri0 sched w
    = Some (inr up, w') ->
    exists ids raws feeds content H w1 errs,
      feedIds = IdArray ids
      /\ fetchFeeds sink ids 3 sched w = Some (inr raws, w1)
      /\ Forall2 (fun raw feed => JSON.parse raw = inr feed) raws feeds
      /\ bundleFeeds bundleJS bundleCSS feeds type = inr content
      /\ (type = js "js" -> bundleJS feeds = inr content)
      /\ (type = js "css" -> bundleCSS feeds = inr content)
      /\ H = Sha256.hex (Sha256.sha256 (Sha256.utf8 content))
      /\ List.length H = 64
      /\ Forall (fun c => is_lower_hex c = true) H
      /\ file up = H ++ js "." ++ type
      /\ (file up = H ++ js ".js" \/ file up = H ++ js ".css")
      /\ uri up = uri0 ++ file up
      /\ calls w' = calls w1 ++ failed_sets (file up) content errs
                    ++ [SetCall (file up) content (inr tt)]
      /\ List.length errs <= 3.
Proof.
  intros bundleJS bundleCSS St sink type uri0 feedIds sched w w' up Htype Hrun.
  destruct feedIds as [shown|[|id ids]]; try discriminate.
  rewrite bundleAndUpload_steps in Hrun.
  destruct (fetchFeeds sink (id :: ids) 3 sched w) as [[[b|raws] w1]|]
    eqn:Hfetch; try discriminate.
  destruct (parseFeeds raws) as [b|feeds] eqn:Hparse; try discriminate.
  destruct (bundleFeeds bundleJS bundleCSS feeds type) as [b|content] eqn:Hb;
    try discriminate.
  cbv zeta in Hrun.
  destruct (createHashFromContent_format content) as [Hlen Hhex].
  change (createHashFromContent content)
    with (Sha256.hex (Sha256.sha256 (Sha256.utf8 content))) in *.
  remember (Sha256.hex (Sha256.sha256 (Sha256.utf8 content))) as H eqn:HH.
  remember (H ++ js "." ++ type) as name eqn:Hname.
  destruct (upload_sets St sink name content 3 w1)
    as [r [w2 [errs [last [st1 [Hup [_ [_ [Hcalls [_ [Hle Hend]]]]]]]]]]].
  rewrite Hup in Hrun.
  destruct last as [e|u].
  { destruct Hend as [cause [-> _]]. discriminate. }
  subst r. injection Hrun as <- <-. cbn [file uri]. destruct u.
  exists (id :: ids), raws, feeds, content, H, w1, errs.
  split; [reflexivity|]. split; [exact Hfetch|].
  split.
  { unfold parseFeeds in Hparse.
    destruct (map_JSON_parse raws) as [e|vs] eqn:Hmap; [discriminate|].
    injection Hparse as <-. now apply map_JSON_parse_ok. }
  split; [exact Hb|].
  split.
  { intros ->. unfold bundleFeeds in Hb.
    replace (jsstring_eqb (js "js") (js "css")) with false in Hb
      by reflexivity.
    destruct (bundleJS feeds); [discriminate | congruence]. }
  split.
  { intros ->. unfold bundleFeeds in Hb. rewrite jsstring_eqb_refl in Hb.
    destruct (bundleCSS feeds); [discriminate | congruence]. }
  split; [exact HH|]. split; [exact Hlen|]. split; [exact Hhex|].
  split; [exact Hname|].
  split; [destruct Htype as [-> | ->]; [left | right]; exact Hname|].
  split; [reflexivity|]. split; [exact Hcalls | exact Hle].
Qed.

Lemma bundleAndUpload_file_format_witness :
  exists ids raws feeds content H w1 errs,
    IdArray [js "feedA.json"] = IdArray ids
    /\ fetchFeeds Examples.SinkMem ids 3 [0]
         (Examples.world Examples.two_feeds)
       = Some (inr raws, w1)
    /\ Forall2 (fun raw feed => JSON.parse raw = inr feed) raws feeds
    /\ Examples.join_sources feeds = inr content
    /\ H = Sha256.hex (Sha256.sha256 (Sha256.utf8 content))
    /\ List.length H = 64
    /\ js "81a68c14d1d9c91b5af330765479162cc3f8b4cc49f9df2fddd4d6ee7c36afa3.css"
       = H ++ js "." ++ js "css"
    /\ [GetCall 0 (js "feedA.json") (inr Examples.feedA);
        SetCall
          (js "81a68c14d1d9c91b5af330765479162cc3f8b4cc49f9df2fddd4d6ee7c36afa3.css")
          (js "var a=1;") (inr tt)]
       = calls w1
         ++ failed_sets
              (js "81a68c14d1d9c91b5af330765479162cc3f8b4cc49f9df2fddd4d6ee7c36afa3.css")
              content errs
         ++ [SetCall
               (js "81a68c14d1d9c91b5af330765479162cc3f8b4cc49f9df2fddd4d6ee7c36afa3.css")
               content (inr tt)].
Proof.
  destruct (bundleAndUpload_file_format Examples.broken_bundler
              Examples.join_sources Examples.Db Examples.SinkMem (js "css")
              (js "http://host/bundle/") (IdArray [js "feedA.json"]) [0]
              (Examples.world Examples.two_feeds)
              {| store := [(js "81a68c14d1d9c91b5af330765479162cc3f8b4cc49f9df2fddd4d6ee7c36afa3.css",
                            js "var a=1;"); (js "feedA.json", Examples.feedA);
                           (js "feedB.json", Examples.feedB)];
                 calls := [GetCall 0 (js "feedA.json") (inr Examples.feedA);
                           SetCall
                             (js "81a68c14d1d9c91b5af330765479162cc3f8b4cc49f9df2fddd4d6ee7c36afa3.css")
                             (js "var a=1;") (inr tt)] |}
              {| file := js "81a68c14d1d9c91b5af330765479162cc3f8b4cc49f9df2fddd4d6ee7c36afa3.css";
                 uri := js "http://host/bundle/81a68c14d1d9c91b5af330765479162cc3f8b4cc49f9df2fddd4d6ee7c36afa3.css" |})
    as [ids [raws [feeds [content [H [w1 [errs
          [Hids [Hfetch [Hparse [_ [_ [Hcss [HH [Hlen [_ [Hfile
            [_ [_ [Hcalls _]]]]]]]]]]]]]]]]]]]].
  - right. reflexivity.
  - vm_compute. reflexivity.
  - exists ids, raws, feeds, content, H, w1, errs.
    split; [exact Hids|]. split; [exact Hfetch|]. split; [exact Hparse|].
    split; [exact (Hcss eq_refl)|]. split; [exact HH|]. split; [exact Hlen|].
    split; [exact Hfile | exact Hcalls].
Defined.
